(** * AceBase core: transport codec, data references and queries

    A shallow embedding of [src/transport.js] (the transport codec),
    of the [DataReference] / [DataReferenceQuery] classes and of the
    part of [AceBase] that creates references, with the properties the
    specification states about them. *)

From Stdlib Require Import ZArith String Ascii List Floats DecimalString DecimalNat DecimalZ Sorted.
From stdpp Require Import base tactics option list strings.

Open Scope string_scope.
Open Scope list_scope.
Set Warnings "-register-all".

(** * JavaScript values and exceptions *)

Module JS.

(** Exceptions the modelled code can raise. *)
Inductive error : Type :=
| TypeError (msg : string)
| RangeError (msg : string)
| Error (msg : string)
| Thrown (msg : string).   (* [throw `...`] of a plain string *)

(** A computation that returns or throws. *)
Inductive result (A : Type) : Type :=
| Ok (a : A)
| Throw (e : error).
Arguments Ok {A} a.
Arguments Throw {A} e.

#[global] Instance result_ret : MRet result := @Ok.
#[global] Instance result_bind : MBind result := fun A B f r =>
  match r with
  | Ok a => f a
  | Throw e => Throw e
  end.

(** The values the modelled code handles.  A [Date] is its time value
    ([None] is the Invalid Date), an [ArrayBuffer] its bytes.  A
    [PathReference] (of [./path-reference], which is not part of the
    embedded sources) is the wrapper of a path string the
    specification describes, with the one property [path] that
    [serialize] reads.  An array has no holes; an object is the list
    of its own enumerable properties in the order [Object.keys] lists
    them. *)
Inductive value : Type :=
| VUndefined
| VNull
| VBool (b : bool)
| VNumber (n : float)
| VString (s : string)
| VDate (t : option Z)
| VBinary (bytes : list Byte.byte)
| VPathRef (path : string)
| VRegExp (source : string)
| VFunction (id : nat)
| VArray (items : list value)
| VObject (props : list (string * value)).

(** Induction over values that reaches into arrays and objects. *)
Section value_ind.
  Variable P : value -> Prop.
  Hypothesis Hundef : P VUndefined.
  Hypothesis Hnull : P VNull.
  Hypothesis Hbool : forall b, P (VBool b).
  Hypothesis Hnum : forall n, P (VNumber n).
  Hypothesis Hstr : forall s, P (VString s).
  Hypothesis Hdate : forall t, P (VDate t).
  Hypothesis Hbin : forall b, P (VBinary b).
  Hypothesis Hpath : forall p, P (VPathRef p).
  Hypothesis Hre : forall s, P (VRegExp s).
  Hypothesis Hfun : forall i, P (VFunction i).
  Hypothesis Harr : forall items, Forall P items -> P (VArray items).
  Hypothesis Hobj : forall props, Forall (fun kv => P kv.2) props -> P (VObject props).

Fixpoint value_rect' (v : value) : P v :=
  match v with
  | VUndefined => Hundef
  | VNull => Hnull
  | VBool b => Hbool b
  | VNumber n => Hnum n
  | VString s => Hstr s
  | VDate t => Hdate t
  | VBinary b => Hbin b
  | VPathRef p => Hpath p
  | VRegExp s => Hre s
  | VFunction i => Hfun i
  | VArray items =>
      Harr items
        ((fix go (l : list value) : Forall P l :=
            match l with
            | [] => List.Forall_nil _
            | x :: l' => List.Forall_cons _ _ _ (value_rect' x) (go l')
            end) items)
  | VObject props =>
      Hobj props
        ((fix go (l : list (string * value)) : Forall (fun kv => P kv.2) l :=
            match l with
            | [] => List.Forall_nil _
            | kv :: l' => List.Forall_cons _ _ _ (value_rect' kv.2) (go l')
            end) props)
  end.
End value_ind.

(** [typeof v]. *)
Definition typeof (v : value) : string :=
  match v with
  | VUndefined => "undefined"
  | VBool _ => "boolean"
  | VNumber _ => "number"
  | VString _ => "string"
  | VFunction _ => "function"
  | _ => "object"
  end.

(** [v instanceof Array], [... Date], [... ArrayBuffer],
    [... PathReference], [... RegExp]. *)
Definition instanceof_Array (v : value) : bool :=
  match v with VArray _ => true | _ => false end.
Definition instanceof_Date (v : value) : bool :=
  match v with VDate _ => true | _ => false end.
Definition instanceof_ArrayBuffer (v : value) : bool :=
  match v with VBinary _ => true | _ => false end.
Definition instanceof_PathReference (v : value) : bool :=
  match v with VPathRef _ => true | _ => false end.
Definition instanceof_RegExp (v : value) : bool :=
  match v with VRegExp _ => true | _ => false end.

(** The truth value of [v] in a condition. *)
Definition truthy (v : value) : bool :=
  match v with
  | VUndefined | VNull => false
  | VBool b => b
  | VNumber n => negb (PrimFloat.is_zero n || PrimFloat.is_nan n)
  | VString s => negb (Nat.eqb (String.length s) 0)
  | _ => true
  end.

(** The property name of array index [i]. *)
Definition index_key (i : nat) : string :=
  NilEmpty.string_of_uint (Nat.to_uint i).

(** The array index a property name denotes, if it is one in
    canonical form. *)
Definition key_index (k : string) : option nat :=
  match NilEmpty.uint_of_string k with
  | Some u =>
      let i := Nat.of_uint u in
      if String.eqb (index_key i) k then Some i else None
  | None => None
  end.

(** [Object.keys(v)] for a value that is not [null] or [undefined]. *)
Definition own_keys (v : value) : list string :=
  match v with
  | VArray items => index_key <$> seq 0 (length items)
  | VObject props => fst <$> props
  | VPathRef _ => ["path"]
  | VString s => index_key <$> seq 0 (String.length s)
  | _ => []
  end.

(** Lookup of an own property in a property list. *)
Fixpoint assoc {A} (k : string) (l : list (string * A)) : option A :=
  match l with
  | [] => None
  | (k', x) :: l' => if String.eqb k' k then Some x else assoc k l'
  end.

(** [l[k] = x] on a property list: an existing property keeps its
    place, a new one is added at the end. *)
Fixpoint assoc_set {A} (k : string) (x : A) (l : list (string * A)) : list (string * A) :=
  match l with
  | [] => [(k, x)]
  | (k', y) :: l' =>
      if String.eqb k' k then (k', x) :: l' else (k', y) :: assoc_set k x l'
  end.

(** A property name that is an array index: a number below 2^32 - 1 in
    canonical form.  [Object.keys] lists such names first, in
    ascending order, and the other names after them in the order in
    which they were added. *)
Definition array_index (k : string) : option nat :=
  match key_index k with
  | Some i => if (Z.of_nat i <? 4294967295)%Z then Some i else None
  | None => None
  end.

(** The place of a new property whose name is the array index [i]:
    after the smaller array indices and before everything else. *)
Fixpoint insert_index {A} (i : nat) (k : string) (x : A) (l : list (string * A))
  : list (string * A) :=
  match l with
  | [] => [(k, x)]
  | (k', y) :: l' =>
      match array_index k' with
      | Some j => if Nat.ltb i j then (k, x) :: l else (k', y) :: insert_index i k x l'
      | None => (k, x) :: l
      end
  end.

(** [o[k] = x] on the own properties of an ordinary object, kept in
    the order [Object.keys] lists them: an existing property keeps
    its place, a new one goes where its name puts it. *)
Definition own_set {A} (k : string) (x : A) (l : list (string * A)) : list (string * A) :=
  match assoc k l with
  | Some _ => assoc_set k x l
  | None =>
      match array_index k with
      | Some i => insert_index i k x l
      | None => l ++ [(k, x)]
      end
  end.

(** [v[k]] on the own data properties of [v]: the read for every name
    [v] has as an own property, and for every name that is on no
    prototype of [v] either.  A name that [v] only inherits (such as
    [constructor]) and the [length] of an array or string are outside
    the model and read as [undefined] here.  Reading a property of
    [null] or [undefined] throws. *)
Definition get_prop (v : value) (k : string) : result value :=
  match v with
  | VUndefined | VNull =>
      Throw (TypeError "Cannot read properties of undefined or null")
  | VObject props => Ok (default VUndefined (assoc k props))
  | VArray items =>
      Ok (match key_index k with
          | Some i => default VUndefined (items !! i)
          | None => VUndefined
          end)
  | VPathRef p => Ok (if String.eqb k "path" then VString p else VUndefined)
  | VString s =>
      Ok (match key_index k with
          | Some i =>
              match String.get i s with
              | Some c => VString (String c EmptyString)
              | None => VUndefined
              end
          | None => VUndefined
          end)
  | _ => Ok VUndefined
  end.

(** [v[k] = x] for a [v] that is not [null] or [undefined]: sets an
    own property of an object, an element of an array (within its
    length or right at its end), and is silently ignored on a
    primitive (the module is not in strict mode).  On an object
    without an own property [__proto__], that name reaches the
    accessor inherited from [Object.prototype] and no property is
    created.  Properties added to other objects are not part of the
    model. *)
Definition set_prop (v : value) (k : string) (x : value) : value :=
  match v with
  | VObject props =>
      match assoc k props with
      | None => if String.eqb k "__proto__" then v else VObject (own_set k x props)
      | Some _ => VObject (own_set k x props)
      end
  | VArray items =>
      match key_index k with
      | Some i =>
          if decide (i < length items) then VArray (<[i:=x]> items)
          else if decide (i = length items) then VArray (items ++ [x])
          else v
      | None => v
      end
  | _ => v
  end.

End JS.

(** * The transport codec ([src/transport.js]) *)

Module Transport.
Import JS.

(** What the codec takes from the JavaScript runtime and from modules
    of the repository that are not part of the embedded sources
    ([./ascii85], [./path-reference]). *)
Class Builtins : Type := {
  (** [Date.prototype.toISOString] on a valid time value *)
  Date_toISOString : Z -> string;
  (** [new Date(v)] *)
  Date_new : value -> value;
  (** [ascii85.encode(buffer)] *)
  ascii85_encode : list Byte.byte -> string;
  (** [ascii85.decode(v)] *)
  ascii85_decode : value -> result value;
  (** [new PathReference(v)] *)
  PathReference_new : value -> value;
  (** [parseInt(s)] *)
  parseInt : string -> float;
  (** the property name a number denotes when it is used as a key *)
  Number_toKey : float -> string
}.

(** The time values a [Date] can hold. *)
Definition valid_time (t : Z) : Prop :=
  (-8640000000000000 <= t <= 8640000000000000)%Z.

(** The documented behaviour of those functions on what the codec
    itself produces. *)
Class BuiltinsLaws (B : Builtins) : Prop := {
  Date_parse_toISOString :
    forall t, valid_time t -> Date_new (VString (Date_toISOString t)) = VDate (Some t);
  ascii85_decode_encode :
    forall b, ascii85_decode (VString (ascii85_encode b)) = Ok (VBinary b);
  PathReference_new_string :
    forall p, PathReference_new (VString p) = VPathRef p
}.

(** The [map] of an envelope: absent, [null], one type tag, or an
    object from relative paths to type tags, in the order
    [Object.keys] lists them. *)
Inductive envelope_map : Type :=
| MapUndefined
| MapNull
| MapTag (type : string)
| MapObject (entries : list (string * string)).

(** The transport envelope [{ map, val }]. *)
Record envelope : Type := Envelope { env_map : envelope_map; env_val : value }.

(** ** String helpers of [deserialize] *)

(** [path.replace(/\[/g, "/[")] *)
Fixpoint replace_brackets (s : string) : string :=
  match s with
  | EmptyString => EmptyString
  | String c s' =>
      if Ascii.eqb c "["%char then String "/"%char (String "["%char (replace_brackets s'))
      else String c (replace_brackets s')
  end.

(** [s.split("/")] *)
Fixpoint split_slash (s : string) : list string :=
  match s with
  | EmptyString => [EmptyString]
  | String c s' =>
      if Ascii.eqb c "/"%char then EmptyString :: split_slash s'
      else match split_slash s' with
           | h :: t => String c h :: t
           | [] => [String c EmptyString]
           end
  end.

(** [key.startsWith("[")] *)
Definition starts_with_bracket (key : string) : bool :=
  match key with
  | String c _ => Ascii.eqb c "["%char
  | EmptyString => false
  end.

Section Codec.
Context {B : Builtins}.

(** ** [deserialize] *)

(** The inner function [deserializeValue]. *)
Definition deserializeValue (type : string) (val : value) : result value :=
  if String.eqb type "date" then Ok (Date_new val)
  else if String.eqb type "binary" then ascii85_decode val
  else if String.eqb type "reference" then Ok (PathReference_new val)
  else Ok val.

(** The [keys] of one map entry: the path split at the separators,
    with every bracketed segment turned into the number inside it (a
    number used as a key stands for its property name). *)
Definition path_keys (path : string) : list string :=
  (fun key =>
     if starts_with_bracket key
     then Number_toKey (parseInt (String.substring 1 (String.length key - 2) key))
     else key)
  <$> split_slash (replace_brackets path).

(** The walk [keys.forEach(k => { key = k; parent = val; val = val[key]; })]:
    the value it ends on. *)
Fixpoint walk (val : value) (keys : list string) : result value :=
  match keys with
  | [] => Ok val
  | k :: keys' => val' ← get_prop val k; walk val' keys'
  end.

(** The child of [v] under an own key, changed in place by [f]. *)
Definition change_child (v : value) (k : string) (f : value -> value) : value :=
  match v with
  | VObject props =>
      match assoc k props with
      | Some child => VObject (assoc_set k (f child) props)
      | None => v
      end
  | VArray items =>
      match key_index k with
      | Some i => VArray (alter f i items)
      | None => v
      end
  | _ => v
  end.

(** The assignment [parent[key] = x] after that walk, seen from the
    root: [parent] is the node the keys before the last lead to, and
    it is changed in place. *)
Fixpoint assign (root : value) (keys : list string) (x : value) : value :=
  match keys with
  | [] => root
  | [k] => set_prop root k x
  | k :: keys' => change_child root k (fun child => assign child keys' x)
  end.

(** The body of [Object.keys(data.map).forEach(path => ...)], as a
    function of the current [data.val]. *)
Definition restore (root : value) (entry : string * string) : result value :=
  let keys := path_keys entry.1 in
  val ← walk root keys;
  x ← deserializeValue entry.2 val;
  Ok (assign root keys x).

(** The map entries handled one after the other. *)
Fixpoint restore_all (root : value) (entries : list (string * string)) : result value :=
  match entries with
  | [] => Ok root
  | entry :: entries' => root' ← restore root entry; restore_all root' entries'
  end.

Definition deserialize (data : envelope) : result value :=
  match env_map data with
  | MapUndefined | MapNull => Ok (env_val data)
  | MapTag type => deserializeValue type (env_val data)
  | MapObject entries => restore_all (env_val data) entries
  end.

(** ** [serialize] *)

(** Modelled from the spec: [cloneObject] of [./utils], which is not
    part of the embedded sources.  Composite input is deep-cloned; a
    deep copy of a value without sharing is an equal value (module
    [Store] below has the copy as an operation on a store). *)
Definition cloneObject (obj : value) : value := obj.

(** [val.toISOString()] *)
Definition toISOString (t : option Z) : result string :=
  match t with
  | Some t => Ok (Date_toISOString t)
  | None => Throw (RangeError "Invalid time value")
  end.

(** The [path] of the property [key] under [prefix]. *)
Definition child_path (prefix key : string) : string :=
  if Nat.eqb (String.length prefix) 0 then key else prefix ++ "/" ++ key.

(** The loops [Object.keys(obj).forEach(key => ...)] over an array and
    over an object, for a given treatment [entry] of one property:
    they return the new elements or properties and the mappings. *)
Section each.
Variable entry : value -> list (string * string) -> string -> result (value * list (string * string)).
Variable prefix : string.

Fixpoint each_item (items : list value) (i : nat) (mappings : list (string * string))
  : result (list value * list (string * string)) :=
  match items with
  | [] => Ok ([], mappings)
  | val :: items' =>
      r ← entry val mappings (child_path prefix (index_key i));
      r' ← each_item items' (S i) r.2;
      Ok (r.1 :: r'.1, r'.2)
  end.

Fixpoint each_prop (props : list (string * value)) (mappings : list (string * string))
  : result (list (string * value) * list (string * string)) :=
  match props with
  | [] => Ok ([], mappings)
  | (key, val) :: props' =>
      r ← entry val mappings (child_path prefix key);
      r' ← each_prop props' r.2;
      Ok ((key, r.1) :: r'.1, r'.2)
  end.
End each.

(** The assignment [mappings[path] = tag].  [mappings] is the object
    [serialize] creates as [{}] (l.85), so that
    - the name [__proto__] reaches the accessor inherited from
      [Object.prototype], whose setter ignores a string: no property
      is created and [mappings] stays as it is;
    - every other name is set as an own property, listed by
      [Object.keys] where [own_set] puts it. *)
Definition map_set (path tag : string) (mappings : list (string * string))
  : list (string * string) :=
  if String.eqb path "__proto__" then mappings else own_set path tag mappings.

(** What the body of the loop in [process] does with [val = obj[key]]
    at [path]: the new [obj[key]] and the mappings.  On a nested
    object or array it is [process(val, mappings, path)]. *)
Fixpoint process_entry (val : value) (mappings : list (string * string)) (path : string)
  {struct val} : result (value * list (string * string)) :=
  match val with
  | VDate t =>
      iso ← toISOString t;
      Ok (VString iso, map_set path "date" mappings)
  | VBinary bytes =>
      Ok (VString (ascii85_encode bytes), map_set path "binary" mappings)
  | VPathRef p =>
      Ok (VString p, map_set path "reference" mappings)
  | VArray items =>
      r ← each_item process_entry path items 0 mappings;
      Ok (VArray r.1, r.2)
  | VObject props =>
      r ← each_prop process_entry path props mappings;
      Ok (VObject r.1, r.2)
  | _ => Ok (val, mappings)
  end.

(** The inner function [process(obj, mappings, prefix)]: the changed
    [obj] and the changed [mappings]. *)
Definition process (obj : value) (mappings : list (string * string)) (prefix : string)
  : result (value * list (string * string)) :=
  match obj with
  | VArray items =>
      r ← each_item process_entry prefix items 0 mappings;
      Ok (VArray r.1, r.2)
  | VObject props =>
      r ← each_prop process_entry prefix props mappings;
      Ok (VObject r.1, r.2)
  | _ => Ok (obj, mappings)
  end.

(** The first test of [serialize]: [obj] is a single value. *)
Definition single_value (obj : value) : bool :=
  match obj with
  | VNull => true
  | _ =>
      negb (String.eqb (typeof obj) "object")
      || instanceof_Date obj || instanceof_ArrayBuffer obj || instanceof_PathReference obj
  end.

(** The part of [serialize] after that test. *)
Definition serialize_composite (obj : value) : result envelope :=
  let obj := cloneObject obj in
  r ← process obj [] "";
  Ok (Envelope (MapObject r.2) r.1).

(** The read [ser.map.value]. *)
Definition map_value (m : envelope_map) : envelope_map :=
  match m with
  | MapObject entries =>
      match assoc "value" entries with
      | Some type => MapTag type
      | None => MapUndefined
      end
  | _ => MapUndefined
  end.

(** [serialize(obj)]; the call [this.serialize({ value: obj })] of the
    first branch is on an object and so takes the second. *)
Definition serialize (obj : value) : result envelope :=
  if single_value obj then
    ser ← serialize_composite (VObject [("value", obj)]);
    v ← get_prop (env_val ser) "value";
    Ok (Envelope (map_value (env_map ser)) v)
  else serialize_composite obj.

End Codec.

(** ** The values the round trip is stated for *)

(** A character that has no meaning in a path. *)
Definition plain_char (c : ascii) : bool :=
  negb (Ascii.eqb c "/"%char) && negb (Ascii.eqb c "["%char).

Fixpoint plain (s : string) : bool :=
  match s with
  | EmptyString => true
  | String c s' => plain_char c && plain s'
  end.

(** The value is or holds a [Date], a binary value or a path link. *)
Fixpoint rich (v : value) : bool :=
  match v with
  | VDate _ | VBinary _ | VPathRef _ => true
  | VArray items => existsb rich items
  | VObject props => existsb (fun kv => rich kv.2) props
  | _ => false
  end.

(** The value is itself a [Date], a binary value or a path link: what
    [process] records in the map. *)
Definition tagged (v : value) : bool :=
  match v with
  | VDate _ | VBinary _ | VPathRef _ => true
  | _ => false
  end.

(** Every property name on the way from the root to a [Date], a binary
    value or a path link is [plain]. *)
Fixpoint plain_keys (v : value) : bool :=
  match v with
  | VArray items => forallb plain_keys items
  | VObject props =>
      forallb (fun kv => negb (rich kv.2) || (plain kv.1 && plain_keys kv.2)) props
  | _ => true
  end.

(** A property of the root that a path of the map can start with.
    When the property is itself a [Date], a binary value or a path
    link, its path is its name alone, and the name is not
    [__proto__]; when it is an array or object with such values in
    it, its name is the prefix of their paths, and is not empty. *)
Definition root_key (k : string) (x : value) : bool :=
  if tagged x then negb (String.eqb k "__proto__")
  else negb (Nat.eqb (String.length k) 0).

(** The values whose map leads back to every [Date], binary value and
    path link: the names on the way to them are plain, and the
    properties of the root that hold them have a [root_key]. *)
Definition addressable (v : value) : bool :=
  plain_keys v &&
  match v with
  | VObject props => forallb (fun kv => negb (rich kv.2) || root_key kv.1 kv.2) props
  | _ => true
  end.

(** The key sequences [process] and [deserialize] agree on: plain
    keys, at least one, the first not empty when others follow, and
    not the one name [__proto__]. *)
Definition path_ok (ks : list string) : Prop :=
  Forall (fun k => plain k = true) ks /\
  match ks with
  | [] => False
  | [k] => k <> "__proto__"
  | k :: _ => String.length k <> 0
  end.

(** The supported kinds of value: plain JSON values (and [undefined]),
    valid timestamps, binary values, path links, and arrays and
    objects of these; an object has each of its keys once. *)
Fixpoint supported (v : value) : bool :=
  match v with
  | VDate (Some t) => bool_decide (valid_time t)
  | VDate None => false
  | VRegExp _ | VFunction _ => false
  | VArray items => forallb supported items
  | VObject props =>
      bool_decide (NoDup (fst <$> props)) && forallb (fun kv => supported kv.2) props
  | _ => true
  end.

(** Two envelopes that differ at most in the order in which the keys
    of [map] are listed. *)
Definition same_envelope (e e' : envelope) : Prop :=
  env_val e = env_val e' /\
  match env_map e, env_map e' with
  | MapObject entries, MapObject entries' => entries ≡ₚ entries'
  | m, m' => m = m'
  end.

(** ** An instance of the built-ins to run the codec on

    Its encodings stand in for the real ones: the time value in
    decimal for the ISO string, the bytes as characters for ascii85.
    The theorems below hold for every instance with the laws. *)

Definition sample_parseInt (s : string) : float :=
  match key_index s with
  | Some i => PrimFloat.of_uint63 (Uint63.of_Z (Z.of_nat i))
  | None => PrimFloat.nan
  end.

Definition sample_toKey (n : float) : string :=
  match FloatOps.Prim2SF n with
  | SpecFloat.S754_zero _ => "0"
  | SpecFloat.S754_finite false m e => index_key (Z.to_nat (Z.shiftl (Z.pos m) e))
  | _ => "NaN"
  end.

#[global] Instance sample : Builtins := {
  Date_toISOString t := NilEmpty.string_of_int (Z.to_int t);
  Date_new v :=
    match v with
    | VString s => VDate (Z.of_int <$> NilEmpty.int_of_string s)
    | VDate t => VDate t
    | _ => VDate None
    end;
  ascii85_encode := string_of_list_byte;
  ascii85_decode v :=
    match v with
    | VString s => Ok (VBinary (list_byte_of_string s))
    | _ => Throw (TypeError "not a string")
    end;
  PathReference_new v :=
    match v with
    | VString s => VPathRef s
    | _ => v
    end;
  parseInt := sample_parseInt;
  Number_toKey := sample_toKey
}.

(** The values of the counterexample to the round trip: a timestamp
    under a key that holds the separator, under a key that holds an
    opening bracket, under the top-level key [__proto__], and below
    an empty top-level key. *)
Definition slash_key_value : value := VObject [("a/b", VDate (Some 0%Z))].
Definition bracket_key_value : value := VObject [("a[0]", VDate (Some 0%Z))].
Definition proto_key_value : value := VObject [("__proto__", VDate (Some 0%Z))].
Definition empty_key_value : value := VObject [("", VObject [("a", VDate (Some 0%Z))])].

(** Values with empty keys that the round trip covers. *)
Definition empty_leaf_value : value :=
  VObject [("", VDate (Some 0%Z)); ("a", VObject [("", VObject [("b", VPathRef "x")])])].

(** A value with every supported kind in it. *)
Definition mixed_value : value :=
  VObject
    [("title", VString "x");
     ("when", VDate (Some 1541030400000%Z));
     ("tags", VArray [VPathRef "users/ewout"; VNull; VBinary [Byte.x01; Byte.xff]]);
     ("nested", VObject [("deep", VArray [VObject [("at", VDate (Some 0%Z))]]);
                         ("n", VNumber 1.5%float)])].

(** ** Devices of the round-trip proof *)

(** The properties of an array, as [Object.keys] and property reads
    see them, from index [i] on. *)
Fixpoint indexed (i : nat) (items : list value) : list (string * value) :=
  match items with
  | [] => []
  | x :: items' => (index_key i, x) :: indexed (S i) items'
  end.

(** An array or an object given by the list of its properties. *)
Definition node (arr : bool) (props : list (string * value)) : value :=
  if arr then VArray (snd <$> props) else VObject props.

(** The path [process] gives the property reached by [keys] from the
    object whose own path is [prefix]. *)
Definition jpath (prefix : string) (keys : list string) : string :=
  foldl child_path prefix keys.

(** The places of the [Date]s, binary values and path links in a
    value, as key sequences from its root, each with its type tag, in
    the order [process] meets them. *)
Definition leaves_props (f : value -> list (list string * string))
    (props : list (string * value)) : list (list string * string) :=
  props ≫= fun kv => (fun e => (kv.1 :: e.1, e.2)) <$> f kv.2.

Fixpoint leaves_items (f : value -> list (list string * string))
    (i : nat) (items : list value) : list (list string * string) :=
  match items with
  | [] => []
  | x :: items' =>
      ((fun e => (index_key i :: e.1, e.2)) <$> f x) ++ leaves_items f (S i) items'
  end.

Fixpoint leaves (v : value) : list (list string * string) :=
  match v with
  | VDate _ => [([], "date")]
  | VBinary _ => [([], "binary")]
  | VPathRef _ => [([], "reference")]
  | VArray items => leaves_items leaves 0 items
  | VObject props => leaves_props leaves props
  | _ => []
  end.

Section Devices.
Context {B : Builtins}.

(** A value in which the [Date]s, binary values and path links at the
    places in [D] are themselves and the others are replaced by their
    encodings: what [data.val] is after the map entries for [D] have
    been handled. *)
Definition pstrip_props (f : (list string -> bool) -> value -> value)
    (D : list string -> bool) (props : list (string * value)) : list (string * value) :=
  (fun kv => (kv.1, f (fun ks => D (kv.1 :: ks)) kv.2)) <$> props.

Fixpoint pstrip_items (f : (list string -> bool) -> value -> value)
    (D : list string -> bool) (i : nat) (items : list value) : list value :=
  match items with
  | [] => []
  | x :: items' =>
      f (fun ks => D (index_key i :: ks)) x :: pstrip_items f D (S i) items'
  end.

Fixpoint pstrip (D : list string -> bool) (v : value) : value :=
  match v with
  | VDate (Some t) => if D [] then v else VString (Date_toISOString t)
  | VBinary bytes => if D [] then v else VString (ascii85_encode bytes)
  | VPathRef p => if D [] then v else VString p
  | VArray items => VArray (pstrip_items pstrip D 0 items)
  | VObject props => VObject (pstrip_props pstrip D props)
  | _ => v
  end.

(** The value with every such leaf replaced: the [val] of the envelope. *)
Definition strip (v : value) : value := pstrip (fun _ => false) v.

(** The entries [process] adds to the mappings for a value at [path]. *)
Definition record_leaves (path : string) (mappings : list (string * string))
    (l : list (list string * string)) : list (string * string) :=
  foldl (fun m e => map_set (jpath path e.1) e.2 m) mappings l.

End Devices.

(** * Facts about the codec *)

Section StringFacts.

Lemma key_index_index_key (i : nat) : key_index (index_key i) = Some i.
Proof.
  unfold key_index, index_key.
  rewrite NilEmpty.usu, DecimalNat.Unsigned.of_to.
  by rewrite String.eqb_refl.
Qed.

Lemma key_index_Some (k : string) (i : nat) : key_index k = Some i -> k = index_key i.
Proof.
  unfold key_index. destruct (NilEmpty.uint_of_string k) as [u|]; [|done].
  simpl. destruct (String.eqb_spec (index_key (Nat.of_uint u)) k); [|done].
  intros [= <-]. done.
Qed.

Lemma index_key_inj (i j : nat) : index_key i = index_key j -> i = j.
Proof.
  intros H. pose proof (key_index_index_key i) as Hi.
  rewrite H, key_index_index_key in Hi. congruence.
Qed.

Lemma plain_string_of_uint (d : Decimal.uint) : plain (NilEmpty.string_of_uint d) = true.
Proof. induction d; simpl; auto. Qed.

Lemma string_of_uint_nonempty (d : Decimal.uint) :
  d <> Decimal.Nil -> String.length (NilEmpty.string_of_uint d) <> 0.
Proof. destruct d; simpl; congruence. Qed.

Lemma to_uint_not_Nil (i : nat) : Nat.to_uint i <> Decimal.Nil.
Proof.
  intros H. pose proof (DecimalNat.Unsigned.of_to i) as Hi. rewrite H in Hi.
  pose proof (DecimalNat.Unsigned.to_of Decimal.Nil) as Hn. simpl in Hi. subst i.
  simpl in H. discriminate.
Qed.

Lemma plain_index_key (i : nat) : plain (index_key i) = true.
Proof. apply plain_string_of_uint. Qed.

Lemma index_key_nonempty (i : nat) : String.length (index_key i) <> 0.
Proof. apply string_of_uint_nonempty, to_uint_not_Nil. Qed.

Lemma index_key_not_proto (i : nat) : index_key i <> "__proto__".
Proof.
  intros H. pose proof (key_index_index_key i) as Hi. rewrite H in Hi. discriminate.
Qed.

Lemma replace_brackets_plain (s : string) : plain s = true -> replace_brackets s = s.
Proof.
  induction s as [|c s IH]; simpl; [done|].
  unfold plain_char. intros [[_ Hc]%andb_true_iff Hs]%andb_true_iff.
  apply negb_true_iff in Hc. rewrite Hc. by rewrite IH.
Qed.

Lemma split_slash_plain (s : string) : plain s = true -> split_slash s = [s].
Proof.
  induction s as [|c s IH]; simpl; [done|].
  unfold plain_char. intros [[Hc _]%andb_true_iff Hs]%andb_true_iff.
  apply negb_true_iff in Hc. rewrite Hc. by rewrite IH.
Qed.

Lemma split_slash_nonempty (s : string) : split_slash s <> [].
Proof.
  induction s as [|c s IH]; simpl; [done|].
  destruct (Ascii.eqb c "/"); [done|]. by destruct (split_slash s).
Qed.

Lemma split_slash_snoc (p k : string) :
  plain k = true -> split_slash (p +:+ "/" +:+ k) = split_slash p ++ [k].
Proof.
  intros Hk. induction p as [|c p IH]; simpl.
  - by rewrite split_slash_plain.
  - destruct (Ascii.eqb c "/"); [by rewrite IH|].
    rewrite IH. pose proof (split_slash_nonempty p).
    by destruct (split_slash p).
Qed.

Lemma plain_app (s1 s2 : string) : plain (s1 +:+ s2) = plain s1 && plain s2.
Proof. induction s1 as [|c s1 IH]; simpl; [done|]. by rewrite IH, andb_assoc. Qed.

Lemma replace_brackets_app (s1 s2 : string) :
  replace_brackets (s1 +:+ s2) = replace_brackets s1 +:+ replace_brackets s2.
Proof.
  induction s1 as [|c s1 IH]; simpl; [done|].
  destruct (Ascii.eqb c "["); simpl; by rewrite IH.
Qed.

Lemma length_app_nonzero (s1 s2 : string) :
  String.length s2 <> 0 -> String.length (s1 +:+ s2) <> 0.
Proof. induction s1; simpl; auto. Qed.

Lemma plain_not_bracket (k : string) : plain k = true -> starts_with_bracket k = false.
Proof.
  destruct k as [|c k]; [done|]. simpl. unfold plain_char.
  intros [[_ Hc]%andb_true_iff _]%andb_true_iff. by apply negb_true_iff in Hc.
Qed.

Lemma child_path_nonempty (p k : string) :
  String.length p <> 0 -> child_path p k = (p +:+ "/" +:+ k)%string.
Proof. unfold child_path. intros Hp. by destruct (Nat.eqb_spec (String.length p) 0). Qed.

Lemma length_app_slash (p k : string) : String.length (p +:+ "/" +:+ k) <> 0.
Proof. induction p; simpl; auto. Qed.

Lemma jpath_split (p : string) (ks : list string) :
  String.length p <> 0 -> Forall (fun k => plain k = true) ks ->
  split_slash (jpath p ks) = split_slash p ++ ks.
Proof.
  intros Hp Hks. revert p Hp. induction Hks as [|k ks Hk _ IH]; intros p Hp; simpl.
  - by rewrite app_nil_r.
  - unfold jpath in *. simpl. rewrite child_path_nonempty by done.
    rewrite IH by apply length_app_slash.
    by rewrite split_slash_snoc, <- app_assoc.
Qed.

Lemma jpath_replace_brackets (p : string) (ks : list string) :
  String.length p <> 0 -> replace_brackets p = p ->
  Forall (fun k => plain k = true) ks ->
  replace_brackets (jpath p ks) = jpath p ks.
Proof.
  intros Hp Hr Hks. revert p Hp Hr. induction Hks as [|k ks Hk _ IH]; intros p Hp Hr; [done|].
  unfold jpath in *. simpl. rewrite child_path_nonempty by done.
  apply IH; [apply length_app_slash|].
  rewrite !replace_brackets_app, Hr, (replace_brackets_plain k) by done. done.
Qed.



End StringFacts.

(** ** Arrays and objects as lists of properties *)

Section NodeFacts.

(** The property lists [node] is used with: each key once, and for an
    array the index keys in order. *)
Definition wf_node (arr : bool) (props : list (string * value)) : Prop :=
  NoDup (fst <$> props) /\ (arr = true -> props = indexed 0 (snd <$> props)).

Lemma indexed_fst (n : nat) (l : list value) :
  fst <$> indexed n l = index_key <$> seq n (length l).
Proof. revert n. induction l as [|x l IH]; intros n; simpl; [done|]. by rewrite IH. Qed.

Lemma indexed_snd (n : nat) (l : list value) : snd <$> indexed n l = l.
Proof. revert n. induction l as [|x l IH]; intros n; simpl; [done|]. by rewrite IH. Qed.

Lemma indexed_NoDup (n : nat) (l : list value) : NoDup (fst <$> indexed n l).
Proof.
  rewrite indexed_fst. apply NoDup_fmap_2_strong; [|apply NoDup_seq].
  intros i j _ _. apply index_key_inj.
Qed.

Lemma wf_node_indexed (l : list value) : wf_node true (indexed 0 l).
Proof. split; [apply indexed_NoDup|]. intros _. by rewrite indexed_snd. Qed.

Lemma node_indexed (l : list value) : node true (indexed 0 l) = VArray l.
Proof. unfold node. by rewrite indexed_snd. Qed.

Lemma assoc_None {A} (k : string) (l : list (string * A)) :
  assoc k l = None <-> k ∉ fst <$> l.
Proof.
  induction l as [|[k' x] l IH]; simpl.
  - split; [intros _; apply not_elem_of_nil|done].
  - rewrite not_elem_of_cons. destruct (String.eqb_spec k' k) as [->|Hne].
    + split; [done|]. by intros [? _].
    + rewrite IH. split; [by split|by intros [_ ?]].
Qed.

Lemma assoc_Some_elem {A} (k : string) (x : A) (l : list (string * A)) :
  assoc k l = Some x -> (k, x) ∈ l.
Proof.
  induction l as [|[k' y] l IH]; simpl; [done|].
  destruct (String.eqb_spec k' k) as [->|]; [intros [= ->]; left|right; auto].
Qed.

Lemma assoc_NoDup {A} (k : string) (x : A) (l : list (string * A)) :
  NoDup (fst <$> l) -> (k, x) ∈ l -> assoc k l = Some x.
Proof.
  induction l as [|[k' y] l IH]; simpl; [by intros _ ?%elem_of_nil|].
  intros [Hk' Hl]%NoDup_cons [[= <- <-]|Hin]%elem_of_cons.
  - by rewrite String.eqb_refl.
  - destruct (String.eqb_spec k' k) as [->|]; [|auto].
    destruct Hk'. apply list_elem_of_fmap. by exists (k, x).
Qed.

Lemma assoc_set_fst {A} (k : string) (x : A) (l : list (string * A)) :
  k ∈ fst <$> l -> fst <$> assoc_set k x l = fst <$> l.
Proof.
  induction l as [|[k' y] l IH]; simpl; [by intros ?%elem_of_nil|].
  destruct (String.eqb_spec k' k) as [->|]; [done|].
  intros [?|?]%elem_of_cons; [congruence|]. csimpl. by rewrite IH.
Qed.

Lemma assoc_set_fresh {A} (k : string) (x : A) (l : list (string * A)) :
  k ∉ fst <$> l -> assoc_set k x l = l ++ [(k, x)].
Proof.
  induction l as [|[k' y] l IH]; simpl; [done|].
  intros [? ?]%not_elem_of_cons.
  destruct (String.eqb_spec k' k); [congruence|]. by rewrite IH.
Qed.

Lemma insert_index_perm {A} (i : nat) (k : string) (x : A) (l : list (string * A)) :
  insert_index i k x l ≡ₚ l ++ [(k, x)].
Proof.
  induction l as [|[k' y] l IH]; [done|]. cbn [insert_index].
  destruct (array_index k') as [j|]; [destruct (Nat.ltb i j)|].
  - apply Permutation_cons_append.
  - simpl. by rewrite IH.
  - apply Permutation_cons_append.
Qed.

Lemma own_set_fresh {A} (k : string) (x : A) (l : list (string * A)) :
  k ∉ fst <$> l -> own_set k x l ≡ₚ l ++ [(k, x)].
Proof.
  intros Hk. unfold own_set. apply assoc_None in Hk as ->.
  destruct (array_index k); [apply insert_index_perm|done].
Qed.

Lemma assoc_indexed (k : string) (n : nat) (l : list value) :
  assoc k (indexed n l) =
  match key_index k with
  | Some i => if decide (n <= i) then l !! (i - n) else None
  | None => None
  end.
Proof.
  revert n. induction l as [|x l IH]; intros n; simpl.
  - destruct (key_index k); [|done]. by case_decide.
  - destruct (String.eqb_spec (index_key n) k) as [<-|Hne].
    + rewrite key_index_index_key. rewrite decide_True by lia. by rewrite Nat.sub_diag.
    + rewrite IH. destruct (key_index k) as [i|] eqn:Hk; [|done].
      apply key_index_Some in Hk. subst k.
      assert (i <> n) by congruence.
      repeat case_decide; try lia; [|done].
      by replace (i - n) with (S (i - S n)) by lia.
Qed.

Lemma assoc_set_indexed (i n : nat) (x : value) (l : list value) :
  n <= i -> assoc_set (index_key i) x (indexed n l) =
            if decide (i - n < length l) then indexed n (<[i - n := x]> l)
            else indexed n l ++ [(index_key i, x)].
Proof.
  revert n. induction l as [|y l IH]; intros n Hn; simpl.
  - done.
  - destruct (String.eqb_spec (index_key n) (index_key i)) as [Heq|Hne].
    + apply index_key_inj in Heq. subst i. rewrite Nat.sub_diag.
      by rewrite decide_True by lia.
    + assert (i <> n) by congruence. rewrite IH by lia.
      replace (i - n) with (S (i - S n)) by lia. simpl.
      repeat case_decide; try lia; done.
Qed.

(** Reading, writing and changing a property of a [node]. *)
Lemma get_prop_node (arr : bool) (props : list (string * value)) (k : string) :
  wf_node arr props ->
  get_prop (node arr props) k = Ok (default VUndefined (assoc k props)).
Proof.
  intros [_ Harr]. destruct arr; [|done]. simpl.
  specialize (Harr eq_refl). set (l := props.*2) in *. rewrite Harr, assoc_indexed.
  destruct (key_index k); [|done]. rewrite decide_True by lia. by rewrite Nat.sub_0_r.
Qed.

Lemma set_prop_node (arr : bool) (props : list (string * value)) (k : string) (x : value) :
  wf_node arr props -> k ∈ fst <$> props ->
  set_prop (node arr props) k x = node arr (assoc_set k x props)
  /\ wf_node arr (assoc_set k x props).
Proof.
  intros [Hnd Harr] Hk.
  assert (NoDup (fst <$> assoc_set k x props)) by by rewrite assoc_set_fst.
  destruct arr.
  2:{ split; [|done]. simpl. unfold own_set.
      destruct (assoc k props) eqn:Hassoc; [done|]. by apply assoc_None in Hassoc. }
  specialize (Harr eq_refl).
  set (l := snd <$> props) in *. rewrite Harr in Hk |- *. clearbody l. clear Harr.
  rewrite indexed_fst in Hk. apply list_elem_of_fmap in Hk as (i & -> & Hi).
  apply elem_of_seq in Hi. simpl.
  rewrite key_index_index_key, indexed_snd, assoc_set_indexed by lia.
  rewrite Nat.sub_0_r. rewrite !decide_True by lia.
  rewrite indexed_snd. split; [done|]. split; [apply indexed_NoDup|].
  intros _. by rewrite indexed_snd.
Qed.

Lemma change_child_node (arr : bool) (props : list (string * value)) (k : string)
    (c : value) (f : value -> value) :
  wf_node arr props -> assoc k props = Some c ->
  change_child (node arr props) k f = set_prop (node arr props) k (f c).
Proof.
  intros [Hnd Harr] Hk. destruct arr; simpl; [|unfold own_set; by rewrite Hk].
  rewrite (Harr eq_refl), assoc_indexed in Hk.
  destruct (key_index k) as [i|]; [|done].
  rewrite decide_True, Nat.sub_0_r in Hk by lia.
  apply lookup_lt_Some in Hk as Hlt. rewrite decide_True by done.
  f_equal. apply list_eq. intros j.
  destruct (decide (i = j)) as [->|].
  - by rewrite list_lookup_alter_eq, list_lookup_insert_eq, Hk by done.
  - by rewrite list_lookup_alter_ne, list_lookup_insert_ne by done.
Qed.

Lemma indexed_of_fst (n : nat) (q : list (string * value)) :
  fst <$> q = index_key <$> seq n (length q) -> q = indexed n (snd <$> q).
Proof.
  revert n. induction q as [|[k x] q IH]; intros n; csimpl; [done|].
  intros [= -> Hq]. by rewrite <- IH.
Qed.

Lemma wf_node_same_keys (arr : bool) (props props' : list (string * value)) :
  wf_node arr props -> fst <$> props' = fst <$> props -> wf_node arr props'.
Proof.
  intros [Hnd Harr] Hfst. split; [by rewrite Hfst|].
  intros ->. apply indexed_of_fst. rewrite Hfst, (Harr eq_refl), indexed_fst.
  by rewrite length_fmap, <- (length_fmap fst props'), Hfst, length_fmap.
Qed.

(** Induction over values with arrays and objects both seen as nodes. *)
Lemma value_node_ind (P : value -> Prop) :
  (forall v, (forall items, v <> VArray items) -> (forall props, v <> VObject props) -> P v) ->
  (forall arr props,
      (arr = true -> props = indexed 0 (snd <$> props)) ->
      Forall (fun kv => P kv.2) props -> P (node arr props)) ->
  forall v, P v.
Proof.
  intros Hleaf Hnode. induction v using value_rect'; try (by apply Hleaf).
  - rewrite <- node_indexed. apply Hnode; [by rewrite indexed_snd|].
    generalize 0. induction H as [|x l Hx _ IH]; intros n; simpl; constructor; auto.
  - apply (Hnode false); [done|]. done.
Qed.

End NodeFacts.

Section CodecFacts.
Context {B : Builtins}.

Lemma fmap_plain_keys (f : string -> string) (ks : list string) :
  Forall (fun k => plain k = true) ks ->
  (fun key => if starts_with_bracket key then f key else key) <$> ks = ks.
Proof.
  induction 1 as [|k ks Hk _ IH]; [done|].
  rewrite fmap_cons, IH. by rewrite plain_not_bracket.
Qed.

(** A path built by [process] from keys that are [path_ok] is split
    by [deserialize] into those keys again. *)
Lemma path_keys_jpath (ks : list string) : path_ok ks -> path_keys (jpath "" ks) = ks.
Proof.
  intros [Hks Hfirst]. destruct ks as [|k ks]; [done|].
  pose proof Hks as [Hk Hks']%Forall_cons.
  unfold path_keys. change (jpath "" (k :: ks)) with (jpath k ks).
  destruct ks as [|k2 ks].
  - change (jpath k []) with k.
    by rewrite replace_brackets_plain, split_slash_plain, fmap_plain_keys.
  - rewrite jpath_replace_brackets, jpath_split, split_slash_plain
      by auto using replace_brackets_plain.
    by apply fmap_plain_keys.
Qed.

(** No such path is the name [__proto__]. *)
Lemma jpath_not_proto (ks : list string) : path_ok ks -> jpath "" ks <> "__proto__".
Proof.
  intros Hok Heq. pose proof (path_keys_jpath ks Hok) as Hks. rewrite Heq in Hks.
  destruct Hok as [_ Hfirst]. subst ks. by apply Hfirst.
Qed.

(** *** The spec functions on nodes *)

Lemma leaves_items_indexed (f : value -> list (list string * string)) (i : nat) (l : list value) :
  leaves_items f i l = leaves_props f (indexed i l).
Proof.
  revert i. induction l as [|x l IH]; intros i; [done|].
  simpl. rewrite IH. done.
Qed.

Lemma pstrip_items_indexed f (D : list string -> bool) (i : nat) (l : list value) :
  pstrip_items f D i l = snd <$> pstrip_props f D (indexed i l).
Proof.
  revert i. induction l as [|x l IH]; intros i; [done|].
  simpl. rewrite IH. done.
Qed.

Lemma pstrip_props_fst f (D : list string -> bool) (props : list (string * value)) :
  fst <$> pstrip_props f D props = fst <$> props.
Proof. unfold pstrip_props. rewrite <- list_fmap_compose. by apply list_fmap_ext. Qed.

Lemma leaves_node (arr : bool) (props : list (string * value)) :
  wf_node arr props -> leaves (node arr props) = leaves_props leaves props.
Proof.
  intros [_ Harr]. destruct arr; [|done]. simpl.
  rewrite leaves_items_indexed. by rewrite <- (Harr eq_refl).
Qed.

Lemma pstrip_node (D : list string -> bool) (arr : bool) (props : list (string * value)) :
  wf_node arr props ->
  pstrip D (node arr props) = node arr (pstrip_props pstrip D props)
  /\ wf_node arr (pstrip_props pstrip D props).
Proof.
  intros Hwf. split; [|by eapply wf_node_same_keys, pstrip_props_fst].
  destruct Hwf as [_ Harr]. destruct arr; [|done]. simpl.
  rewrite pstrip_items_indexed. by rewrite <- (Harr eq_refl).
Qed.

Lemma each_item_indexed
    (entry : value -> list (string * string) -> string -> result (value * list (string * string)))
    (prefix : string) (l : list value) (i : nat) (m : list (string * string)) :
  each_item entry prefix l i m =
  match each_prop entry prefix (indexed i l) m with
  | Ok r => Ok (snd <$> r.1, r.2)
  | Throw e => Throw e
  end.
Proof.
  revert i m. induction l as [|x l IH]; intros i m; [done|].
  simpl. destruct (entry x m _) as [r|]; [|done]. simpl.
  rewrite IH. by destruct (each_prop _ _ _ _).
Qed.

Lemma process_entry_node (arr : bool) (props : list (string * value))
    (m : list (string * string)) (path : string) :
  wf_node arr props ->
  process_entry (node arr props) m path =
  match each_prop process_entry path props m with
  | Ok r => Ok (node arr r.1, r.2)
  | Throw e => Throw e
  end.
Proof.
  intros [_ Harr]. destruct arr; [|done]. simpl.
  rewrite each_item_indexed, <- (Harr eq_refl).
  by destruct (each_prop _ _ _ _).
Qed.

Lemma supported_node (arr : bool) (props : list (string * value)) :
  (arr = true -> props = indexed 0 (snd <$> props)) ->
  supported (node arr props) = true ->
  wf_node arr props /\ Forall (fun kv => supported kv.2 = true) props.
Proof.
  intros Harr. destruct arr; simpl.
  - intros Hs. split.
    + split; [|done]. rewrite (Harr eq_refl). apply indexed_NoDup.
    + rewrite forallb_forall in Hs. apply Forall_forall. intros [k x] Hkx.
      apply Hs, list_elem_of_In, list_elem_of_fmap. by exists (k, x).
  - intros [Hnd Hs]%andb_true_iff. apply bool_decide_eq_true in Hnd.
    split; [by split|]. rewrite forallb_forall in Hs. apply Forall_forall.
    intros kv Hkv. by apply Hs, list_elem_of_In.
Qed.

(** *** What [process] computes *)

Lemma record_leaves_cons (prefix k : string) (m : list (string * string))
    (l l' : list (list string * string)) :
  record_leaves prefix m (((fun e => (k :: e.1, e.2)) <$> l) ++ l') =
  record_leaves prefix (record_leaves (child_path prefix k) m l) l'.
Proof. unfold record_leaves. by rewrite foldl_app, foldl_fmap. Qed.

Lemma each_prop_spec (prefix : string) (props : list (string * value))
    (m : list (string * string)) :
  Forall (fun kv => forall m path,
              process_entry kv.2 m path = Ok (strip kv.2, record_leaves path m (leaves kv.2)))
         props ->
  each_prop process_entry prefix props m =
  Ok (pstrip_props pstrip (fun _ => false) props,
      record_leaves prefix m (leaves_props leaves props)).
Proof.
  intros H. revert m. induction H as [|[k x] props Hx _ IH]; intros m; [done|].
  simpl in *. rewrite Hx. simpl. rewrite IH. simpl.
  by rewrite <- record_leaves_cons.
Qed.

Lemma process_entry_spec (v : value) :
  supported v = true ->
  forall m path, process_entry v m path = Ok (strip v, record_leaves path m (leaves v)).
Proof.
  induction v as [v Harr Hobj|arr props Harr IH] using value_node_ind; intros Hs m path.
  - destruct v as [| | | | |[t|]| | | | | |]; try done.
    + by destruct (Harr items).
    + by destruct (Hobj props).
  - destruct (supported_node arr props Harr Hs) as [Hwf Hs'].
    rewrite process_entry_node by done. rewrite each_prop_spec.
    + simpl. unfold strip. destruct (pstrip_node (fun _ => false) arr props Hwf) as [-> _].
      by rewrite leaves_node.
    + eapply Forall_impl; [apply Forall_and; split; [apply IH|apply Hs']|].
      intros kv [H1 H2]. by apply H1.
Qed.

(** *** The places of the tagged leaves *)

Lemma elem_of_leaves_props (f : value -> list (list string * string))
    (props : list (string * value)) (e : list string * string) :
  e ∈ leaves_props f props <->
  exists k x e', (k, x) ∈ props /\ e' ∈ f x /\ e = (k :: e'.1, e'.2).
Proof.
  unfold leaves_props. rewrite list_elem_of_bind. split.
  - intros ([k x] & He & Hkx). apply list_elem_of_fmap in He as (e' & -> & He').
    by exists k, x, e'.
  - intros (k & x & e' & Hkx & He' & ->). exists (k, x). split; [|done].
    apply list_elem_of_fmap. by exists e'.
Qed.

Lemma rich_node (arr : bool) (props : list (string * value)) :
  rich (node arr props) = existsb (fun kv => rich kv.2) props.
Proof.
  destruct arr; [|done]. simpl. induction props as [|[k x] props IH]; [done|].
  csimpl. by rewrite IH.
Qed.

Lemma leaves_not_rich (v : value) : rich v = false -> leaves v = [].
Proof.
  induction v as [| | | | | | | | | |items IH|props IH] using value_rect'; try done; simpl.
  - generalize 0. induction IH as [|x l Hx _ IHl]; intros n; [done|]. simpl.
    intros [Hr Hl]%orb_false_iff. by rewrite Hx, IHl.
  - induction IH as [|[k x] l Hx _ IHl]; [done|]. simpl.
    intros [Hr Hl]%orb_false_iff. unfold leaves_props in *. csimpl.
    simpl in Hx. by rewrite Hx, IHl.
Qed.

Lemma plain_keys_node (arr : bool) (props : list (string * value)) :
  wf_node arr props -> plain_keys (node arr props) = true ->
  Forall (fun kv => rich kv.2 = true -> plain kv.1 = true /\ plain_keys kv.2 = true) props.
Proof.
  intros [_ Harr] Ha. apply Forall_forall. intros [k x] Hkx Hr. simpl in *.
  destruct arr; simpl in Ha; rewrite forallb_forall in Ha.
  - split.
    + assert (k ∈ fst <$> props) as Hk by (apply list_elem_of_fmap; by exists (k, x)).
      rewrite (Harr eq_refl), indexed_fst in Hk.
      apply list_elem_of_fmap in Hk as (i & -> & _). apply plain_index_key.
    + apply Ha, list_elem_of_In, list_elem_of_fmap. by exists (k, x).
  - specialize (Ha (k, x) (proj1 (list_elem_of_In _ _) Hkx)). simpl in Ha.
    rewrite Hr in Ha. simpl in Ha. by apply andb_true_iff in Ha.
Qed.

Lemma leaves_plain (v : value) :
  supported v = true -> plain_keys v = true ->
  forall e, e ∈ leaves v -> Forall (fun k => plain k = true) e.1.
Proof.
  induction v as [v Harr Hobj|arr props Harr IH] using value_node_ind; intros Hs Ha e He.
  - destruct v; simpl in He; try (by apply elem_of_nil in He);
      try (apply list_elem_of_singleton in He as ->; by constructor).
    + by destruct (Harr items).
    + by destruct (Hobj props).
  - destruct (supported_node arr props Harr Hs) as [Hwf Hs'].
    rewrite leaves_node in He by done.
    apply elem_of_leaves_props in He as (k & x & e' & Hkx & He' & ->).
    pose proof (plain_keys_node arr props Hwf Ha) as Ha'.
    rewrite Forall_forall in IH, Hs', Ha'.
    destruct (rich x) eqn:Hr; [|rewrite leaves_not_rich in He' by done; by apply elem_of_nil in He'].
    destruct (Ha' _ Hkx Hr) as [Hk Hx]. simpl. constructor; [done|].
    by apply (IH _ Hkx (Hs' _ Hkx) Hx).
Qed.

Lemma leaves_node_nonempty (arr : bool) (props : list (string * value)) e :
  wf_node arr props -> e ∈ leaves (node arr props) -> e.1 <> [].
Proof.
  intros Hwf He. rewrite leaves_node in He by done.
  by apply elem_of_leaves_props in He as (k & x & e' & _ & _ & ->).
Qed.

(** Below a property that is not itself tagged, a leaf has keys. *)
Lemma leaves_untagged (v : value) e :
  supported v = true -> tagged v = false -> e ∈ leaves v -> e.1 <> [].
Proof.
  intros Hs Ht He. destruct v; try done; try (by apply elem_of_nil in He).
  - rewrite <- (node_indexed items) in He.
    apply (leaves_node_nonempty true (indexed 0 items)); [apply wf_node_indexed|done].
  - apply (leaves_node_nonempty false props); [|done].
    simpl in Hs. apply andb_true_iff in Hs as [Hnd _]. apply bool_decide_eq_true in Hnd.
    by split.
Qed.

Lemma leaves_tagged (v : value) e : tagged v = true -> e ∈ leaves v -> e.1 = [].
Proof.
  intros Ht He. destruct v; try done; simpl in He;
    by apply list_elem_of_singleton in He as ->.
Qed.

(** The leaves of an addressable array or object have keys that are
    [path_ok]. *)
Lemma leaves_path_ok (arr : bool) (props : list (string * value)) :
  (arr = true -> props = indexed 0 (snd <$> props)) ->
  supported (node arr props) = true -> addressable (node arr props) = true ->
  forall e, e ∈ leaves (node arr props) -> path_ok e.1.
Proof.
  intros Harr Hs [Hp Hroot]%andb_true_iff e He.
  split; [by apply (leaves_plain (node arr props))|].
  destruct (supported_node arr props Harr Hs) as [Hwf Hs'].
  rewrite leaves_node in He by done.
  apply elem_of_leaves_props in He as (k & x & e' & Hkx & He' & ->). simpl.
  rewrite Forall_forall in Hs'. specialize (Hs' _ Hkx). simpl in Hs'.
  assert (if tagged x then k <> "__proto__" else String.length k <> 0) as Hk.
  { destruct arr.
    - assert (k ∈ fst <$> props) as Hin by (apply list_elem_of_fmap; by exists (k, x)).
      rewrite (Harr eq_refl), indexed_fst in Hin.
      apply list_elem_of_fmap in Hin as (i & -> & _).
      destruct (tagged x); [apply index_key_not_proto|apply index_key_nonempty].
    - simpl in Hroot. rewrite forallb_forall in Hroot.
      specialize (Hroot (k, x) (proj1 (list_elem_of_In _ _) Hkx)). simpl in Hroot.
      destruct (rich x) eqn:Hr;
        [|rewrite leaves_not_rich in He' by done; by apply elem_of_nil in He'].
      simpl in Hroot. unfold root_key in Hroot. destruct (tagged x).
      + apply negb_true_iff in Hroot. by apply String.eqb_neq in Hroot.
      + by apply negb_true_iff, Nat.eqb_neq in Hroot. }
  destruct (tagged x) eqn:Ht.
  - by rewrite (leaves_tagged x e').
  - pose proof (leaves_untagged x e' Hs' Ht He') as Hne. by destruct e'.1.
Qed.

Lemma leaves_props_NoDup (props : list (string * value)) :
  NoDup (fst <$> props) ->
  Forall (fun kv => NoDup (fst <$> leaves kv.2)) props ->
  NoDup (fst <$> leaves_props leaves props).
Proof.
  intros Hnd H. induction H as [|[k x] props Hx _ IH]; [constructor|].
  apply NoDup_cons in Hnd as [Hk Hnd]. unfold leaves_props in *. csimpl.
  rewrite fmap_app. apply NoDup_app. split_and!.
  - rewrite <- list_fmap_compose. simpl in Hx.
    rewrite (list_fmap_ext _ (cons k ∘ fst) (leaves x)) by done.
    rewrite list_fmap_compose. apply NoDup_fmap_2_strong; [|done].
    by intros a b _ _ [= ->].
  - intros q Hq1 Hq2. rewrite <- list_fmap_compose in Hq1.
    apply list_elem_of_fmap in Hq1 as (e1 & -> & _).
    apply list_elem_of_fmap in Hq2 as (e2 & Heq & He2).
    apply (elem_of_leaves_props leaves props) in He2 as (k' & x' & e' & Hkx' & _ & ->).
    simpl in Heq. injection Heq as -> _. apply Hk.
    apply list_elem_of_fmap. by exists (k', x').
  - by apply IH.
Qed.

Lemma leaves_NoDup (v : value) : supported v = true -> NoDup (fst <$> leaves v).
Proof.
  induction v as [v Harr Hobj|arr props Harr IH] using value_node_ind; intros Hs.
  - destruct v; simpl; try apply NoDup_nil_2; try apply NoDup_singleton.
    + by destruct (Harr items).
    + by destruct (Hobj props).
  - destruct (supported_node arr props Harr Hs) as [Hwf Hs'].
    rewrite leaves_node by done. apply leaves_props_NoDup; [apply Hwf|].
    eapply Forall_impl; [apply Forall_and; split; [apply IH|apply Hs']|].
    intros kv [H1 H2]. by apply H1.
Qed.

(** With each path once and none of them [__proto__], [process] adds
    one entry for each leaf. *)
Lemma record_fresh (g : list string * string -> string) (m : list (string * string))
    (l : list (list string * string)) :
  NoDup ((fst <$> m) ++ (g <$> l)) -> Forall (fun e => g e <> "__proto__") l ->
  foldl (fun m e => map_set (g e) e.2 m) m l ≡ₚ m ++ ((fun e => (g e, e.2)) <$> l).
Proof.
  intros Hnd Hl. revert m Hnd. induction Hl as [|e l He _ IH]; intros m Hnd; simpl.
  - by rewrite app_nil_r.
  - csimpl in Hnd. apply NoDup_app in Hnd as Hnd'. destruct Hnd' as (Hm & Hdisj & _).
    assert (map_set (g e) e.2 m ≡ₚ m ++ [(g e, e.2)]) as Hset.
    { unfold map_set. apply String.eqb_neq in He. rewrite He.
      apply own_set_fresh. intros Hin. apply (Hdisj _ Hin). left. }
    rewrite IH.
    + rewrite Hset, <- app_assoc. done.
    + rewrite Hset, fmap_app, <- app_assoc. done.
Qed.

(** *** What [deserialize] does with one entry, and with all *)

(** The places handled so far, and one more. *)
Definition add_place (D : list string -> bool) (ks : list string) : list string -> bool :=
  fun q => D q || bool_decide (q = ks).

Lemma pstrip_ext (v : value) :
  supported v = true ->
  forall D D', (forall q, D q = D' q) -> pstrip D v = pstrip D' v.
Proof.
  induction v as [v Harr Hobj|arr props Harr IH] using value_node_ind; intros Hs D D' HD.
  - destruct v as [| | | | |[t|]| | | | | |]; simpl; try done; try (by rewrite HD).
    + by destruct (Harr items).
    + by destruct (Hobj props).
  - destruct (supported_node arr props Harr Hs) as [Hwf Hs'].
    destruct (pstrip_node D arr props Hwf) as [-> _].
    destruct (pstrip_node D' arr props Hwf) as [-> _].
    f_equal. unfold pstrip_props. apply list_fmap_ext. intros i [k x] Hi. simpl.
    f_equal. rewrite Forall_forall in IH, Hs'.
    apply list_elem_of_lookup_2 in Hi. apply (IH _ Hi (Hs' _ Hi)). intros q. apply HD.
Qed.

Lemma pstrip_props_add (props : list (string * value)) (D : list string -> bool)
    (k : string) (x : value) (ks : list string) :
  NoDup (fst <$> props) -> Forall (fun kv => supported kv.2 = true) props ->
  (k, x) ∈ props ->
  pstrip_props pstrip (add_place D (k :: ks)) props =
  assoc_set k (pstrip (add_place (fun q => D (k :: q)) ks) x) (pstrip_props pstrip D props).
Proof.
  intros Hnd Hs Hkx. induction Hs as [|[k' x'] props Hx' Hs IH]; [by apply elem_of_nil in Hkx|].
  csimpl in Hnd. apply NoDup_cons in Hnd as [Hk' Hnd]. simpl in *.
  apply elem_of_cons in Hkx as [[= <- <-]|Hkx].
  - rewrite String.eqb_refl. f_equal.
    + f_equal. apply pstrip_ext; [done|]. intros q. unfold add_place.
      f_equal. apply bool_decide_ext. split; congruence.
    + unfold pstrip_props. apply list_fmap_ext. intros i [k2 x2] Hi. simpl. f_equal.
      apply list_elem_of_lookup_2 in Hi as Hin. rewrite Forall_forall in Hs.
      apply pstrip_ext; [by apply (Hs _ Hin)|]. intros q. unfold add_place.
      rewrite bool_decide_eq_false_2, orb_false_r; [done|].
      intros [= -> _]. apply Hk', list_elem_of_fmap. by exists (k, x2).
  - destruct (String.eqb_spec k' k) as [->|Hne].
    + destruct Hk'. apply list_elem_of_fmap. by exists (k, x).
    + f_equal; [|by apply IH]. f_equal. apply pstrip_ext; [done|].
      intros q. unfold add_place. rewrite bool_decide_eq_false_2, orb_false_r; [done|].
      congruence.
Qed.

(** [parent[key] = x] when the keys may also be none (the slot is the
    root itself). *)
Definition assign0 (root : value) (keys : list string) (x : value) : value :=
  match keys with
  | [] => x
  | _ => assign root keys x
  end.

Lemma assign_cons_node (arr : bool) (props : list (string * value)) (k : string)
    (c : value) (keys : list string) (x : value) :
  wf_node arr props -> assoc k props = Some c ->
  assign (node arr props) (k :: keys) x = set_prop (node arr props) k (assign0 c keys x).
Proof.
  intros Hwf Hk. destruct keys as [|k2 keys]; [done|].
  change (assign (node arr props) (k :: k2 :: keys) x)
    with (change_child (node arr props) k (fun child => assign child (k2 :: keys) x)).
  by rewrite (change_child_node arr props k c).
Qed.

Section Restore.
Context {L : BuiltinsLaws B}.

(** One entry of the map puts one leaf back. *)
Lemma restore_step (v : value) :
  supported v = true ->
  forall D ks tag, (ks, tag) ∈ leaves v -> D ks = false ->
  exists enc orig,
    walk (pstrip D v) ks = Ok enc /\
    deserializeValue tag enc = Ok orig /\
    assign0 (pstrip D v) ks orig = pstrip (add_place D ks) v.
Proof.
  induction v as [v Harr Hobj|arr props Harr IH] using value_node_ind;
    intros Hs D ks tag He HD.
  - destruct v as [| | | | |[t|]| | | | | |]; simpl in He; try (by apply elem_of_nil in He);
      try (by simpl in Hs);
      try (by destruct (Harr items)); try (by destruct (Hobj props));
      apply list_elem_of_singleton in He as [= -> ->]; simpl; rewrite HD;
      unfold add_place; rewrite bool_decide_eq_true_2, orb_true_r by done.
    + exists (VString (Date_toISOString t)), (VDate (Some t)). split_and!; [done| |done].
      unfold deserializeValue. simpl. rewrite Date_parse_toISOString; [done|].
      simpl in Hs. by apply bool_decide_eq_true in Hs.
    + exists (VString (ascii85_encode bytes)), (VBinary bytes). split_and!; [done| |done].
      unfold deserializeValue. simpl. by rewrite ascii85_decode_encode.
    + exists (VString path), (VPathRef path). split_and!; [done| |done].
      unfold deserializeValue. simpl. by rewrite PathReference_new_string.
  - destruct (supported_node arr props Harr Hs) as [Hwf Hs'].
    rewrite leaves_node in He by done.
    apply elem_of_leaves_props in He as (k & x & e' & Hkx & He' & [= -> ->]).
    destruct e' as [ks' tag']. cbn [fst snd] in *.
    rewrite Forall_forall in IH. pose proof Hs' as Hs''. rewrite Forall_forall in Hs''.
    destruct (IH _ Hkx (Hs'' _ Hkx) (fun q => D (k :: q)) ks' tag' He' HD)
      as (enc & orig & Hwalk & Hdes & Hassign).
    cbn [fst snd] in *. exists enc, orig.
    destruct (pstrip_node D arr props Hwf) as [-> Hwf'].
    destruct (pstrip_node (add_place D (k :: ks')) arr props Hwf) as [-> _].
    assert (assoc k (pstrip_props pstrip D props) = Some (pstrip (fun q => D (k :: q)) x))
      as Hassoc.
    { apply assoc_NoDup; [apply Hwf'|]. unfold pstrip_props.
      apply list_elem_of_fmap. by exists (k, x). }
    split_and!; [|done|].
    + cbn [walk]. rewrite get_prop_node, Hassoc by done. done.
    + unfold assign0 at 1. rewrite (assign_cons_node _ _ _ _ _ _ Hwf' Hassoc), Hassign.
      destruct (set_prop_node arr _ k (pstrip (add_place (fun q => D (k :: q)) ks') x) Hwf')
        as [-> _].
      { rewrite pstrip_props_fst. apply list_elem_of_fmap. by exists (k, x). }
      f_equal. symmetry. apply pstrip_props_add; [apply Hwf|done|done].
Qed.

(** The map entry of a leaf. *)
Definition entry_of (e : list string * string) : string * string :=
  (jpath "" e.1, e.2).

Definition add_places (D : list string -> bool) (l : list (list string * string))
  : list string -> bool :=
  fun q => D q || bool_decide (q ∈ fst <$> l).

Lemma restore_entry (v : value) (D : list string -> bool) (e : list string * string) :
  supported v = true -> e ∈ leaves v -> D e.1 = false -> path_ok e.1 ->
  restore (pstrip D v) (entry_of e) = Ok (pstrip (add_place D e.1) v).
Proof.
  intros Hs He HD Hok. destruct e as [ks tag]. cbn [fst snd] in *.
  destruct (restore_step v Hs D ks tag He HD) as (enc & orig & Hwalk & Hdes & Hassign).
  unfold restore, entry_of. cbn [fst snd]. rewrite path_keys_jpath by done.
  rewrite Hwalk. simpl. rewrite Hdes. simpl. rewrite <- Hassign.
  destruct ks; [by destruct Hok|done].
Qed.

Lemma restore_all_leaves (v : value) :
  supported v = true ->
  (forall e, e ∈ leaves v -> path_ok e.1) ->
  forall l D,
    NoDup (fst <$> l) -> (forall e, e ∈ l -> e ∈ leaves v /\ D e.1 = false) ->
    restore_all (pstrip D v) (entry_of <$> l) = Ok (pstrip (add_places D l) v).
Proof.
  intros Hs Hleaves l. induction l as [|e l IH]; intros D Hnd Hl.
  - simpl. f_equal. apply pstrip_ext; [done|]. intros q. unfold add_places.
    rewrite bool_decide_eq_false_2, orb_false_r; [done|]. apply not_elem_of_nil.
  - csimpl in Hnd. apply NoDup_cons in Hnd as [He Hnd].
    destruct (Hl e) as [He1 He2]; [left|]. pose proof (Hleaves e He1) as Hok.
    csimpl. rewrite restore_entry by done. simpl. rewrite IH; [|done|].
    + f_equal. apply pstrip_ext; [done|]. intros q. unfold add_places, add_place.
      rewrite <- orb_assoc. f_equal. csimpl.
      apply eq_true_iff_eq. rewrite orb_true_iff, !bool_decide_eq_true, elem_of_cons. done.
    + intros e' He'. destruct (Hl e') as [? ?]; [by right|]. split; [done|].
      unfold add_place. rewrite bool_decide_eq_false_2, orb_false_r; [done|].
      intros Heq. apply He. rewrite <- Heq. by apply list_elem_of_fmap_2.
Qed.

Lemma pstrip_full (v : value) :
  supported v = true ->
  forall D, (forall e, e ∈ leaves v -> D e.1 = true) -> pstrip D v = v.
Proof.
  induction v as [v Harr Hobj|arr props Harr IH] using value_node_ind; intros Hs D HD.
  - destruct v as [| | | | |[t|]| | | | | |]; simpl; try done; try (by simpl in Hs);
      try (assert (D [] = true) as -> by (eapply (HD ([], _)); left); done).
    + by destruct (Harr items).
    + by destruct (Hobj props).
  - destruct (supported_node arr props Harr Hs) as [Hwf Hs'].
    destruct (pstrip_node D arr props Hwf) as [-> _]. f_equal.
    rewrite leaves_node in HD by done.
    unfold pstrip_props. rewrite <- (list_fmap_id props) at 2.
    apply list_fmap_ext. intros i [k x] Hi. simpl. f_equal.
    apply list_elem_of_lookup_2 in Hi. rewrite Forall_forall in IH, Hs'.
    apply (IH _ Hi (Hs' _ Hi)). intros e' He'.
    apply (HD (k :: e'.1, e'.2)). apply elem_of_leaves_props. by exists k, x, e'.
Qed.

(** The paths of the leaves differ from one another. *)
Lemma leaves_paths_NoDup (v : value) :
  supported v = true -> (forall e, e ∈ leaves v -> path_ok e.1) ->
  NoDup ((fun e => jpath "" e.1) <$> leaves v).
Proof.
  intros Hs Hleaves.
  change (NoDup (jpath "" ∘ fst <$> leaves v)).
  rewrite list_fmap_compose. apply NoDup_fmap_2_strong; [|by apply leaves_NoDup].
  intros ks1 ks2 [e1 [-> He1]]%list_elem_of_fmap [e2 [-> He2]]%list_elem_of_fmap Heq.
  rewrite <- (path_keys_jpath e1.1), <- (path_keys_jpath e2.1) by auto. by rewrite Heq.
Qed.

(** With keys that are [path_ok], the mappings [process] returns for
    a whole value are the entries of its leaves, one for each. *)
Lemma record_leaves_entries (v : value) :
  supported v = true -> (forall e, e ∈ leaves v -> path_ok e.1) ->
  record_leaves "" [] (leaves v) ≡ₚ entry_of <$> leaves v.
Proof.
  intros Hs Hleaves. unfold record_leaves.
  rewrite (record_fresh (fun e => jpath "" e.1)); [done| |].
  - simpl. by apply leaves_paths_NoDup.
  - apply Forall_forall. intros e He. by apply jpath_not_proto, Hleaves.
Qed.

(** The round trip for an array or an object. *)
Lemma roundtrip_node (arr : bool) (props : list (string * value)) :
  (arr = true -> props = indexed 0 (snd <$> props)) ->
  supported (node arr props) = true -> addressable (node arr props) = true ->
  exists e, serialize_composite (node arr props) = Ok e /\
            forall e', same_envelope e e' -> deserialize e' = Ok (node arr props).
Proof.
  intros Harr Hs Ha. pose proof (leaves_path_ok arr props Harr Hs Ha) as Hleaves.
  set (v := node arr props) in *.
  destruct (supported_node arr props Harr Hs) as [Hwf _].
  assert (process v [] "" = Ok (strip v, record_leaves "" [] (leaves v))) as Hp.
  { rewrite <- process_entry_spec by done. subst v. by destruct arr. }
  eexists. split.
  { unfold serialize_composite, cloneObject. rewrite Hp. simpl. done. }
  intros [m val] [Hval Hmap]. simpl in *. subst val.
  destruct m as [| | |entries]; try done. unfold deserialize. simpl.
  rewrite record_leaves_entries in Hmap by done.
  symmetry in Hmap. apply Permutation_map_inv in Hmap as (l & -> & Hl).
  change (map entry_of l) with (entry_of <$> l).
  unfold strip. rewrite restore_all_leaves; [|done|done| |].
  - f_equal. apply pstrip_full; [done|]. intros e He. unfold add_places. simpl.
    apply bool_decide_eq_true. apply list_elem_of_fmap_2. by rewrite <- Hl.
  - rewrite <- Hl. by apply leaves_NoDup.
  - intros e He. split; [by rewrite Hl|done].
Qed.

(** C1, as amended: for every value of the supported kinds (plain
    JSON values, valid timestamps, binary values, path links, and
    arrays and objects of these at any depth) in which every key on
    the way to a timestamp, a binary value or a path link holds
    neither the separator nor an opening bracket, and in which no
    property of the top-level object is a timestamp, binary value or
    path link named [__proto__], or an array or object with such
    values in it named by the empty string, [serialize] returns an
    envelope, and [deserialize] of that envelope is the value again,
    whatever the order in which the keys of its [map] are listed:
    bytes, time values and path strings come back exactly.  Empty
    keys anywhere else are covered. *)
Theorem deserialize_serialize (v : value) :
  supported v = true -> addressable v = true ->
  exists e, serialize v = Ok e /\
            forall e', same_envelope e e' -> deserialize e' = Ok v.
Proof.
  intros Hs Ha. unfold serialize. destruct (single_value v) eqn:Hsingle.
  - assert (forall m val (e' : envelope), same_envelope (Envelope m val) e' ->
                (forall entries, m <> MapObject entries) -> e' = Envelope m val) as Hsame.
    { intros m val [m' val'] [Hv Hm] Hne. simpl in *. subst val'.
      destruct m as [| | |entries]; [..|by destruct (Hne entries)];
        destruct m'; by simplify_eq. }
    destruct v as [| | | | |[t|]| | | | | |]; try done; simpl;
      eexists; (split; [reflexivity|]); intros e' He'; apply Hsame in He' as ->; try done.
    + unfold deserialize, deserializeValue. simpl. rewrite Date_parse_toISOString; [done|].
      simpl in Hs. by apply bool_decide_eq_true in Hs.
    + unfold deserialize, deserializeValue. simpl. by rewrite ascii85_decode_encode.
    + unfold deserialize, deserializeValue. simpl. by rewrite PathReference_new_string.
  - destruct v; try done.
    + rewrite <- (node_indexed items) in *. apply roundtrip_node; [|done|done].
      intros _. by rewrite indexed_snd.
    + by apply (roundtrip_node false).
Qed.

End Restore.

End CodecFacts.

(** ** The sample instance, examples and the failing round trip *)

#[global] Instance sample_laws : BuiltinsLaws sample.
Proof.
  split; simpl.
  - intros t _. rewrite NilEmpty.isi. simpl. by rewrite DecimalZ.of_to.
  - intros b. by rewrite list_byte_of_string_of_list_byte.
  - done.
Qed.

Example serialize_date :
  serialize (VDate (Some 1541030400000%Z)) = Ok (Envelope (MapTag "date") (VString "1541030400000")).
Proof. reflexivity. Qed.

Example serialize_number :
  serialize (VNumber 1.5%float) = Ok (Envelope MapUndefined (VNumber 1.5%float)).
Proof. reflexivity. Qed.

Example serialize_mixed :
  serialize mixed_value =
  Ok (Envelope
        (MapObject [("when", "date"); ("tags/0", "reference"); ("tags/2", "binary");
                    ("nested/deep/0/at", "date")])
        (VObject
           [("title", VString "x");
            ("when", VString "1541030400000");
            ("tags", VArray [VString "users/ewout"; VNull;
                             VString (string_of_list_byte [Byte.x01; Byte.xff])]);
            ("nested", VObject [("deep", VArray [VObject [("at", VString "0")]]);
                                ("n", VNumber 1.5%float)])])).
Proof. reflexivity. Qed.

Example deserialize_mixed :
  (e ← serialize mixed_value; deserialize e) = Ok mixed_value.
Proof. reflexivity. Qed.

(** A bracketed segment of a path is read as an array index. *)
Example deserialize_bracket_path :
  deserialize (Envelope (MapObject [("list[1]", "date")])
                        (VObject [("list", VArray [VNull; VString "5"])]))
  = Ok (VObject [("list", VArray [VNull; VDate (Some 5%Z)])]).
Proof. reflexivity. Qed.

(** An invalid [Date] makes [serialize] throw. *)
Example serialize_invalid_date :
  serialize (VArray [VDate None]) = Throw (RangeError "Invalid time value").
Proof. reflexivity. Qed.

(** Whatever the built-ins, a timestamp under a key with a separator
    in it is written to the map under a path that [deserialize] splits
    in two, and the walk along it fails. *)
Lemma slash_key_throws (B : Builtins) :
  exists e, serialize slash_key_value = Ok e /\
            deserialize e = Throw (TypeError "Cannot read properties of undefined or null").
Proof. eexists. split; reflexivity. Qed.

(** C1, as stated, fails.  Each of these objects is of the supported
    kinds and [serialize] accepts it, but [deserialize] of the result
    is not the object:
    - [{ "a/b": new Date(0) }]: the path [a/b] is split in two and
      the walk along it throws;
    - [{ "a[0]": new Date(0) }]: the path [a[0]] is read as the
      element 0 of [a] and the walk along it throws;
    - an object with the own property [__proto__] holding
      [new Date(0)]: the assignment [mappings["__proto__"] = "date"]
      creates no property, the map is empty and the timestamp stays a
      string;
    - [{ "": { a: new Date(0) } }]: the empty prefix is taken for no
      prefix, the path is [a], and [deserialize] puts an invalid
      [Date] at the top-level key [a]. *)
Lemma slash_key_not_restored :
  (supported slash_key_value = true /\
   serialize slash_key_value =
     Ok (Envelope (MapObject [("a/b", "date")]) (VObject [("a/b", VString "0")])) /\
   deserialize (Envelope (MapObject [("a/b", "date")]) (VObject [("a/b", VString "0")]))
     = Throw (TypeError "Cannot read properties of undefined or null")) /\
  (supported bracket_key_value = true /\
   serialize bracket_key_value =
     Ok (Envelope (MapObject [("a[0]", "date")]) (VObject [("a[0]", VString "0")])) /\
   deserialize (Envelope (MapObject [("a[0]", "date")]) (VObject [("a[0]", VString "0")]))
     = Throw (TypeError "Cannot read properties of undefined or null")) /\
  (supported proto_key_value = true /\
   serialize proto_key_value =
     Ok (Envelope (MapObject []) (VObject [("__proto__", VString "0")])) /\
   deserialize (Envelope (MapObject []) (VObject [("__proto__", VString "0")]))
     = Ok (VObject [("__proto__", VString "0")])) /\
  (supported empty_key_value = true /\
   serialize empty_key_value =
     Ok (Envelope (MapObject [("a", "date")]) (VObject [("", VObject [("a", VString "0")])])) /\
   deserialize (Envelope (MapObject [("a", "date")]) (VObject [("", VObject [("a", VString "0")])]))
     = Ok (VObject [("", VObject [("a", VString "0")]); ("a", VDate None)])).
Proof. split_and!; reflexivity. Qed.

(** Empty keys that the amended claim covers: an empty key that holds
    the timestamp itself, and an empty key below the top level. *)
Example serialize_empty_keys :
  addressable empty_leaf_value = true /\
  serialize empty_leaf_value =
    Ok (Envelope (MapObject [("", "date"); ("a//b", "reference")])
          (VObject [("", VString "0"); ("a", VObject [("", VObject [("b", VString "x")])])])) /\
  deserialize (Envelope (MapObject [("", "date"); ("a//b", "reference")])
          (VObject [("", VString "0"); ("a", VObject [("", VObject [("b", VString "x")])])]))
    = Ok empty_leaf_value.
Proof. split_and!; reflexivity. Qed.

(** The map lists array indices first: the path [1] of the second
    element is recorded after the path [0/x] and listed before it. *)
Example serialize_index_order :
  serialize (VArray [VObject [("x", VDate (Some 0%Z))]; VDate (Some 1%Z)]) =
  Ok (Envelope (MapObject [("1", "date"); ("0/x", "date")])
        (VArray [VObject [("x", VString "0")]; VString "1"])).
Proof. reflexivity. Qed.

(** The round trip at [mixed_value]. *)
Lemma deserialize_serialize_mixed :
  exists e, serialize mixed_value = Ok e /\
            forall e', same_envelope e e' -> deserialize e' = Ok mixed_value.
Proof.
  apply (@deserialize_serialize sample sample_laws mixed_value); vm_compute; reflexivity.
Defined.

End Transport.

(** * [serialize] on a store of shared, mutable objects

    The codec again, now with objects as cells of a store that
    [process] changes in place, to state what [serialize] does to the
    caller's object. *)

Module Store.
Import JS Transport.

(** A value: a primitive or a reference to an object in the store. *)
Inductive hvalue : Type :=
| HUndefined
| HNull
| HBool (b : bool)
| HNumber (n : float)
| HString (s : string)
| HFunction (id : nat)
| HRef (l : nat).

(** An object in the store. *)
Inductive cell : Type :=
| CDate (t : option Z)
| CBinary (bytes : list Byte.byte)
| CPathRef (path : string)
| CRegExp (source : string)
| CArray (items : list hvalue)
| CObject (props : list (string * hvalue)).

(** The store; a new object is added at its end. *)
Abbreviation heap := (list cell).

(** A computation on the store that returns or throws; the store it
    leaves is there in both cases. *)
Definition M (A : Type) : Type := heap -> heap * result A.

Definition ret {A} (a : A) : M A := fun h => (h, Ok a).
Definition throw {A} (e : error) : M A := fun h => (h, Throw e).
Definition bind {A B} (m : M A) (f : A -> M B) : M B :=
  fun h =>
    match m h with
    | (h', Ok a) => f a h'
    | (h', Throw e) => (h', Throw e)
    end.

Notation "x <~ m ;; k" := (bind m (fun x => k))
  (at level 60, m at next level, right associativity).

Definition lift {A} (r : result A) : M A := fun h => (h, r).

Definition read (l : nat) : M cell :=
  fun h =>
    match h !! l with
    | Some c => (h, Ok c)
    | None => (h, Throw (Error "no such object"))
    end.

Definition write (l : nat) (c : cell) : M unit := fun h => (<[l:=c]> h, Ok tt).

Definition alloc (c : cell) : M nat := fun h => (h ++ [c], Ok (length h)).

Fixpoint mapM {A C} (f : A -> M C) (l : list A) : M (list C) :=
  match l with
  | [] => ret []
  | x :: l' => y <~ f x;; ys <~ mapM f l';; ret (y :: ys)
  end.

Fixpoint foldM {A C} (f : C -> A -> M C) (l : list A) (acc : C) : M C :=
  match l with
  | [] => ret acc
  | x :: l' => acc' <~ f acc x;; foldM f l' acc'
  end.

(** [Object.keys(obj)] of an object in the store. *)
Definition keys_of (c : cell) : list string :=
  match c with
  | CArray items => index_key <$> seq 0 (length items)
  | CObject props => fst <$> props
  | CPathRef _ => ["path"]
  | _ => []
  end.

(** [obj[key]] *)
Definition get (obj : nat) (key : string) : M hvalue :=
  c <~ read obj;;
  ret (match c with
       | CObject props => default HUndefined (assoc key props)
       | CArray items =>
           match key_index key with
           | Some i => default HUndefined (items !! i)
           | None => HUndefined
           end
       | CPathRef p => if String.eqb key "path" then HString p else HUndefined
       | _ => HUndefined
       end).

(** [obj[key] = x], on an object or an array *)
Definition set (obj : nat) (key : string) (x : hvalue) : M unit :=
  c <~ read obj;;
  match c with
  | CObject props => write obj (CObject (assoc_set key x props))
  | CArray items =>
      match key_index key with
      | Some i =>
          if decide (i < length items) then write obj (CArray (<[i:=x]> items))
          else if decide (i = length items) then write obj (CArray (items ++ [x]))
          else ret tt
      | None => ret tt
      end
  | _ => ret tt
  end.

Section Codec.
Context {B : Builtins}.

(** Modelled from the spec: [cloneObject] of [./utils], which is not
    part of the embedded sources.  Composite input is deep-cloned:
    every array and object reached from the value is copied into a
    new object, whose elements are the copies of the elements.
    [Date], binary and path-link objects are not copied but shared
    between the original and the copy.  A value nested deeper than
    [fuel] (a circular one at any [fuel]) makes it throw. *)
Fixpoint cloneObject (fuel : nat) (v : hvalue) : M hvalue :=
  match fuel with
  | 0 => throw (Error "object contains a circular reference")
  | S fuel' =>
      match v with
      | HRef l =>
          c <~ read l;;
          match c with
          | CArray items =>
              items' <~ mapM (cloneObject fuel') items;;
              l' <~ alloc (CArray items');;
              ret (HRef l')
          | CObject props =>
              props' <~ mapM (fun kv => x <~ cloneObject fuel' kv.2;; ret (kv.1, x)) props;;
              l' <~ alloc (CObject props');;
              ret (HRef l')
          | _ => ret v
          end
      | _ => ret v
      end
  end.

(** The inner function [process(obj, mappings, prefix)] on the object
    at [obj]: it changes that object and the objects nested in it in
    place, and returns the mappings.  [fuel] bounds the nesting. *)
Fixpoint process (fuel : nat) (obj : nat) (mappings : list (string * string))
    (prefix : string) : M (list (string * string)) :=
  match fuel with
  | 0 => throw (RangeError "Maximum call stack size exceeded")
  | S fuel' =>
      c <~ read obj;;
      foldM
        (fun mappings key =>
           val <~ get obj key;;
           let path := child_path prefix key in
           match val with
           | HRef l =>
               c' <~ read l;;
               match c' with
               | CDate t =>
                   iso <~ lift (toISOString t);;
                   _ <~ set obj key (HString iso);;
                   ret (map_set path "date" mappings)
               | CBinary bytes =>
                   _ <~ set obj key (HString (ascii85_encode bytes));;
                   ret (map_set path "binary" mappings)
               | CPathRef p =>
                   _ <~ set obj key (HString p);;
                   ret (map_set path "reference" mappings)
               | _ => process fuel' l mappings path
               end
           | _ => ret mappings
           end)
        (keys_of c) mappings
  end.

(** The first test of [serialize]. *)
Definition single_value (obj : hvalue) : M bool :=
  match obj with
  | HRef l =>
      c <~ read l;;
      ret (match c with
           | CDate _ | CBinary _ | CPathRef _ => true
           | _ => false
           end)
  | _ => ret true
  end.

(** The envelope: its [map], and its [val] as a value of the store. *)
Record envelope : Type := Envelope { env_map : envelope_map; env_val : hvalue }.

(** The part of [serialize] after the first test. *)
Definition serialize_composite (fuel : nat) (obj : hvalue) : M envelope :=
  obj' <~ cloneObject fuel obj;;
  match obj' with
  | HRef l =>
      mappings <~ process fuel l [] "";;
      ret (Envelope (MapObject mappings) obj')
  | _ => ret (Envelope (MapObject []) obj')
  end.

(** [serialize(obj)] *)
Definition serialize (fuel : nat) (obj : hvalue) : M envelope :=
  single <~ single_value obj;;
  if (single : bool) then
    wrapper <~ alloc (CObject [("value", obj)]);;
    ser <~ serialize_composite fuel (HRef wrapper);;
    match env_val ser with
    | HRef l =>
        v <~ get l "value";;
        ret (Envelope (map_value (env_map ser)) v)
    | _ => throw (TypeError "Cannot read properties of undefined or null")
    end
  else serialize_composite fuel obj.

End Codec.

(** A store with the object [{ when: d, list: [d, b] }] at 3, where
    [d] (at 0) is a [Date] that the object holds twice and [b] (at 1)
    is a binary value. *)
Definition shared_store : heap :=
  [CDate (Some 86400000%Z);
   CBinary [Byte.x00; Byte.x7f];
   CArray [HRef 0; HRef 1];
   CObject [("when", HRef 0); ("list", HRef 2)]].

(** The value a value of the store stands for, objects nested at most
    [fuel] deep. *)
Fixpoint reify (fuel : nat) (h : heap) (v : hvalue) : option value :=
  match v with
  | HUndefined => Some VUndefined
  | HNull => Some VNull
  | HBool b => Some (VBool b)
  | HNumber n => Some (VNumber n)
  | HString s => Some (VString s)
  | HFunction id => Some (VFunction id)
  | HRef l =>
      match fuel with
      | 0 => None
      | S fuel' =>
          match h !! l with
          | Some (CDate t) => Some (VDate t)
          | Some (CBinary bytes) => Some (VBinary bytes)
          | Some (CPathRef p) => Some (VPathRef p)
          | Some (CRegExp s) => Some (VRegExp s)
          | Some (CArray items) =>
              VArray <$> list.mapM (M := option) (reify fuel' h) items
          | Some (CObject props) =>
              VObject <$>
                list.mapM (M := option) (fun kv => pair kv.1 <$> reify fuel' h kv.2) props
          | None => None
          end
      end
  end.

(** The envelope a call on the store returned, as a value. *)
Definition reify_envelope (fuel : nat) (r : heap * result envelope)
    : option (result Transport.envelope) :=
  match r.2 with
  | Ok e => (fun v => Ok (Transport.Envelope (env_map e) v)) <$> reify fuel r.1 (env_val e)
  | Throw err => Some (Throw err)
  end.

(** ** The frame of [serialize] *)

(** The values a cell holds. *)
Definition cell_values (c : cell) : list hvalue :=
  match c with
  | CArray items => items
  | CObject props => snd <$> props
  | _ => []
  end.

(** The object at [l] is an array or a plain object. *)
Definition is_container (h : heap) (l : nat) : bool :=
  match h !! l with
  | Some (CArray _) | Some (CObject _) => true
  | _ => false
  end.

Section Frame.
Context {B : Builtins}.
Variable h0 : heap.

(** A value that does not lead to an array or object of the store
    [h0] the call started with. *)
Definition detached (v : hvalue) : Prop :=
  match v with
  | HRef l => length h0 <= l \/ is_container h0 l = false
  | _ => True
  end.

(** The stores met during the call: [h0] is their beginning,
    untouched, and the objects added since hold detached values only. *)
Definition inv (h : heap) : Prop :=
  take (length h0) h = h0 /\
  forall l c, length h0 <= l -> h !! l = Some c -> Forall detached (cell_values c).

(** [m], started in such a store with [pre], ends in such a store, with
    [post] when it returns. *)
Definition triple {A} (pre : heap -> Prop) (m : M A) (post : heap -> A -> Prop) : Prop :=
  forall h, inv h -> pre h ->
            inv (m h).1 /\ forall a, (m h).2 = Ok a -> post (m h).1 a.

Lemma inv_lookup_old (h : heap) (l : nat) :
  inv h -> l < length h0 -> h !! l = h0 !! l.
Proof.
  intros [Hp _] Hl. rewrite <- (lookup_take_lt h (length h0) l) by done. by rewrite Hp.
Qed.

Lemma inv_length (h : heap) : inv h -> length h0 <= length h.
Proof.
  intros [Hp _]. apply (f_equal length) in Hp. rewrite length_take in Hp. lia.
Qed.

Lemma triple_ret {A} (pre : heap -> Prop) (a : A) (post : heap -> A -> Prop) :
  (forall h, inv h -> pre h -> post h a) -> triple pre (ret a) post.
Proof. intros H h Hi Hp. split; [done|]. intros a' [= <-]. by apply H. Qed.

Lemma triple_throw {A} (pre : heap -> Prop) (e : error) (post : heap -> A -> Prop) :
  triple pre (throw e) post.
Proof. intros h Hi Hp. split; [done|]. by intros a' [=]. Qed.

Lemma triple_lift {A} (pre : heap -> Prop) (r : result A) (post : heap -> A -> Prop) :
  (forall h a, inv h -> pre h -> r = Ok a -> post h a) -> triple pre (lift r) post.
Proof. intros H h Hi Hp. split; [done|]. intros a' Hr. by apply H. Qed.

Lemma triple_bind {A C} (pre : heap -> Prop) (m : M A) (mid : heap -> A -> Prop)
    (f : A -> M C) (post : heap -> C -> Prop) :
  triple pre m mid -> (forall a, triple (fun h => mid h a) (f a) post) ->
  triple pre (bind m f) post.
Proof.
  intros Hm Hf h Hi Hp. unfold bind. destruct (Hm h Hi Hp) as [Hi' Hmid].
  destruct (m h) as [h' [a|e]]; simpl in *.
  - apply Hf; [done|]. by apply Hmid.
  - split; [done|]. by intros a' [=].
Qed.

Lemma triple_weaken {A} (pre pre' : heap -> Prop) (m : M A) (post post' : heap -> A -> Prop) :
  triple pre' m post' ->
  (forall h, inv h -> pre h -> pre' h) ->
  (forall h a, inv h -> post' h a -> post h a) ->
  triple pre m post.
Proof.
  intros Hm Hpre Hpost h Hi Hp. destruct (Hm h Hi (Hpre h Hi Hp)) as [Hi' Hq].
  split; [done|]. intros a Ha. by apply Hpost, Hq.
Qed.

Lemma triple_read (pre : heap -> Prop) (l : nat) :
  triple pre (read l) (fun h c => pre h /\ h !! l = Some c).
Proof.
  intros h Hi Hp. unfold read. destruct (h !! l) as [c|] eqn:Hl; simpl.
  - split; [done|]. by intros a [= <-].
  - split; [done|]. by intros a [=].
Qed.

Lemma triple_alloc (pre : heap -> Prop) (c : cell) :
  Forall detached (cell_values c) ->
  triple pre (alloc c) (fun h l => length h0 <= l).
Proof.
  intros Hc h Hi Hp. unfold alloc. simpl. split.
  - destruct Hi as [Hpre Hnew]. pose proof (inv_length h (conj Hpre Hnew)) as Hlen. split.
    + by rewrite take_app_le.
    + intros l c' Hl Hlook. apply lookup_app_Some in Hlook as [Hlook|[_ Hlook]].
      * by apply (Hnew l).
      * destruct (l - length h); [|done]. by injection Hlook as <-.
  - intros l [= <-]. by apply inv_length.
Qed.

Lemma triple_write (pre : heap -> Prop) (l : nat) (c : cell) :
  length h0 <= l -> Forall detached (cell_values c) ->
  triple pre (write l c) (fun _ _ => True).
Proof.
  intros Hl Hc h [Hpre Hnew] Hp. unfold write. simpl. split; [|done]. split.
  - by rewrite take_insert_ge.
  - intros l' c' Hl' Hlook. destruct (decide (l = l')) as [<-|Hne].
    + apply list_lookup_insert_Some in Hlook as [(_ & <- & _)|[? _]]; done.
    + rewrite list_lookup_insert_ne in Hlook by done. by apply (Hnew l').
Qed.

Lemma triple_pure {A} (P : Prop) (m : M A) (post : heap -> A -> Prop) :
  (P -> triple (fun _ => True) m post) -> triple (fun _ => P) m post.
Proof. intros H h Hi HP. by apply H. Qed.

Lemma triple_mapM {A C} (f : A -> M C) (Q : C -> Prop) (l : list A) :
  (forall x, triple (fun _ => True) (f x) (fun _ y => Q y)) ->
  triple (fun _ => True) (mapM f l) (fun _ ys => Forall Q ys).
Proof.
  intros Hf. induction l as [|x l IH]; simpl.
  - apply triple_ret. by constructor.
  - eapply triple_bind; [apply Hf|]. intros y. apply (triple_pure (Q y)). intros Hy.
    eapply triple_bind; [apply IH|]. intros ys.
    apply triple_ret. intros h _ Hys. by constructor.
Qed.

Lemma triple_foldM {A C} (f : C -> A -> M C) (l : list A) (acc : C) :
  (forall acc x, triple (fun _ => True) (f acc x) (fun _ _ => True)) ->
  triple (fun _ => True) (foldM f l acc) (fun _ _ => True).
Proof.
  intros Hf. revert acc. induction l as [|x l IH]; intros acc; simpl.
  - by apply triple_ret.
  - eapply triple_bind; [apply Hf|]. intros acc'. apply IH.
Qed.

Lemma detached_old_leaf (h : heap) (l : nat) (c : cell) :
  inv h -> h !! l = Some c ->
  match c with CArray _ | CObject _ => False | _ => True end ->
  detached (HRef l).
Proof.
  intros Hi Hl Hc. simpl. destruct (decide (length h0 <= l)); [by left|right].
  unfold is_container. rewrite <- (inv_lookup_old h) by (done || lia).
  rewrite Hl. by destruct c.
Qed.

(** The copy [cloneObject] returns is detached. *)
Lemma triple_cloneObject (fuel : nat) (v : hvalue) :
  triple (fun _ => True) (cloneObject fuel v) (fun _ v' => detached v').
Proof.
  revert v. induction fuel as [|fuel IH]; intros v; simpl; [apply triple_throw|].
  destruct v; try (by apply triple_ret).
  eapply triple_bind; [apply triple_read|]. intros c.
  destruct c; simpl;
    try (apply triple_ret; intros h Hi [_ Hl]; by eapply detached_old_leaf).
  - eapply triple_weaken with (pre' := fun _ => True); [|done|intros h a _ Ha; exact Ha].
    eapply triple_bind; [apply (triple_mapM _ detached), IH|].
    intros items'. apply (triple_pure (Forall detached items')). intros Hitems.
    eapply triple_bind; [by apply triple_alloc|].
    intros l'. apply triple_ret. intros h _ Hl'. by left.
  - eapply triple_weaken with (pre' := fun _ => True); [|done|intros h a _ Ha; exact Ha].
    eapply triple_bind;
      [apply (triple_mapM _ (fun kv : string * hvalue => detached kv.2))|].
    { intros kv. eapply triple_bind; [apply IH|]. intros x. by apply triple_ret. }
    intros props'.
    apply (triple_pure (Forall (fun kv : string * hvalue => detached kv.2) props')).
    intros Hprops.
    eapply triple_bind; [apply triple_alloc; simpl; by apply Forall_fmap|].
    intros l'. apply triple_ret. intros h _ Hl'. by left.
Qed.

(** What [get] reads from a detached object is detached. *)
Lemma triple_get (obj : nat) (key : string) :
  detached (HRef obj) ->
  triple (fun _ => True) (get obj key) (fun _ v => detached v).
Proof.
  intros Hobj. unfold get. eapply triple_bind; [apply triple_read|]. intros c.
  apply triple_ret. intros h Hi [_ Hl].
  assert (forall v, v ∈ cell_values c -> detached v) as Hvals.
  { intros v Hv. destruct (decide (length h0 <= obj)) as [Hge|Hlt].
    - destruct Hi as [_ Hnew]. specialize (Hnew obj c Hge Hl).
      rewrite Forall_forall in Hnew. by apply Hnew.
    - destruct Hobj as [?|Hleaf]; [lia|]. unfold is_container in Hleaf.
      rewrite <- (inv_lookup_old h), Hl in Hleaf by (done || lia).
      destruct c; try done; by apply elem_of_nil in Hv. }
  destruct c; simpl; try done.
  - by destruct (String.eqb key "path").
  - destruct (key_index key) as [i|]; [|done].
    destruct (items !! i) as [v|] eqn:Hi'; [|done]. simpl.
    apply Hvals. by eapply list_elem_of_lookup_2.
  - destruct (assoc key props) as [v|] eqn:Hk; [|done]. simpl.
    apply Hvals. apply assoc_Some_elem in Hk. simpl.
    apply list_elem_of_fmap. by exists (key, v).
Qed.

Lemma assoc_set_values {A} (k : string) (x : A) (l : list (string * A)) (P : A -> Prop) :
  P x -> Forall P (snd <$> l) -> Forall P (snd <$> assoc_set k x l).
Proof.
  intros Hx. induction l as [|[k' y] l IH]; csimpl.
  - intros _. by constructor.
  - intros [Hy Hl]%Forall_cons. destruct (String.eqb k' k); csimpl; constructor; auto.
Qed.

(** [set] on a detached object leaves [h0] as it is. *)
Lemma triple_set (obj : nat) (key : string) (x : hvalue) :
  detached (HRef obj) -> detached x ->
  triple (fun _ => True) (set obj key x) (fun _ _ => True).
Proof.
  intros Hobj Hx h Hi _. unfold set, bind, read.
  destruct (h !! obj) as [c|] eqn:Hl; [|done].
  assert (match c with CArray _ | CObject _ => length h0 <= obj | _ => True end) as Hge.
  { destruct Hobj as [?|Hleaf]; [by destruct c|].
    destruct (decide (length h0 <= obj)); [by destruct c|].
    unfold is_container in Hleaf.
    rewrite <- (inv_lookup_old h), Hl in Hleaf by (done || lia). by destruct c. }
  assert (Forall detached (cell_values c)) as Hvals.
  { destruct c; simpl; try done; destruct Hi as [_ Hnew]; by apply (Hnew obj _ Hge Hl). }
  destruct c; simpl in *; try done.
  - destruct (key_index key) as [i|]; [|done].
    repeat case_decide; try done; apply (triple_write (fun _ => True)); try done; simpl.
    + destruct (lookup_lt_is_Some_2 items i) as [y Hy]; [done|].
      rewrite Forall_forall in Hvals |- *. intros v Hv.
      apply list_elem_of_lookup in Hv as [j Hj].
      apply list_lookup_insert_Some in Hj as [(_ & <- & _)|[_ Hj]]; [done|].
      by eapply Hvals, list_elem_of_lookup_2.
    + apply Forall_app. split; [done|]. by constructor.
  - apply (triple_write (fun _ => True)); try done. simpl. by apply assoc_set_values.
Qed.

(** [process] on a detached object leaves [h0] as it is. *)
Lemma triple_process (fuel : nat) (obj : nat) (mappings : list (string * string))
    (prefix : string) :
  detached (HRef obj) ->
  triple (fun _ => True) (process fuel obj mappings prefix) (fun _ _ => True).
Proof.
  revert obj mappings prefix.
  induction fuel as [|fuel IH]; intros obj mappings prefix Hobj; simpl; [apply triple_throw|].
  eapply triple_bind; [apply triple_read|]. intros c.
  eapply triple_weaken with (pre' := fun _ => True) (post' := fun _ _ => True); [|done|done].
  apply triple_foldM. intros acc key.
  eapply triple_bind; [by apply triple_get|]. intros val.
  apply (triple_pure (detached val)). intros Hval.
  destruct val; try (by apply triple_ret).
  eapply triple_bind; [apply triple_read|]. intros c'.
  eapply triple_weaken with (pre' := fun _ => True) (post' := fun _ _ => True); [|done|done].
  destruct c'; try (by apply IH).
  - eapply (triple_bind _ _ (fun _ _ => True)); [by apply triple_lift|]. intros iso.
    eapply triple_bind; [by apply triple_set|]. intros u. by apply triple_ret.
  - eapply triple_bind; [by apply triple_set|]. intros u. by apply triple_ret.
  - eapply triple_bind; [by apply triple_set|]. intros u. by apply triple_ret.
Qed.

Lemma triple_single_value (obj : hvalue) :
  triple (fun _ => True) (single_value obj) (fun _ single => single = true -> detached obj).
Proof.
  destruct obj; try (by apply triple_ret).
  simpl. eapply triple_bind; [apply triple_read|]. intros c.
  apply triple_ret. intros h Hi [_ Hl] Hc.
  eapply detached_old_leaf; [done..|]. by destruct c.
Qed.

Lemma triple_serialize_composite (fuel : nat) (obj : hvalue) :
  triple (fun _ => True) (serialize_composite fuel obj) (fun _ e => detached (env_val e)).
Proof.
  unfold serialize_composite.
  eapply triple_bind; [apply triple_cloneObject|]. intros obj'.
  apply (triple_pure (detached obj')). intros Hobj'.
  destruct obj'; try (by apply triple_ret).
  eapply triple_bind; [by apply triple_process|]. intros mappings. by apply triple_ret.
Qed.

Lemma triple_serialize (fuel : nat) (obj : hvalue) :
  triple (fun _ => True) (serialize fuel obj) (fun _ _ => True).
Proof.
  unfold serialize.
  eapply triple_bind; [apply triple_single_value|]. intros single.
  apply (triple_pure (single = true -> detached obj)). intros Hsingle.
  destruct single.
  - eapply triple_bind; [apply triple_alloc; simpl; constructor; auto|].
    intros wrapper. apply (triple_pure (length h0 <= wrapper)). intros Hw.
    eapply triple_bind; [apply triple_serialize_composite|]. intros ser.
    apply (triple_pure (detached (env_val ser))). intros Hser.
    destruct (env_val ser); try apply triple_throw.
    eapply triple_bind; [by apply triple_get|]. intros v. by apply triple_ret.
  - eapply triple_weaken; [apply triple_serialize_composite|done|done].
Qed.

End Frame.

(** C9: [serialize] leaves every object that was in the store before
    the call exactly as it was, and so the caller's object and every
    array, object, [Date], binary value and path link nested in it:
    the replacements are made in the copy.  This holds whatever the
    call returns or throws, at every bound on the nesting. *)
Theorem serialize_frame {B : Builtins} (fuel : nat) (obj : hvalue) (h : heap) :
  take (length h) (serialize fuel obj h).1 = h.
Proof.
  assert (inv h h) as Hi.
  { split; [by apply take_ge|]. intros l' c Hl' Hc. apply lookup_lt_Some in Hc. lia. }
  destruct (triple_serialize h fuel obj h Hi I) as [[Hframe _] _]. exact Hframe.
Qed.

(** On [shared_store], the envelope holds a new object (at 5), and the
    four objects of the caller are as they were. *)
Example serialize_shared_store :
  serialize 10 (HRef 3) shared_store =
  (shared_store ++
     [CArray [HString "86400000"; HString (string_of_list_byte [Byte.x00; Byte.x7f])];
      CObject [("when", HString "86400000"); ("list", HRef 4)]],
   Ok (Envelope
         (MapObject [("when", "date"); ("list/0", "date"); ("list/1", "binary")])
         (HRef 5))).
Proof. reflexivity. Qed.

(** On [shared_store], [serialize] on the store returns the envelope
    that [Transport.serialize] returns for the value the caller's
    object stands for. *)
Example serialize_shared_store_value :
  reify_envelope 10 (serialize 10 (HRef 3) shared_store)
  = Transport.serialize <$> reify 10 shared_store (HRef 3).
Proof. reflexivity. Qed.

(** Without the copy, [process] does change the caller's object. *)
Example process_changes_its_argument :
  (process 10 3 [] "" shared_store).1 =
  [CDate (Some 86400000%Z);
   CBinary [Byte.x00; Byte.x7f];
   CArray [HString "86400000"; HString (string_of_list_byte [Byte.x00; Byte.x7f])];
   CObject [("when", HString "86400000"); ("list", HRef 2)]].
Proof. reflexivity. Qed.

End Store.

(** * Data references ([DataReference]) *)

Module Reference.
Import JS.

(** ** Paths *)

(** The first character, if it is a separator, removed. *)
Definition strip_leading_slash (s : string) : string :=
  match s with
  | String c s' => if Ascii.eqb c "/"%char then s' else s
  | EmptyString => EmptyString
  end.

(** The last character, if it is a separator, removed. *)
Fixpoint strip_trailing_slash (s : string) : string :=
  match s with
  | EmptyString => EmptyString
  | String c EmptyString => if Ascii.eqb c "/"%char then EmptyString else s
  | String c s' => String c (strip_trailing_slash s')
  end.

(** [s.replace(/^\/|\/$/g, "")]: the pattern matches one separator at
    the start and one at the end. *)
Definition trim_slashes (s : string) : string :=
  strip_trailing_slash (strip_leading_slash s).

(** [s.lastIndexOf(c)], [None] for -1. *)
Fixpoint lastIndexOf (c : ascii) (s : string) : option nat :=
  match s with
  | EmptyString => None
  | String a s' =>
      match lastIndexOf c s' with
      | Some i => Some (S i)
      | None => if Ascii.eqb a c then Some 0 else None
      end
  end.

(** [s.substr(n)] *)
Definition substr_from (n : nat) (s : string) : string :=
  String.substring n (String.length s - n) s.

(** The [key] the constructor computes from the trimmed path. *)
Definition key_of (path : string) : string :=
  if Nat.eqb (String.length path) 0 then EmptyString
  else substr_from (match lastIndexOf "/"%char path with Some i => i + 1 | None => 0 end) path.


(** Modelled from the spec: [getPathInfo(path).parent] of [./utils],
    which is not part of the embedded sources.  The parent of a path
    is null at the root, else everything before the last separator or
    bracket-group start. *)
Definition parent_path (path : string) : option string :=
  if Nat.eqb (String.length path) 0 then None
  else
    match lastIndexOf "/"%char path, lastIndexOf "["%char path with
    | None, None => Some EmptyString
    | Some i, None | None, Some i => Some (String.substring 0 i path)
    | Some i, Some j => Some (String.substring 0 (Nat.max i j) path)
    end.

Definition starts_with_slash (s : string) : bool :=
  match s with
  | String c _ => Ascii.eqb c "/"%char
  | EmptyString => false
  end.

Fixpoint ends_with_slash (s : string) : bool :=
  match s with
  | EmptyString => false
  | String c EmptyString => Ascii.eqb c "/"%char
  | String _ s' => ends_with_slash s'
  end.

(** A path in canonical form: no separator at its start or end. *)
Definition canonical (path : string) : Prop :=
  starts_with_slash path = false /\ ends_with_slash path = false.


(** ** References, registrations and the world they act on *)

(** A [DataReference] object: its identity, and the [path] and [key]
    of its private part.  Its [callbacks] array is in the world, under
    its identity. *)
Record DataReference : Type := Ref { ref_id : nat; path : string; key : string }.

(** Modelled from the spec: [DataSnapshot] of [./data-snapshot], which
    is not part of the embedded sources.  A snapshot is constructed
    from a reference and a value and exposes the value. *)
Record snapshot : Type := Snapshot { snap_ref : DataReference; snap_val : value }.

(** A function: one of the application, known by a number, or the
    [callback] that [once] makes. *)
Inductive fn : Type :=
| UserFn (id : nat)
| OnceFn (this : DataReference) (event : string) (promise : nat).

(** A [callback] or [onComplete] argument: absent (or falsy), a truthy
    value that is not a function, or a function. *)
Inductive cbarg : Type :=
| CbAbsent
| CbTrue
| CbFn (f : fn).

(** What [off] can get as its [callback]: such an argument, or (from
    [once]) a snapshot. *)
Inductive offarg : Type :=
| OffArg (c : cbarg)
| OffSnapshot (s : snapshot).

(** The object [cb] that [on] makes, with what its function [ours]
    has captured: [this] and [event] ([callback] is [original] and
    [eventStream] is [subscr]).  [reg_id] is the identity of the
    object and of its function [ours]. *)
Record registration : Type := Registration {
  reg_id : nat;
  subscr : nat;
  original : cbarg;
  reg_this : DataReference;
  reg_event : string
}.

(** A call into the backend, [this.db.api]. *)
Inductive api_call : Type :=
| ApiSet (ref : DataReference) (val : value)
| ApiUpdate (ref : DataReference) (updates : value)
| ApiGet (ref : DataReference) (options : value)
| ApiSubscribe (ref : DataReference) (event : string) (handler : registration)
| ApiUnsubscribe (ref : DataReference) (event : option string) (handler : option registration).

(** What reaches the application: a call of one of its functions with
    a snapshot, a snapshot published on a stream, a call of an
    [onComplete] function. *)
Inductive delivery : Type :=
| Called (f : fn) (s : snapshot)
| Published (stream : nat) (s : snapshot)
| Completed (f : fn) (ref : DataReference).

(** The value a promise carries between its [then] steps. *)
Inductive pvalue : Type :=
| PValue (v : value)
| PSnapshot (s : snapshot)
| PRef (ref : DataReference).

(** The [then] steps of the source, by what they have captured. *)
Inductive frame : Type :=
| ThenSnapshot (this : DataReference)         (* in [get] *)
| ThenReplayValue (cb : registration)         (* in [on], for "value" *)
| ThenReplayChildren (cb : registration)      (* in [on], for "child_added" *)
| ThenSet (onComplete : cbarg) (this : DataReference)   (* in [set] *)
| ThenRet (onComplete : cbarg) (this : DataReference).  (* [ret] in [update] *)

(** The world: the [callbacks] array of every reference, by identity;
    the subscribers of every [EventStream]; the calls made into the
    backend, oldest first; the promises of backend calls not yet
    settled, each the number of its call and its [then] steps; the
    promises settled; what [debug.error] was given; what reached the
    application; the snapshots the promises of [once] resolved with;
    and the counter of fresh identities. *)
Record world : Type := World {
  callbacks : list (list registration);
  streams : list (list nat);
  api_calls : list api_call;
  pending : list (nat * list frame);
  settled : list (nat * result pvalue);
  debug_errors : list string;
  delivered : list delivery;
  once_resolved : list (nat * snapshot);
  next_id : nat
}.

Definition empty_world : world := World [] [] [] [] [] [] [] [] 0.

Definition with_callbacks (f : list (list registration) -> list (list registration))
    (w : world) : world :=
  World (f (callbacks w)) (streams w) (api_calls w) (pending w) (settled w)
        (debug_errors w) (delivered w) (once_resolved w) (next_id w).
Definition with_streams (f : list (list nat) -> list (list nat)) (w : world) : world :=
  World (callbacks w) (f (streams w)) (api_calls w) (pending w) (settled w)
        (debug_errors w) (delivered w) (once_resolved w) (next_id w).
Definition with_api_calls (f : list api_call -> list api_call) (w : world) : world :=
  World (callbacks w) (streams w) (f (api_calls w)) (pending w) (settled w)
        (debug_errors w) (delivered w) (once_resolved w) (next_id w).
Definition with_pending (f : list (nat * list frame) -> list (nat * list frame))
    (w : world) : world :=
  World (callbacks w) (streams w) (api_calls w) (f (pending w)) (settled w)
        (debug_errors w) (delivered w) (once_resolved w) (next_id w).
Definition with_settled (f : list (nat * result pvalue) -> list (nat * result pvalue))
    (w : world) : world :=
  World (callbacks w) (streams w) (api_calls w) (pending w) (f (settled w))
        (debug_errors w) (delivered w) (once_resolved w) (next_id w).
Definition with_debug_errors (f : list string -> list string) (w : world) : world :=
  World (callbacks w) (streams w) (api_calls w) (pending w) (settled w)
        (f (debug_errors w)) (delivered w) (once_resolved w) (next_id w).
Definition with_delivered (f : list delivery -> list delivery) (w : world) : world :=
  World (callbacks w) (streams w) (api_calls w) (pending w) (settled w)
        (debug_errors w) (f (delivered w)) (once_resolved w) (next_id w).
Definition with_once_resolved (f : list (nat * snapshot) -> list (nat * snapshot))
    (w : world) : world :=
  World (callbacks w) (streams w) (api_calls w) (pending w) (settled w)
        (debug_errors w) (delivered w) (f (once_resolved w)) (next_id w).
Definition with_next_id (f : nat -> nat) (w : world) : world :=
  World (callbacks w) (streams w) (api_calls w) (pending w) (settled w)
        (debug_errors w) (delivered w) (once_resolved w) (f (next_id w)).

(** A computation in the world that returns or throws. *)
Definition W (A : Type) : Type := world -> world * result A.

Definition ret {A} (a : A) : W A := fun w => (w, Ok a).
Definition throw {A} (e : error) : W A := fun w => (w, Throw e).
Definition bind {A C} (m : W A) (f : A -> W C) : W C :=
  fun w =>
    match m w with
    | (w', Ok a) => f a w'
    | (w', Throw e) => (w', Throw e)
    end.
Definition modify (f : world -> world) : W unit := fun w => (f w, Ok tt).
Definition gets {A} (f : world -> A) : W A := fun w => (w, Ok (f w)).

Notation "x <~ m ;; k" := (bind m (fun x => k))
  (at level 60, m at next level, right associativity).
Notation "m ;;; k" := (bind m (fun _ => k))
  (at level 60, right associativity).

Fixpoint forEach {A} (l : list A) (f : A -> W unit) : W unit :=
  match l with
  | [] => ret tt
  | x :: l' => f x ;;; forEach l' f
  end.

(** ** The collaborators *)

Section Operations.

(** The type-mapping collaborator, [this.db.types] ([./type-mappings]
    is not part of the embedded sources). *)
Variable types_serialize : string -> value -> value.
Variable types_deserialize : string -> value -> value.

(** A fresh identity, for a registration or for a promise of [once]. *)
Definition fresh_id : W nat :=
  fun w => (with_next_id S w, Ok (next_id w)).

(** A call into the backend; the number of the call stands for the
    promise the backend returns. *)
Definition api (c : api_call) : W nat :=
  fun w => (with_api_calls (fun l => l ++ [c]) w, Ok (length (api_calls w))).

(** [new Promise]-free chaining: the promise of backend call [k] with
    its first [then] steps, and one more [then] on it. *)
Definition then_ (k : nat) (frames : list frame) : W nat :=
  modify (with_pending (fun l => l ++ [(k, frames)])) ;;; ret k.

Definition and_then (k : nat) (fr : frame) : W unit :=
  modify (with_pending (fmap (fun p => if Nat.eqb p.1 k then (p.1, p.2 ++ [fr]) else p))).

(** [debug.error(...)] of [./debug]: the message is kept. *)
Definition debug_error (msg : string) : W unit :=
  modify (with_debug_errors (fun l => l ++ [msg])).

(** Modelled from the spec: [EventStream] of [./subscription], which
    is not part of the embedded sources: a stream exposing
    [publish(value)], which returns whether the stream is to be kept
    alive (it has a subscriber), and [stop(handler?)]. *)
Definition EventStream_new : W nat :=
  fun w => (with_streams (fun l => l ++ [[]]) w, Ok (length (streams w))).

Definition publish (stream : nat) (snap : snapshot) : W bool :=
  modify (with_delivered (fun l => l ++ [Published stream snap])) ;;;
  gets (fun w => match streams w !! stream with
                 | Some (_ :: _) => true
                 | _ => false
                 end).

Definition stop (stream : nat) : W unit :=
  modify (with_streams (fun l => <[stream := []]> l)).

(** The application subscribing to a stream it was given. *)
Definition subscribe (stream : nat) (subscriber : nat) : W unit :=
  modify (with_streams (alter (fun l => l ++ [subscriber]) stream)).

(** ** [DataReference] *)

(** The constructor; an absent or empty [path] is the root. *)
Definition DataReference_new (p : option string) : W DataReference :=
  fun w =>
    let path := trim_slashes (default EmptyString p) in
    (with_callbacks (fun l => l ++ [[]]) w,
     Ok (Ref (length (callbacks w)) path (key_of path))).

(** [AceBase.ref(path)] *)
Definition db_ref (p : string) : W DataReference := DataReference_new (Some p).

(** The getter [parent] *)
Definition parent (this : DataReference) : W (option DataReference) :=
  match parent_path (path this) with
  | None => ret None
  | Some p => r <~ DataReference_new (Some p);; ret (Some r)
  end.

Definition child (this : DataReference) (childPath : string) : W DataReference :=
  let childPath := trim_slashes childPath in
  DataReference_new (Some (path this ++ "/" ++ childPath)%string).

Definition set (this : DataReference) (value : value) (onComplete : cbarg) : W nat :=
  p <~ parent this;;
  match p with
  | None =>
      throw (Error "Cannot set the root object. Use update, or set individual child properties")
  | Some _ =>
      if String.eqb (typeof value) "undefined"
      then throw (TypeError "Cannot store value undefined")
      else
        let value := types_serialize (path this) value in
        k <~ api (ApiSet this value);;
        then_ k [ThenSet onComplete this]
  end.

Definition update (this : DataReference) (updates : value) (onComplete : cbarg) : W nat :=
  if negb (String.eqb (typeof updates) "object")
     || instanceof_Array updates || instanceof_ArrayBuffer updates || instanceof_Date updates
  then
    k <~ set this updates CbAbsent;;
    and_then k (ThenRet onComplete this) ;;; ret k
  else
    let updates := types_serialize (path this) updates in
    k <~ api (ApiUpdate this updates);;
    then_ k [ThenRet onComplete this].

Definition remove (this : DataReference) : W nat :=
  p <~ parent this;;
  match p with
  | None => throw (Error "Cannot remove the top node")
  | Some _ => set this VNull CbAbsent
  end.

Definition get (this : DataReference) (options : value) : W nat :=
  k <~ api (ApiGet this options);;
  then_ k [ThenSnapshot this].

(** [push], given the key [ID.generate()] returned: the new child
    reference (the [set] of a given value is left to the caller). *)
Definition push (this : DataReference) (id : string) : W DataReference :=
  child this id.


(** *** Subscriptions *)

Definition is_function (c : cbarg) : bool :=
  match c with CbFn _ => true | _ => false end.

Definition truthy_cb (c : cbarg) : bool :=
  match c with CbAbsent => false | _ => true end.

Definition fn_eqb (f g : fn) : bool :=
  match f, g with
  | UserFn a, UserFn b => Nat.eqb a b
  | OnceFn _ _ p, OnceFn _ _ q => Nat.eqb p q
  | _, _ => false
  end.

(** [cb.original === callback] *)
Definition same_callback (original : cbarg) (callback : offarg) : bool :=
  match original, callback with
  | CbFn f, OffArg (CbFn g) => fn_eqb f g
  | CbTrue, OffArg CbTrue => true
  | CbAbsent, OffArg CbAbsent => true
  | _, _ => false
  end.

Definition truthy_off (callback : offarg) : bool :=
  match callback with OffArg c => truthy_cb c | OffSnapshot _ => true end.

(** [callbacks.indexOf(cb)], [None] for -1 *)
Fixpoint indexOf (cb : registration) (l : list registration) : option nat :=
  match l with
  | [] => None
  | cb' :: l' =>
      if Nat.eqb (reg_id cb') (reg_id cb) then Some 0 else S <$> indexOf cb l'
  end.

(** [callbacks.splice(callbacks.indexOf(cb), 1)]; at -1, [splice]
    removes the last element. *)
Definition splice_indexOf (cb : registration) (l : list registration) : list registration :=
  match indexOf cb l with
  | Some i => delete i l
  | None => removelast l
  end.

Definition callbacks_of (this : DataReference) : W (list registration) :=
  gets (fun w => default [] (callbacks w !! ref_id this)).

Definition off (this : DataReference) (event : option string) (callback : offarg) : W unit :=
  cbs <~ callbacks_of this;;
  if truthy_off callback then
    match List.find (fun cb => same_callback (original cb) callback) cbs with
    | None =>
        debug_error "Can't find specified callback to unsubscribe from"
    | Some cb =>
        modify (with_callbacks (alter (splice_indexOf cb) (ref_id this))) ;;;
        stop (subscr cb) ;;;
        api (ApiUnsubscribe this event (Some cb)) ;;; ret tt
    end
  else
    modify (with_callbacks (alter (fun _ => []) (ref_id this))) ;;;
    forEach cbs (fun cb => stop (subscr cb)) ;;;
    api (ApiUnsubscribe this event None) ;;; ret tt.

(** The promise of [once] resolved (a promise is settled once). *)
Definition resolve (promise : nat) (snap : snapshot) : W unit :=
  modify (fun w =>
            if existsb (fun p => Nat.eqb p.1 promise) (once_resolved w) then w
            else with_once_resolved (fun l => l ++ [(promise, snap)]) w).

(** A call [f(snap)].  A function of the application is taken to
    return, and not to call into the reference while it runs; the
    callback of [once] is [this.off(event, snap); resolve(snap)]. *)
Definition invoke (f : fn) (snap : snapshot) : W unit :=
  modify (with_delivered (fun l => l ++ [Called f snap])) ;;;
  match f with
  | UserFn _ => ret tt
  | OnceFn this event promise =>
      off this (Some event) (OffSnapshot snap) ;;; resolve promise snap
  end.

(** [useCallback && callback(snap)] *)
Definition invoke_callback (callback : cbarg) (snap : snapshot) : W unit :=
  match callback with
  | CbFn f => invoke f snap
  | _ => ret tt
  end.

(** The function [cb.ours] that [on] hands to the backend. *)
Definition ours (cb : registration) (err : value) (path : string)
    (newValue oldValue : value) : W unit :=
  let this := reg_this cb in
  let event := reg_event cb in
  let callback := original cb in
  let useCallback := is_function callback in
  if truthy err then
    debug_error ("Error getting data for event " ++ event ++ " on path " ++ path)
  else
    let val :=
      types_deserialize path (if String.eqb event "child_removed" then oldValue else newValue) in
    ref <~ db_ref path;;
    let snap := Snapshot ref val in
    invoke_callback callback snap ;;;
    keep <~ publish (subscr cb) snap;;
    if negb keep && negb useCallback then
      modify (with_callbacks (alter (splice_indexOf cb) (ref_id this))) ;;;
      api (ApiUnsubscribe this (Some event) (Some cb)) ;;; ret tt
    else ret tt.

(** [on(event, callback)]; it returns the stream.  [this.once("value")]
    is [this.get(undefined)]. *)
Definition on (this : DataReference) (event : string) (callback : cbarg) : W nat :=
  eventStream <~ EventStream_new;;
  id <~ fresh_id;;
  let cb := Registration id eventStream callback this event in
  modify (with_callbacks (alter (fun l => l ++ [cb]) (ref_id this))) ;;;
  api (ApiSubscribe this event cb) ;;;
  (if truthy_cb callback then
     if String.eqb event "value" then
       k <~ get this VUndefined;; and_then k (ThenReplayValue cb)
     else if String.eqb event "child_added" then
       k <~ get this VUndefined;; and_then k (ThenReplayChildren cb)
     else ret tt
   else ret tt) ;;;
  ret eventStream.

(** The promise [once] returns: that of a backend call, or one it
    made itself. *)
Inductive promise : Type :=
| BackendPromise (k : nat)
| OncePromise (p : nat).

Definition once (this : DataReference) (event : string) (options : value) : W promise :=
  if String.eqb event "value" then
    k <~ get this options;; ret (BackendPromise k)
  else
    p <~ fresh_id;;
    on this event (CbFn (OnceFn this event p)) ;;;
    ret (OncePromise p).

(** *** The [then] steps, and the backend settling a promise *)

Definition lift {A} (r : result A) : W A := fun w => (w, r).

(** [Object.keys(val)] *)
Definition Object_keys (val : value) : result (list string) :=
  match val with
  | VUndefined | VNull => Throw (TypeError "Cannot convert undefined or null to object")
  | _ => Ok (own_keys val)
  end.

(** [onComplete && onComplete(null, this)] *)
Definition complete (onComplete : cbarg) (this : DataReference) : W unit :=
  match onComplete with
  | CbAbsent => ret tt
  | CbTrue => throw (TypeError "onComplete is not a function")
  | CbFn f => modify (with_delivered (fun l => l ++ [Completed f this]))
  end.

Definition run_frame (fr : frame) (v : pvalue) : W pvalue :=
  match fr, v with
  | ThenSnapshot this, PValue raw =>
      ret (PSnapshot (Snapshot this (types_deserialize (path this) raw)))
  | ThenReplayValue cb, PSnapshot snap =>
      publish (subscr cb) snap ;;;
      invoke_callback (original cb) snap ;;;
      ret (PValue VUndefined)
  | ThenReplayChildren cb, PSnapshot snap =>
      let val := snap_val snap in
      if negb (String.eqb (typeof val) "object") then ret (PValue VUndefined)
      else
        keys <~ lift (Object_keys val);;
        forEach keys
          (fun key =>
             c <~ child (reg_this cb) key;;
             x <~ lift (get_prop val key);;
             let childSnap := Snapshot c x in
             publish (subscr cb) childSnap ;;;
             invoke_callback (original cb) childSnap) ;;;
        ret (PValue VUndefined)
  | ThenSet onComplete this, _ => complete onComplete this ;;; ret (PRef this)
  | ThenRet onComplete this, _ => complete onComplete this ;;; ret (PRef this)
  | _, _ => throw (TypeError "not a value of this step")
  end.

Fixpoint run_frames (frames : list frame) (v : pvalue) : W pvalue :=
  match frames with
  | [] => ret v
  | fr :: frames' => v' <~ run_frame fr v;; run_frames frames' v'
  end.

(** The backend settles the promise of its call [k]: with a value,
    after which the [then] steps run, or with a failure. *)
Definition respond (k : nat) (r : result value) : W unit :=
  fun w =>
    match List.find (fun p => Nat.eqb p.1 k) (pending w) with
    | None => (w, Ok tt)
    | Some (_, frames) =>
        let w1 := with_pending (List.filter (fun p => negb (Nat.eqb p.1 k))) w in
        let '(w2, out) :=
          match r with
          | Ok raw => run_frames frames (PValue raw) w1
          | Throw e => (w1, Throw e)
          end in
        (with_settled (fun l => l ++ [(k, out)]) w2, Ok tt)
    end.

End Operations.

(** ** Paths and keys of references *)

Section PathFacts.





Lemma strip_leading_id (s : string) :
  starts_with_slash s = false -> strip_leading_slash s = s.
Proof. destruct s as [|c s]; [done|]. simpl. by intros ->. Qed.

Lemma strip_trailing_id (s : string) :
  ends_with_slash s = false -> strip_trailing_slash s = s.
Proof.
  induction s as [|c s IH]; [done|]. simpl.
  destruct s as [|c' s]; [by intros ->|]. intros H. by rewrite IH.
Qed.

Lemma trim_slashes_id (s : string) : canonical s -> trim_slashes s = s.
Proof.
  intros [Hs He]. unfold trim_slashes. by rewrite strip_leading_id, strip_trailing_id.
Qed.

Lemma ends_with_slash_app (s1 s2 : string) :
  s2 <> EmptyString -> ends_with_slash (s1 +:+ s2) = ends_with_slash s2.
Proof.
  intros Hs2. induction s1 as [|c s1 IH]; [done|]. simpl.
  destruct (s1 +:+ s2) eqn:Happ; [|done].
  destruct s1; [simpl in Happ; by subst|done].
Qed.

Lemma starts_with_slash_app (s1 s2 : string) :
  s1 <> EmptyString -> starts_with_slash (s1 +:+ s2) = starts_with_slash s1.
Proof. by destruct s1. Qed.

(** The path of a child of a reference that is not the root. *)
Lemma child_path_join (a b : string) :
  canonical a -> a <> EmptyString -> canonical b -> b <> EmptyString ->
  trim_slashes (a +:+ "/" +:+ b) = (a +:+ "/" +:+ b)%string.
Proof.
  intros [Ha _] Hane [_ Hb] Hbne. apply trim_slashes_id. split.
  - by rewrite starts_with_slash_app.
  - rewrite ends_with_slash_app; [|done].
    change ("/" +:+ b)%string with (String "/"%char b). simpl. by destruct b.
Qed.

(** The path of a child of the root. *)
Lemma child_path_root (b : string) :
  canonical b -> trim_slashes ("" +:+ "/" +:+ b) = b.
Proof.
  intros [_ Hb]. unfold trim_slashes. simpl. by apply strip_trailing_id.
Qed.

Lemma substring_all (s : string) : String.substring 0 (String.length s) s = s.
Proof. induction s as [|c s IH]; [done|]. simpl. by rewrite IH. Qed.

Lemma substr_from_0 (s : string) : substr_from 0 s = s.
Proof. unfold substr_from. rewrite Nat.sub_0_r. apply substring_all. Qed.

Lemma substr_from_S (n : nat) (c : ascii) (s : string) :
  substr_from (S n) (String c s) = substr_from n s.
Proof. done. Qed.

(** [lastIndexOf] and [substr] against [split]. *)
Lemma lastIndexOf_split (s : string) :
  match lastIndexOf "/"%char s with
  | None => Transport.split_slash s = [s]
  | Some i =>
      exists h t, Transport.split_slash s = h :: t /\ t <> [] /\
                  substr_from (i + 1) s = List.last t EmptyString
  end.
Proof.
  induction s as [|c s IH]; [done|]. simpl.
  destruct (lastIndexOf "/" s) as [i|].
  - destruct IH as (h & t & Hsplit & Ht & Hlast). rewrite Hsplit.
    destruct (Ascii.eqb c "/").
    + exists EmptyString, (h :: t). split_and!; [done|done|].
      change (S i + 1) with (S (i + 1)). rewrite substr_from_S, Hlast. by destruct t.
    + exists (String c h), t. split_and!; [done|done|].
      change (S i + 1) with (S (i + 1)). by rewrite substr_from_S.
  - rewrite IH. destruct (Ascii.eqb c "/"); [|done].
    exists EmptyString, [s]. split_and!; [done|done|]. simpl. apply substr_from_0.
Qed.

(** The key is the last segment of the path. *)
Lemma key_of_last_segment (p : string) :
  key_of p = List.last (Transport.split_slash p) EmptyString.
Proof.
  unfold key_of. destruct (Nat.eqb_spec (String.length p) 0) as [Hlen|_].
  - by destruct p.
  - pose proof (lastIndexOf_split p) as H. destruct (lastIndexOf "/" p) as [i|].
    + destruct H as (h & t & -> & Ht & ->). by destruct t.
    + rewrite H. simpl. apply substr_from_0.
Qed.

Lemma parent_path_None (p : string) : parent_path p = None <-> p = EmptyString.
Proof.
  unfold parent_path. destruct p as [|c p]; [done|]. simpl.
  split; [|done]. by destruct (lastIndexOf "/" p), (lastIndexOf "[" p);
    repeat match goal with |- context [if ?b then _ else _] => destruct b end.
Qed.

End PathFacts.



(** A child path of slashes only leaves a trailing separator. *)
Example child_trailing_separator :
  (child (Ref 0 "a" "a") "///" empty_world).2 = Ok (Ref 0 "a/" "").
Proof. reflexivity. Qed.

Section Writes.
Variable types_serialize : string -> value -> value.

Lemma parent_root (this : DataReference) (w : world) :
  path this = EmptyString -> parent this w = (w, Ok None).
Proof. unfold parent. by intros ->. Qed.

Lemma parent_not_root (this : DataReference) (w : world) :
  path this <> EmptyString ->
  exists r, parent this w = (with_callbacks (fun l => l ++ [[]]) w, Ok (Some r)).
Proof.
  intros Hne. unfold parent. destruct (parent_path (path this)) as [pp|] eqn:Hpp.
  - by eexists.
  - by apply parent_path_None in Hpp.
Qed.

(** C2: on a reference that is not the root, [set(undefined)] throws,
    and on the root reference [set(v)] for every [v] and [remove()]
    throw; each throws from the call itself, and the calls made into
    the backend are the same after as before. *)
Theorem set_remove_validation (this : DataReference) (onComplete : cbarg) (w : world) :
  (path this <> EmptyString ->
   (set types_serialize this VUndefined onComplete w).2
     = Throw (TypeError "Cannot store value undefined") /\
   api_calls (set types_serialize this VUndefined onComplete w).1 = api_calls w) /\
  (path this = EmptyString ->
   (forall v,
       (set types_serialize this v onComplete w).2
         = Throw (Error "Cannot set the root object. Use update, or set individual child properties") /\
       api_calls (set types_serialize this v onComplete w).1 = api_calls w) /\
   (remove types_serialize this w).2 = Throw (Error "Cannot remove the top node") /\
   api_calls (remove types_serialize this w).1 = api_calls w).
Proof.
  split.
  - intros Hne. destruct (parent_not_root this w Hne) as [r Hr].
    unfold set, bind. by rewrite Hr.
  - intros Hroot. unfold set, remove, bind. by rewrite (parent_root this w Hroot).
Qed.

Example set_undefined_throws :
  set types_serialize (Ref 0 "users/ewout" "ewout") VUndefined CbAbsent
      (World [[]] [] [] [] [] [] [] [] 0)
  = (World [[]; []] [] [] [] [] [] [] [] 0, Throw (TypeError "Cannot store value undefined")).
Proof. reflexivity. Qed.

Example set_stores :
  set types_serialize (Ref 0 "users/ewout" "ewout") (VString "x") CbAbsent
      (World [[]] [] [] [] [] [] [] [] 0)
  = (World [[]; []] [] [ApiSet (Ref 0 "users/ewout" "ewout") (types_serialize "users/ewout" (VString "x"))]
           [(0, [ThenSet CbAbsent (Ref 0 "users/ewout" "ewout")])] [] [] [] [] 0,
     Ok 0).
Proof. reflexivity. Qed.

(** C3 at [null]: [update(null)] serializes [null] and calls the
    backend [update], where [set(null)] (on a reference that is not
    the root) calls the backend [set]. *)
Theorem update_null_calls_backend_update (this : DataReference) (onComplete : cbarg) (w : world) :
  update types_serialize this VNull onComplete w
  = (with_pending (fun l => l ++ [(length (api_calls w), [ThenRet onComplete this])])
       (with_api_calls (fun l => l ++ [ApiUpdate this (types_serialize (path this) VNull)]) w),
     Ok (length (api_calls w))) /\
  (path this <> EmptyString ->
   api_calls (set types_serialize this VNull onComplete w).1
   = api_calls w ++ [ApiSet this (types_serialize (path this) VNull)]).
Proof.
  split; [reflexivity|]. intros Hne. destruct (parent_not_root this w Hne) as [r Hr].
  unfold set, bind. by rewrite Hr.
Qed.

End Writes.

(** ** Subscriptions *)

(** [val[key]], when the read returns. *)
Definition get_prop_ok (val : value) (key : string) : option value :=
  match get_prop val key with
  | Ok x => Some x
  | Throw _ => None
  end.

(** The worlds that calls of the operations lead to: a pending promise
    is that of a call already made. *)
Definition wf_world (w : world) : Prop :=
  Forall (fun p => p.1 < length (api_calls w)) (pending w).

(** What a call of the handler with data hands to the application:
    the call of the callback, if it is a function, and then the
    snapshot on the stream. *)
Definition handed_over (cb : registration) (snap : snapshot) : list delivery :=
  match original cb with
  | CbFn f => [Called f snap; Published (subscr cb) snap]
  | _ => [Published (subscr cb) snap]
  end.

(** The reference [db.ref(path)] makes in world [w]. *)
Definition ref_made (w : world) (p : string) : DataReference :=
  Ref (length (callbacks w)) (trim_slashes p) (key_of (trim_slashes p)).


(** The children the replay finds in a value: its own keys, when it
    is an object. *)
Definition children (val : value) : list string :=
  if negb (String.eqb (typeof val) "object") then []
  else match val with
       | VNull => []
       | _ => own_keys val
       end.

Section Events.
Variable types_deserialize : string -> value -> value.

Lemma forEach_stop_delivered (cbs : list registration) (w : world) :
  delivered (forEach cbs (fun cb => stop (subscr cb)) w).1 = delivered w /\
  (forEach cbs (fun cb => stop (subscr cb)) w).2 = Ok tt.
Proof.
  revert w. induction cbs as [|cb cbs IH]; intros w; [done|].
  simpl. unfold bind.
  exact (IH (with_streams (fun l => <[subscr cb := []]> l) w)).
Qed.

(** [off] hands nothing to the application, and returns. *)
Lemma off_delivered (this : DataReference) (event : option string) (callback : offarg)
    (w : world) :
  delivered (off this event callback w).1 = delivered w /\
  (off this event callback w).2 = Ok tt.
Proof.
  unfold off, bind, callbacks_of, gets. simpl.
  destruct (truthy_off callback).
  - by destruct (List.find _ _).
  - unfold modify. simpl.
    destruct (forEach_stop_delivered (default [] (callbacks w !! ref_id this))
                (with_callbacks (alter (fun _ => []) (ref_id this)) w)) as [Hd Hr].
    destruct (forEach _ _ _) as [w' [[]|e]]; simpl in *; [done|done].
Qed.

Lemma invoke_delivered (f : fn) (snap : snapshot) (w : world) :
  delivered (invoke f snap w).1 = delivered w ++ [Called f snap] /\
  (invoke f snap w).2 = Ok tt.
Proof.
  unfold invoke, bind, modify. simpl. destruct f as [id|this event p]; [done|].
  destruct (off_delivered this (Some event) (OffSnapshot snap)
              (with_delivered (fun l => l ++ [Called (OnceFn this event p) snap]) w))
    as [Hd Hr].
  destruct (off _ _ _ _) as [w' [[]|e]]; simpl in *; [|done].
  unfold resolve. simpl. by destruct (existsb _ _).
Qed.

(** C8: when the handler of a subscription is called with an error,
    the error is logged and nothing else happens: the callbacks of the
    reference, the calls made into the backend (no unsubscribe), the
    streams and what was handed to the application are as before.  A
    later call with data, as any call with data, still hands the
    snapshot to the callback and to the stream. *)
Theorem ours_error_is_dropped (cb : registration) (err : value) (p : string)
    (newValue oldValue : value) (w : world) :
  truthy err = true ->
  let w1 := (ours types_deserialize cb err p newValue oldValue w).1 in
  w1 = with_debug_errors
         (fun l => l ++ ["Error getting data for event " +:+ reg_event cb +:+ " on path " +:+ p])
       w /\
  callbacks w1 = callbacks w /\ api_calls w1 = api_calls w /\
  streams w1 = streams w /\ delivered w1 = delivered w /\
  forall err' p' newValue' oldValue',
    truthy err' = false ->
    delivered (ours types_deserialize cb err' p' newValue' oldValue' w1).1
    = delivered w1 ++
      handed_over cb
        (Snapshot (ref_made w1 p')
           (types_deserialize p'
              (if String.eqb (reg_event cb) "child_removed" then oldValue' else newValue'))).
Proof.
  intros Herr. unfold ours at 1. rewrite Herr. simpl. split_and!; try done.
  intros err' p' newValue' oldValue' Herr'.
  set (w1 := with_debug_errors _ w). unfold ours. rewrite Herr'.
  unfold bind at 1. simpl. unfold handed_over, invoke_callback, ref_made.
  set (snap := Snapshot _ _). set (w2 := with_callbacks _ w1).
  change (delivered w1) with (delivered w2).
  destruct (original cb) as [| |f] eqn:Horig; simpl.
  - unfold bind, publish, modify, gets. simpl.
    by destruct (streams w !! subscr cb) as [[|? ?]|].
  - unfold bind, publish, modify, gets. simpl.
    by destruct (streams w !! subscr cb) as [[|? ?]|].
  - destruct (invoke_delivered f snap w2) as [Hd Hr].
    unfold bind at 1. destruct (invoke f snap w2) as [w3 [[]|e]]; simpl in *; [|done].
    unfold bind, publish, modify, gets. simpl. rewrite andb_false_r. simpl.
    rewrite Hd. by rewrite <- app_assoc.
Qed.

(** *** The replay of [on] *)

Lemma find_pending_fresh (l : list (nat * list frame)) (k : nat) (frames : list frame) :
  Forall (fun p => p.1 < k) l ->
  List.find (fun p => Nat.eqb p.1 k) (l ++ [(k, frames)]) = Some (k, frames).
Proof.
  induction 1 as [|p l Hp _ IH]; simpl; [by rewrite Nat.eqb_refl|].
  destruct (Nat.eqb_spec p.1 k); [lia|done].
Qed.

Lemma filter_pending_fresh (l : list (nat * list frame)) (k : nat) (frames : list frame) :
  Forall (fun p => p.1 < k) l ->
  List.filter (fun p => negb (Nat.eqb p.1 k)) (l ++ [(k, frames)]) = l.
Proof.
  induction 1 as [|p l Hp _ IH]; simpl; [by rewrite Nat.eqb_refl|].
  destruct (Nat.eqb_spec p.1 k); [lia|]. simpl. by rewrite IH.
Qed.

Lemma and_then_pending_fresh (l : list (nat * list frame)) (k : nat) (frames : list frame)
    (fr : frame) :
  Forall (fun p => p.1 < k) l ->
  (fun p : nat * list frame => if Nat.eqb p.1 k then (p.1, p.2 ++ [fr]) else p)
    <$> (l ++ [(k, frames)])
  = l ++ [(k, frames ++ [fr])].
Proof.
  induction 1 as [|p l Hp _ IH]; csimpl; [by rewrite Nat.eqb_refl|].
  destruct (Nat.eqb_spec p.1 k); [lia|]. by rewrite IH.
Qed.

Lemma wf_world_pending (w : world) :
  wf_world w -> Forall (fun p => p.1 < S (length (api_calls w))) (pending w).
Proof. intros H. eapply Forall_impl; [exact H|]. intros p Hp. simpl in *. lia. Qed.

(** What a call of the handler adds comes after what was handed over
    before. *)
Lemma ours_appends (cb : registration) (err : value) (p : string) (newValue oldValue : value)
    (w : world) :
  exists more,
    delivered (ours types_deserialize cb err p newValue oldValue w).1 = delivered w ++ more.
Proof.
  unfold ours. destruct (truthy err).
  - exists []. simpl. by rewrite app_nil_r.
  - unfold bind at 1. simpl. set (snap := Snapshot _ _). set (w2 := with_callbacks _ w).
    change (delivered w) with (delivered w2).
    assert (exists more, delivered (invoke_callback (original cb) snap w2).1
                         = delivered w2 ++ more /\
                         (invoke_callback (original cb) snap w2).2 = Ok tt) as (m1 & Hd & Hr).
    { destruct (original cb) as [| |f]; [exists []; by rewrite app_nil_r..|].
      exists [Called f snap]. exact (invoke_delivered f snap w2). }
    unfold bind at 1. destruct (invoke_callback _ _ _) as [w3 [[]|e]]; simpl in *; [|done].
    exists (m1 ++ [Published (subscr cb) snap]).
    unfold bind, publish, modify, gets. simpl. rewrite app_assoc, <- Hd.
    by destruct (negb _ && negb _).
Qed.

(** The world [on] leaves for an event it replays, with the [then]
    step [replay] of that event. *)
Lemma on_replay_world (this : DataReference) (event : string) (f : nat)
    (replay : registration -> frame) (w : world) :
  wf_world w ->
  (if String.eqb event "value" then replay = ThenReplayValue
   else if String.eqb event "child_added" then replay = ThenReplayChildren
   else False) ->
  let cb := Registration (next_id w) (length (streams w)) (CbFn (UserFn f)) this event in
  on this event (CbFn (UserFn f)) w
  = (with_pending
       (fun l => l ++ [(S (length (api_calls w)), [ThenSnapshot this; replay cb])])
       (with_api_calls (fun l => l ++ [ApiSubscribe this event cb; ApiGet this VUndefined])
          (with_callbacks (alter (fun l => l ++ [cb]) (ref_id this))
             (with_next_id S (with_streams (fun l => l ++ [[]]) w)))),
     Ok (length (streams w))).
Proof.
  intros Hwf Hevent. apply wf_world_pending in Hwf. cbv zeta.
  unfold on, bind, EventStream_new, fresh_id, modify, api, get, then_, and_then, ret.
  simpl.
  assert (forall fr,
             (fun p : nat * list frame =>
                if Nat.eqb p.1 (length (api_calls w ++ [ApiSubscribe this event
                     (Registration (next_id w) (length (streams w)) (CbFn (UserFn f)) this event)]))
                then (p.1, p.2 ++ [fr]) else p)
               <$> (pending w ++ [(length (api_calls w ++ [ApiSubscribe this event
                     (Registration (next_id w) (length (streams w)) (CbFn (UserFn f)) this event)]),
                                   [ThenSnapshot this])])
             = pending w ++ [(S (length (api_calls w)), [ThenSnapshot this; fr])]) as Hp.
  { intros fr. rewrite length_app, Nat.add_1_r. by rewrite and_then_pending_fresh. }
  destruct (String.eqb event "value").
  - subst replay. simpl. unfold with_pending, with_api_calls. simpl.
    by rewrite Hp, <- app_assoc.
  - destruct (String.eqb event "child_added"); [|done].
    subst replay. simpl. unfold with_pending, with_api_calls. simpl.
    by rewrite Hp, <- app_assoc.
Qed.

(** C5: [on("value", f)] with a function [f] registers with the
    backend and only then issues its one read; when the backend
    answers the read with the node's stored value, exactly one
    snapshot of that value is handed over, to the stream and to [f],
    and no replay is left pending; what the handler hands over for
    events after that comes after it. *)
Theorem on_value_replay (this : DataReference) (f : nat) (raw : value) (w : world) :
  wf_world w ->
  let stream := length (streams w) in
  let cb := Registration (next_id w) stream (CbFn (UserFn f)) this "value" in
  let snap := Snapshot this (types_deserialize (path this) raw) in
  let w1 := (on this "value" (CbFn (UserFn f)) w).1 in
  let w2 := (respond types_deserialize (S (length (api_calls w))) (Ok raw) w1).1 in
  (on this "value" (CbFn (UserFn f)) w).2 = Ok stream /\
  api_calls w1 = api_calls w ++ [ApiSubscribe this "value" cb; ApiGet this VUndefined] /\
  delivered w1 = delivered w /\
  delivered w2 = delivered w ++ [Published stream snap; Called (UserFn f) snap] /\
  api_calls w2 = api_calls w1 /\
  pending w2 = pending w /\
  forall err p newValue oldValue, exists more,
    delivered (ours types_deserialize cb err p newValue oldValue w2).1
    = delivered w ++ [Published stream snap; Called (UserFn f) snap] ++ more.
Proof.
  intros Hwf. cbv zeta. rewrite (on_replay_world this "value" f (ThenReplayValue) w Hwf eq_refl).
  apply wf_world_pending in Hwf. cbn [fst snd].
  set (cb := Registration _ _ _ _ _). set (w1 := with_pending _ _).
  set (snap := Snapshot _ _).
  assert (respond types_deserialize (S (length (api_calls w))) (Ok raw) w1
          = (with_settled (fun l => l ++ [(S (length (api_calls w)), Ok (PValue VUndefined))])
               (with_delivered (fun l => l ++ [Published (length (streams w)) snap;
                                               Called (UserFn f) snap])
                  (with_pending (fun _ => pending w) w1)), Ok tt)) as Hrespond.
  { unfold respond. subst w1. simpl. rewrite find_pending_fresh by done. simpl.
    unfold with_settled, with_delivered, with_pending. simpl.
    rewrite filter_pending_fresh by done. by rewrite <- app_assoc. }
  rewrite Hrespond. cbn [fst snd].
  split_and!; try done.
  intros err p newValue oldValue.
  match goal with |- context [ours _ _ _ _ _ _ ?w2] =>
    destruct (ours_appends cb err p newValue oldValue w2) as [more Hmore] end.
  exists more. rewrite Hmore. simpl. by rewrite <- app_assoc.
Qed.

Lemma get_prop_returns (val : value) (key : string) :
  val <> VUndefined -> val <> VNull ->
  get_prop val key = Ok (default VUndefined (get_prop_ok val key)).
Proof. intros H1 H2. unfold get_prop_ok. by destruct val. Qed.




(** The callback of [once] calls [off] with the snapshot, and no
    registration has a snapshot as its original callback: [off] logs
    that, and removes and unsubscribes nothing. *)
Lemma off_snapshot_not_found (this : DataReference) (event : option string) (snap : snapshot)
    (w : world) :
  off this event (OffSnapshot snap) w
  = (with_debug_errors (fun l => l ++ ["Can't find specified callback to unsubscribe from"]) w,
     Ok tt).
Proof.
  unfold off, bind, callbacks_of, gets. simpl.
  assert (forall cbs,
             List.find (fun cb => same_callback (original cb) (OffSnapshot snap)) cbs = None)
    as ->; [|done].
  induction cbs as [|cb cbs IH]; [done|]. simpl. by destruct (original cb).
Qed.

(** [once("value", options)] is [get(options)]. *)
Lemma once_value_is_get (this : DataReference) (options : value) (w : world) :
  once this "value" options w
  = ((get this options w).1,
     match (get this options w).2 with
     | Ok k => Ok (BackendPromise k)
     | Throw e => Throw e
     end).
Proof. reflexivity. Qed.

(** [once] with any event other than "value", then the first event
    the backend hands to the registration [cb] it made: the callbacks
    of the reference still hold [cb], no call reaches the backend (no
    unsubscribe), and [off] has logged that it found no callback. *)
Lemma once_registration_stays (this : DataReference) (event p : string)
    (newValue oldValue : value) (w : world) :
  String.eqb event "value" = false ->
  let cb :=
    Registration (S (next_id w)) (length (streams w))
                 (CbFn (OnceFn this event (next_id w))) this event in
  let w1 := (once this event VUndefined w).1 in
  let w2 := (ours types_deserialize cb VNull p newValue oldValue w1).1 in
  callbacks w1 = alter (fun l => l ++ [cb]) (ref_id this) (callbacks w) /\
  callbacks w2 = callbacks w1 ++ [[]] /\
  api_calls w2 = api_calls w1 /\
  debug_errors w2
  = debug_errors w1 ++ ["Can't find specified callback to unsubscribe from"].
Proof.
  intros Hevent cb w1 w2.
  assert (callbacks w1 = alter (fun l => l ++ [cb]) (ref_id this) (callbacks w)) as Hc.
  { subst w1 cb. unfold once, on, truthy_cb. rewrite !Hevent.
    destruct (String.eqb event "child_added");
      unfold get, then_, and_then, bind, fresh_id, EventStream_new, modify, api, ret;
      simpl; auto. }
  split; [done|]. subst w2. unfold ours, is_function. simpl.
  unfold db_ref, DataReference_new, invoke_callback, invoke, publish, resolve.
  unfold bind, modify, gets, ret. cbn beta iota.
  rewrite off_snapshot_not_found. cbn beta iota.
  destruct (existsb _ _); cbn beta iota zeta; rewrite andb_false_r; simpl; auto.
Qed.

(** C7 on an example: [once("child_changed")] on the reference
    "chats", then the first "child_changed" event.  The promise
    resolves with the snapshot of the event, but [off] is called with
    the snapshot where the callback was meant: it logs that it cannot
    find the callback, the registration [cb] stays in the callbacks of
    the reference, and no unsubscribe reaches the backend. *)
Theorem once_keeps_its_registration (newValue oldValue : value) :
  let this := Ref 0 "chats" "chats" in
  let cb := Registration 1 0 (CbFn (OnceFn this "child_changed" 0)) this "child_changed" in
  let snap := Snapshot (Ref 1 "chats/c1" "c1") (types_deserialize "chats/c1" newValue) in
  let w1 := World [[cb]] [[]] [ApiSubscribe this "child_changed" cb] [] [] [] [] [] 2 in
  once this "child_changed" VUndefined (World [[]] [] [] [] [] [] [] [] 0)
  = (w1, Ok (OncePromise 0)) /\
  ours types_deserialize cb VNull "chats/c1" newValue oldValue w1
  = (World [[cb]; []] [[]] [ApiSubscribe this "child_changed" cb] [] []
           ["Can't find specified callback to unsubscribe from"]
           [Called (OnceFn this "child_changed" 0) snap; Published 0 snap]
           [(0, snap)] 2,
     Ok tt).
Proof. split; reflexivity. Qed.

End Events.

(** *** [update] with something that is not a plain object *)

Section UpdateAsSet.
Variable types_serialize : string -> value -> value.
Variable types_deserialize : string -> value -> value.

(** What [set] does, case by case. *)
Lemma set_result (this : DataReference) (v : value) (onComplete : cbarg) (w : world) :
  set types_serialize this v onComplete w
  = match parent_path (path this) with
    | None =>
        (w, Throw (Error "Cannot set the root object. Use update, or set individual child properties"))
    | Some _ =>
        if String.eqb (typeof v) "undefined"
        then (with_callbacks (fun l => l ++ [[]]) w,
              Throw (TypeError "Cannot store value undefined"))
        else (with_pending (fun l => l ++ [(length (api_calls w), [ThenSet onComplete this])])
                (with_api_calls (fun l => l ++ [ApiSet this (types_serialize (path this) v)])
                   (with_callbacks (fun l => l ++ [[]]) w)),
              Ok (length (api_calls w)))
    end.
Proof.
  unfold set, parent, bind. destruct (parent_path (path this)); [|done]. simpl.
  by destruct (String.eqb (typeof v) "undefined").
Qed.

(** The part of C3 that holds: when the test of [update] sends it to
    [set] (the argument is not of type object, or is an array, a
    binary value or a [Date]), [update] throws what [set] throws, makes
    the same backend call, and its promise settles as that of [set]
    does, with the same call of [onComplete] and the same reference. *)
Lemma update_behaves_as_set (this : DataReference) (updates : value) (onComplete : cbarg)
    (w : world) :
  wf_world w ->
  negb (String.eqb (typeof updates) "object")
  || instanceof_Array updates || instanceof_ArrayBuffer updates || instanceof_Date updates
  = true ->
  (update types_serialize this updates onComplete w).2
  = (set types_serialize this updates onComplete w).2 /\
  api_calls (update types_serialize this updates onComplete w).1
  = api_calls (set types_serialize this updates onComplete w).1 /\
  forall k r,
    (set types_serialize this updates onComplete w).2 = Ok k ->
    respond types_deserialize k r (update types_serialize this updates onComplete w).1
    = respond types_deserialize k r (set types_serialize this updates onComplete w).1.
Proof.
  intros Hwf Htest. unfold update. rewrite Htest.
  unfold bind. rewrite !set_result.
  destruct (parent_path (path this)); [|done].
  destruct (String.eqb (typeof updates) "undefined"); [done|].
  unfold and_then, modify, ret. simpl.
  split_and!; try done. intros k r [= <-].
  unfold respond, with_pending, with_api_calls, with_callbacks. simpl.
  rewrite !and_then_pending_fresh by done. rewrite !find_pending_fresh by done.
  simpl. rewrite ?and_then_pending_fresh by done.
  rewrite !filter_pending_fresh by done.
  destruct r as [ack|e]; [|done]. simpl. unfold bind, complete, ret. simpl.
  by destruct onComplete.
Qed.

End UpdateAsSet.

(** C2 on the reference "users/ewout" and on the root. *)
Lemma set_remove_validation_example :
  (set (fun _ v => v) (Ref 0 "users/ewout" "ewout") VUndefined CbAbsent empty_world).2
    = Throw (TypeError "Cannot store value undefined") /\
  (set (fun _ v => v) (Ref 0 "" "") VNull CbAbsent empty_world).2
    = Throw (Error "Cannot set the root object. Use update, or set individual child properties") /\
  (remove (fun _ v => v) (Ref 0 "" "") empty_world).2
    = Throw (Error "Cannot remove the top node").
Proof.
  split.
  - apply (set_remove_validation (fun _ v => v) (Ref 0 "users/ewout" "ewout") CbAbsent
             empty_world). simpl. discriminate.
  - destruct (set_remove_validation (fun _ v => v) (Ref 0 "" "") CbAbsent empty_world)
      as [_ Hroot].
    destruct (Hroot eq_refl) as (Hset & Hremove & _). split; [apply Hset|exact Hremove].
Defined.

(** *** The replays on examples *)

(** The value [{ a: 1, b: 2 }]. *)
Definition ab_value : value :=
  VObject [("a", VNumber 1%float); ("b", VNumber 2%float)].

(** A world with one reference, "node", and nothing else. *)
Definition node_ref : DataReference := Ref 0 "node" "node".
Definition node_world : world := World [[]] [] [] [] [] [] [] [] 0.

(** C5 on a node that holds [{ a: 1, b: 2 }]. *)
Lemma on_value_replay_ab :
  delivered (respond (fun _ v => v) 1 (Ok ab_value)
               (on node_ref "value" (CbFn (UserFn 7)) node_world).1).1
  = [Published 0 (Snapshot node_ref ab_value); Called (UserFn 7) (Snapshot node_ref ab_value)].
Proof.
  exact (proj1 (proj2 (proj2 (proj2
    (on_value_replay (fun _ v => v) node_ref 7 ab_value node_world (Forall_nil_2 _)))))).
Defined.


(** C8 on an example: an error, then data, for a subscription with a
    callback. *)
Lemma ours_error_is_dropped_example :
  let cb := Registration 0 0 (CbFn (UserFn 7)) node_ref "value" in
  let w := World [[cb]] [[]] [ApiSubscribe node_ref "value" cb] [] [] [] [] [] 1 in
  let w1 := (ours (fun _ v => v) cb (VString "timeout") "node" VNull VNull w).1 in
  callbacks w1 = [[cb]] /\ api_calls w1 = [ApiSubscribe node_ref "value" cb] /\
  delivered (ours (fun _ v => v) cb VNull "node" ab_value VNull w1).1
  = [Called (UserFn 7) (Snapshot (Ref 1 "node" "node") ab_value);
     Published 0 (Snapshot (Ref 1 "node" "node") ab_value)].
Proof.
  cbv zeta.
  pose proof (ours_error_is_dropped (fun _ v => v)
                (Registration 0 0 (CbFn (UserFn 7)) node_ref "value")
                (VString "timeout") "node" VNull VNull
                (World [[Registration 0 0 (CbFn (UserFn 7)) node_ref "value"]] [[]]
                   [ApiSubscribe node_ref "value"
                      (Registration 0 0 (CbFn (UserFn 7)) node_ref "value")]
                   [] [] [] [] [] 1)
                eq_refl) as (_ & Hc & Ha & _ & _ & Hlater).
  split; [exact Hc|]. split; [exact Ha|].
  exact (Hlater VNull "node" ab_value VNull eq_refl).
Defined.

(** The replay of [once("child_added")]: with a child already there,
    the promise resolves with that child, before any event. *)
Example once_child_added_resolves_with_replay :
  once_resolved
    (respond (fun _ v => v) 1 (Ok ab_value)
       (once node_ref "child_added" VUndefined node_world).1).1
  = [(0, Snapshot (Ref 1 "node/a" "a") (VNumber 1%float))].
Proof. reflexivity. Qed.

(** A live event between the registration and the answer to the read
    is handed over, before the replayed snapshot. *)
Example live_event_before_replay :
  let cb := Registration 0 0 (CbFn (UserFn 7)) node_ref "value" in
  let w1 := (on node_ref "value" (CbFn (UserFn 7)) node_world).1 in
  let w2 := (ours (fun _ v => v) cb VNull "node" (VNumber 3%float) VNull w1).1 in
  delivered (respond (fun _ v => v) 1 (Ok ab_value) w2).1
  = [Called (UserFn 7) (Snapshot (Ref 1 "node" "node") (VNumber 3%float));
     Published 0 (Snapshot (Ref 1 "node" "node") (VNumber 3%float));
     Published 0 (Snapshot node_ref ab_value);
     Called (UserFn 7) (Snapshot node_ref ab_value)].
Proof. reflexivity. Qed.

End Reference.

(** * Queries ([DataReferenceQuery]) *)

Module Query.
Import JS.

(** A filter [{ key, op, compare }]. *)
Record filter : Type := Filter { f_key : string; f_op : string; f_compare : value }.

(** A sort criterion [{ key, ascending }]. *)
Record sort : Type := Sort { s_key : string; s_ascending : bool }.

(** A query builder: its reference and its private part. *)
Record DataReferenceQuery : Type := QueryOf {
  ref : Reference.DataReference;
  filters : list filter;
  skip : value;
  take : value;
  order : list sort
}.

(** The constructor, called by [query()]. *)
Definition DataReferenceQuery_new (r : Reference.DataReference) : DataReferenceQuery :=
  QueryOf r [] (VNumber 0%float) (VNumber 0%float) [].

(** [this[_private].filters.push(f)], and the builder returned. *)
Definition push_filter (q : DataReferenceQuery) (f : filter) : DataReferenceQuery :=
  QueryOf (ref q) (filters q ++ [f]) (skip q) (take q) (order q).

(** [compare.length] of an array *)
Definition array_length (compare : value) : nat :=
  match compare with
  | VArray items => length items
  | _ => 0
  end.

(** [where(key, op, compare)]: the builder with the filter added, or
    the string thrown.  It has no access to the backend. *)
Definition where_ (q : DataReferenceQuery) (key op : string) (compare : value)
  : result DataReferenceQuery :=
  if (String.eqb op "in" || String.eqb op "!in")
     && (negb (instanceof_Array compare) || Nat.eqb (array_length compare) 0)
  then Throw (Thrown (op ++ " filter for " ++ key
                         ++ " must supply an Array compare argument containing at least 1 value"))
  else if (String.eqb op "between" || String.eqb op "!between")
          && (negb (instanceof_Array compare) || negb (Nat.eqb (array_length compare) 2))
  then Throw (Thrown (op ++ " filter for " ++ key
                         ++ " must supply an Array compare argument containing 2 values"))
  else if (String.eqb op "matches" || String.eqb op "!matches")
          && negb (instanceof_RegExp compare)
  then Throw (Thrown (op ++ " filter for " ++ key ++ " must supply a RegExp compare argument"))
  else if String.eqb op "custom" && negb (String.eqb (typeof compare) "function")
  then Throw (Thrown (op ++ " filter for " ++ key ++ " must supply a Function compare argument"))
  else Ok (push_filter q (Filter key op compare)).

(** The rule of the specification for the compare value of an
    operator: [in] and [!in] require a non-empty candidate set,
    [between] and [!between] exactly two bounds, [matches] and
    [!matches] a pattern, [custom] a predicate. *)
Definition required (op : string) (compare : value) : Prop :=
  ((op = "in" \/ op = "!in") -> exists items, compare = VArray items /\ items <> []) /\
  ((op = "between" \/ op = "!between") -> exists a b, compare = VArray [a; b]) /\
  ((op = "matches" \/ op = "!matches") -> exists source, compare = VRegExp source) /\
  (op = "custom" -> exists id, compare = VFunction id).

Lemma nonempty_array_iff (compare : value) :
  negb (instanceof_Array compare) || Nat.eqb (array_length compare) 0 = false
  <-> exists items, compare = VArray items /\ items <> [].
Proof.
  split.
  - destruct compare as [| | | | | | | | | |items|]; simpl; try done.
    destruct items; [done|]. intros _. by eexists.
  - intros (items & -> & Hne). by destruct items.
Qed.

Lemma two_array_iff (compare : value) :
  negb (instanceof_Array compare) || negb (Nat.eqb (array_length compare) 2) = false
  <-> exists a b, compare = VArray [a; b].
Proof.
  split.
  - destruct compare as [| | | | | | | | | |items|]; simpl; try done.
    destruct items as [|a [|b [|c items]]]; try done. intros _. by eexists _, _.
  - by intros (a & b & ->).
Qed.

Lemma regexp_iff (compare : value) :
  negb (instanceof_RegExp compare) = false <-> exists source, compare = VRegExp source.
Proof.
  split.
  - destruct compare; simpl; try done. intros _. by eexists.
  - by intros (source & ->).
Qed.

Lemma function_iff (compare : value) :
  negb (String.eqb (typeof compare) "function") = false <-> exists id, compare = VFunction id.
Proof.
  split.
  - destruct compare; simpl; try done. intros _. by eexists.
  - by intros (id & ->).
Qed.

(** C4: [where] validates its arguments when it is called.  It throws
    exactly when the compare value is not what the operator requires
    ([in] and [!in]: a non-empty array; [between] and [!between]: an
    array of two; [matches] and [!matches]: a regular expression;
    [custom]: a function), and otherwise returns the builder, whose
    filters are now the filters it had followed by the new filter
    [{ key, op, compare }], and whose reference, skip, take and order
    are as they were.  [where] reaches no backend: it is a function
    of the builder and its arguments. *)
Theorem where_validates (q : DataReferenceQuery) (key op : string) (compare : value) :
  (required op compare <->
   exists q', where_ q key op compare = Ok q' /\
              filters q' = filters q ++ [Filter key op compare] /\
              ref q' = ref q /\ skip q' = skip q /\ take q' = take q /\ order q' = order q) /\
  (~ required op compare <-> exists msg, where_ q key op compare = Throw (Thrown msg)).
Proof.
  assert (required op compare \/
          (~ required op compare /\ exists msg, where_ q key op compare = Throw (Thrown msg)))
    as Hcases.
  { unfold required, where_.
    destruct (String.eqb_spec op "in") as [->|Hin]; simpl.
    { destruct (negb (instanceof_Array compare) || Nat.eqb (array_length compare) 0) eqn:Hc.
      - right. split; [|by eexists]. intros (H & _). apply not_false_iff_true in Hc.
        apply Hc, nonempty_array_iff, H. by left.
      - left. apply nonempty_array_iff in Hc. by split_and!; try (intros [|]); try done. }
    destruct (String.eqb_spec op "!in") as [->|Hnin]; simpl.
    { destruct (negb (instanceof_Array compare) || Nat.eqb (array_length compare) 0) eqn:Hc.
      - right. split; [|by eexists]. intros (H & _). apply not_false_iff_true in Hc.
        apply Hc, nonempty_array_iff, H. by right.
      - left. apply nonempty_array_iff in Hc. by split_and!; try (intros [|]); try done. }
    destruct (String.eqb_spec op "between") as [->|Hbt]; simpl.
    { destruct (negb (instanceof_Array compare) || negb (Nat.eqb (array_length compare) 2)) eqn:Hc.
      - right. split; [|by eexists]. intros (_ & H & _). apply not_false_iff_true in Hc.
        apply Hc, two_array_iff, H. by left.
      - left. apply two_array_iff in Hc. by split_and!; try (intros [|]); try done. }
    destruct (String.eqb_spec op "!between") as [->|Hnbt]; simpl.
    { destruct (negb (instanceof_Array compare) || negb (Nat.eqb (array_length compare) 2)) eqn:Hc.
      - right. split; [|by eexists]. intros (_ & H & _). apply not_false_iff_true in Hc.
        apply Hc, two_array_iff, H. by right.
      - left. apply two_array_iff in Hc. by split_and!; try (intros [|]); try done. }
    destruct (String.eqb_spec op "matches") as [->|Hm]; simpl.
    { destruct (negb (instanceof_RegExp compare)) eqn:Hc.
      - right. split; [|by eexists]. intros (_ & _ & H & _). apply not_false_iff_true in Hc.
        apply Hc, regexp_iff, H. by left.
      - left. apply regexp_iff in Hc. by split_and!; try (intros [|]); try done. }
    destruct (String.eqb_spec op "!matches") as [->|Hnm]; simpl.
    { destruct (negb (instanceof_RegExp compare)) eqn:Hc.
      - right. split; [|by eexists]. intros (_ & _ & H & _). apply not_false_iff_true in Hc.
        apply Hc, regexp_iff, H. by right.
      - left. apply regexp_iff in Hc. by split_and!; try (intros [|]); try done. }
    destruct (String.eqb_spec op "custom") as [->|Hcu]; simpl.
    { destruct (negb (String.eqb (typeof compare) "function")) eqn:Hc.
      - right. split; [|by eexists]. intros (_ & _ & _ & H). apply not_false_iff_true in Hc.
        by apply Hc, function_iff, H.
      - left. apply function_iff in Hc. by split_and!; try (intros [|]); try done. }
    left. by split_and!; try (intros [|]); try done. }
  assert (required op compare ->
          where_ q key op compare = Ok (push_filter q (Filter key op compare))) as Hok.
  { intros (Hin & Hbt & Hm & Hcu). unfold where_.
    destruct (String.eqb_spec op "in") as [->|?]; simpl.
    { destruct Hin as (items & -> & Hne); [by left|]. by destruct items. }
    destruct (String.eqb_spec op "!in") as [->|?]; simpl.
    { destruct Hin as (items & -> & Hne); [by right|]. by destruct items. }
    destruct (String.eqb_spec op "between") as [->|?]; simpl.
    { by destruct Hbt as (a & b & ->); [by left|]. }
    destruct (String.eqb_spec op "!between") as [->|?]; simpl.
    { by destruct Hbt as (a & b & ->); [by right|]. }
    destruct (String.eqb_spec op "matches") as [->|?]; simpl.
    { by destruct Hm as (s & ->); [by left|]. }
    destruct (String.eqb_spec op "!matches") as [->|?]; simpl.
    { by destruct Hm as (s & ->); [by right|]. }
    destruct (String.eqb_spec op "custom") as [->|?]; simpl; [|done].
    by destruct Hcu as (id & ->). }
  split; split.
  - intros Hr. exists (push_filter q (Filter key op compare)). by split; [apply Hok|].
  - intros (q' & Hw & _). destruct Hcases as [?|[_ [msg Hmsg]]]; [done|]. by rewrite Hw in Hmsg.
  - intros Hn. by destruct Hcases as [?|[_ ?]].
  - intros [msg Hmsg] Hr. by rewrite (Hok Hr) in Hmsg.
Qed.

(** The three calls the specification names. *)
Example where_in_empty (q : DataReferenceQuery) :
  where_ q "x" "in" (VArray [])
  = Throw (Thrown "in filter for x must supply an Array compare argument containing at least 1 value").
Proof. reflexivity. Qed.

Example where_between_one (q : DataReferenceQuery) :
  where_ q "x" "between" (VArray [VNumber 1%float])
  = Throw (Thrown "between filter for x must supply an Array compare argument containing 2 values").
Proof. reflexivity. Qed.

Example where_matches_string (q : DataReferenceQuery) :
  where_ q "x" "matches" (VString "a")
  = Throw (Thrown "matches filter for x must supply a RegExp compare argument").
Proof. reflexivity. Qed.

Example where_equal (r : Reference.DataReference) :
  where_ (DataReferenceQuery_new r) "x" "==" (VNumber 1%float)
  = Ok (QueryOf r [Filter "x" "==" (VNumber 1%float)] (VNumber 0%float) (VNumber 0%float) []).
Proof. reflexivity. Qed.

End Query.

(** * More on the transport codec ([src/transport.js])

    What [serialize] and [deserialize] do beyond the round trip: on
    values without anything to encode, on an invalid [Date], on their
    own output, and on paths written with brackets or leading to
    nothing. *)

Module Codec.
Import JS Transport.

(** The value is or holds an Invalid Date. *)
Fixpoint invalid_date (v : value) : bool :=
  match v with
  | VDate None => true
  | VArray items => existsb invalid_date items
  | VObject props => existsb (fun kv => invalid_date kv.2) props
  | _ => false
  end.

(** The three type tags [serialize] writes. *)
Definition type_tag (t : string) : Prop :=
  t = "date" \/ t = "binary" \/ t = "reference".

(** The [map] of the envelope of a value that has nothing to encode. *)
Definition empty_map (v : value) : envelope_map :=
  if single_value v then MapUndefined else MapObject [].

(** The order in which [Object.keys] lists two names: an array index
    before a larger one and before every other name. *)
Definition key_before (k1 k2 : string) : Prop :=
  match array_index k1, array_index k2 with
  | Some i, Some j => i < j
  | Some _, None => True
  | None, Some _ => False
  | None, None => True
  end.

(** The entry is under a name that is no array index. *)
Definition named (e : string * string) : bool :=
  match array_index e.1 with
  | Some _ => false
  | None => true
  end.



Section Plain.
Context {B : Builtins}.

(** [process] leaves a value without a [Date], a binary value or a
    path link, and the mappings, as they are. *)
Lemma process_entry_plain (v : value) :
  rich v = false -> forall m path, process_entry v m path = Ok (v, m).
Proof.
  induction v as [| | | | | | | | | |items IH|props IH] using value_rect'; try done; simpl.
  - intros Hr m path.
    assert (forall i, each_item process_entry path items i m = Ok (items, m)) as ->; [|done].
    induction IH as [|x l Hx _ IHl]; intros i; [done|]. simpl in *.
    apply orb_false_iff in Hr as [Hr Hl]. rewrite (Hx Hr). simpl.
    by rewrite (IHl Hl).
  - intros Hr m path.
    assert (each_prop process_entry path props m = Ok (props, m)) as ->; [|done].
    induction IH as [|[k x] l Hx _ IHl]; [done|]. simpl in *.
    apply orb_false_iff in Hr as [Hr Hl]. rewrite (Hx Hr). simpl.
    by rewrite (IHl Hl).
Qed.

Lemma serialize_plain_eq (v : value) :
  rich v = false -> serialize v = Ok (Envelope (empty_map v) v).
Proof.
  intros Hr. unfold serialize, empty_map.
  destruct (single_value v) eqn:Hsingle.
  - unfold serialize_composite, cloneObject, process. simpl.
    by rewrite (process_entry_plain v Hr).
  - unfold serialize_composite, cloneObject.
    destruct v; try done; simpl in *.
    + pose proof (process_entry_plain (VArray items) Hr [] "") as H. simpl in H.
      destruct (each_item _ _ _ _ _) as [r|]; [|done]. simpl in *. by injection H as -> ->.
    + pose proof (process_entry_plain (VObject props) Hr [] "") as H. simpl in H.
      destruct (each_prop _ _ _ _) as [r|]; [|done]. simpl in *. by injection H as -> ->.
Qed.

End Plain.

Section Encoding.
Context {B : Builtins}.

(** [process] throws only for an Invalid Date, and the [RangeError]
    of [toISOString]. *)
Lemma process_entry_throws (v : value) :
  forall m path,
    match process_entry v m path with
    | Ok _ => invalid_date v = false
    | Throw e => e = RangeError "Invalid time value" /\ invalid_date v = true
    end.
Proof.
  induction v as [| | | | |t| | | | |items IH|props IH] using value_rect'; try done; simpl.
  - intros m path. by destruct t.
  - intros m path.
    assert (forall i m,
               match each_item process_entry path items i m with
               | Ok _ => existsb invalid_date items = false
               | Throw e => e = RangeError "Invalid time value" /\ existsb invalid_date items = true
               end) as H.
    { induction IH as [|x l Hx _ IHl]; intros i m'; [done|]. simpl.
      specialize (Hx m' (child_path path (index_key i))).
      destruct (process_entry x m' _) as [r|e]; simpl.
      - rewrite Hx. simpl. specialize (IHl (S i) r.2).
        by destruct (each_item process_entry path l (S i) r.2).
      - destruct Hx as [-> ->]. done. }
    specialize (H 0 m). by destruct (each_item _ _ _ _ _).
  - intros m path.
    assert (forall m,
               match each_prop process_entry path props m with
               | Ok _ => existsb (fun kv => invalid_date kv.2) props = false
               | Throw e => e = RangeError "Invalid time value" /\
                            existsb (fun kv => invalid_date kv.2) props = true
               end) as H.
    { induction IH as [|[k x] l Hx _ IHl]; intros m'; [done|]. simpl in *.
      specialize (Hx m' (child_path path k)).
      destruct (process_entry x m' _) as [r|e]; simpl.
      - rewrite Hx. simpl. specialize (IHl r.2).
        by destruct (each_prop process_entry path l r.2).
      - destruct Hx as [-> ->]. done. }
    specialize (H m). by destruct (each_prop _ _ _ _).
Qed.

Lemma serialize_throws (v : value) :
  match serialize v with
  | Ok _ => invalid_date v = false
  | Throw e => e = RangeError "Invalid time value" /\ invalid_date v = true
  end.
Proof.
  unfold serialize. destruct (single_value v) eqn:Hsingle.
  - unfold serialize_composite, cloneObject, process. simpl.
    pose proof (process_entry_throws v [] (child_path "" "value")) as H.
    by destruct (process_entry v [] (child_path "" "value")) as [r|e].
  - unfold serialize_composite, cloneObject.
    pose proof (process_entry_throws v [] "") as H.
    destruct v; try done; simpl in *.
    + by destruct (each_item _ _ _ _ _).
    + by destruct (each_prop _ _ _ _).
Qed.

(** X2: [serialize] throws exactly when the value is or holds an
    Invalid Date, and then the [RangeError] of [toISOString]; for
    every other value it returns an envelope. *)
Theorem serialize_throws_iff_invalid_date (v : value) :
  (invalid_date v = true <-> serialize v = Throw (RangeError "Invalid time value")) /\
  (invalid_date v = false <-> exists e, serialize v = Ok e).
Proof.
  pose proof (serialize_throws v) as H.
  destruct (serialize v) as [e|err].
  - rewrite H. split; split; try done. by eexists.
  - destruct H as [-> ->]. split; split; try done. by intros [e ?].
Qed.

Lemma elem_of_assoc_set {A} (k : string) (x : A) (l : list (string * A)) (kx : string * A) :
  kx ∈ assoc_set k x l -> kx = (k, x) \/ kx ∈ l.
Proof.
  induction l as [|[k' y] l IH]; simpl.
  - intros ->%list_elem_of_singleton. by left.
  - destruct (String.eqb_spec k' k) as [->|Hne].
    + intros [->|H]%elem_of_cons; [by left|]. right. by right.
    + intros [->|H]%elem_of_cons; [right; by left|].
      destruct (IH H) as [->|?]; [by left|]. right. by right.
Qed.

Lemma elem_of_map_set (k x : string) (l : list (string * string)) (kx : string * string) :
  kx ∈ map_set k x l -> kx = (k, x) \/ kx ∈ l.
Proof.
  unfold map_set, own_set. destruct (String.eqb k "__proto__"); [by right|].
  destruct (assoc k l); [apply elem_of_assoc_set|].
  destruct (array_index k); [rewrite insert_index_perm|];
    intros [?|Hkx%list_elem_of_singleton]%elem_of_app; auto.
Qed.

(** What [process] returns has no [Date], binary value or path link
    left in it, and the mappings it adds are type tags. *)
Lemma process_entry_encoded (v : value) :
  forall m path r,
    process_entry v m path = Ok r ->
    rich r.1 = false /\ forall kt, kt ∈ r.2 -> kt ∈ m \/ type_tag kt.2.
Proof.
  unfold type_tag.
  induction v as [| | | | |t| | | | |items IH|props IH] using value_rect';
    try (intros m path r [= <-]; simpl; by auto).
  - intros m path r. simpl. destruct t; [|done]. intros [= <-]. simpl.
    split; [done|]. intros kt [->|?]%elem_of_map_set; auto.
  - intros m path r [= <-]. simpl.
    split; [done|]. intros kt [->|?]%elem_of_map_set; auto.
  - intros m path r [= <-]. simpl.
    split; [done|]. intros kt [->|?]%elem_of_map_set; auto.
  - intros m path r. simpl.
    assert (forall i m r,
               each_item process_entry path items i m = Ok r ->
               existsb rich r.1 = false /\
               forall kt, kt ∈ r.2 -> kt ∈ m \/ (kt.2 = "date" \/ kt.2 = "binary" \/ kt.2 = "reference"))
      as H.
    { clear m r. induction IH as [|x l Hx _ IHl]; intros i m r.
      - intros [= <-]. by auto.
      - simpl. destruct (process_entry x m _) as [r1|] eqn:H1; [|done]. simpl.
        destruct (each_item process_entry path l (S i) r1.2) as [r2|] eqn:H2; [|done].
        simpl. intros [= <-]. simpl.
        destruct (Hx _ _ _ H1) as [Hr1 Hm1]. destruct (IHl _ _ _ H2) as [Hr2 Hm2].
        rewrite Hr1, Hr2. split; [done|]. intros kt Hkt.
        destruct (Hm2 kt Hkt) as [?|?]; auto. }
    destruct (each_item process_entry path items 0 m) as [r'|] eqn:Hr'; [|done].
    simpl. intros [= <-]. simpl. by apply (H 0 m).
  - intros m path r. simpl.
    assert (forall m r,
               each_prop process_entry path props m = Ok r ->
               existsb (fun kv => rich kv.2) r.1 = false /\
               forall kt, kt ∈ r.2 -> kt ∈ m \/ (kt.2 = "date" \/ kt.2 = "binary" \/ kt.2 = "reference"))
      as H.
    { clear m r. induction IH as [|[k x] l Hx _ IHl]; intros m r.
      - intros [= <-]. by auto.
      - simpl in *. destruct (process_entry x m _) as [r1|] eqn:H1; [|done]. simpl.
        destruct (each_prop process_entry path l r1.2) as [r2|] eqn:H2; [|done].
        simpl. intros [= <-]. simpl.
        destruct (Hx _ _ _ H1) as [Hr1 Hm1]. destruct (IHl _ _ H2) as [Hr2 Hm2].
        rewrite Hr1, Hr2. split; [done|]. intros kt Hkt.
        destruct (Hm2 kt Hkt) as [?|?]; auto. }
    destruct (each_prop process_entry path props m) as [r'|] eqn:Hr'; [|done].
    simpl. intros [= <-]. simpl. by apply (H m).
Qed.

(** The type tags in the [map] of an envelope. *)
Definition map_tags (m : envelope_map) : list string :=
  match m with
  | MapTag t => [t]
  | MapObject entries => snd <$> entries
  | _ => []
  end.

Lemma assoc_elem_of {A} (k : string) (x : A) (l : list (string * A)) :
  assoc k l = Some x -> (k, x) ∈ l.
Proof.
  induction l as [|[k' y] l IH]; [done|]. simpl.
  destruct (String.eqb_spec k' k) as [->|_]; [intros [= ->]; by left|].
  intros H. right. by apply IH.
Qed.

Lemma serialize_encoded (v : value) (e : envelope) :
  serialize v = Ok e ->
  rich (env_val e) = false /\ Forall type_tag (map_tags (env_map e)).
Proof.
  unfold serialize. destruct (single_value v) eqn:Hsingle.
  - unfold serialize_composite, cloneObject, process. simpl.
    destruct (process_entry v [] (child_path "" "value")) as [r|] eqn:Hr; [|done].
    simpl. intros [= <-]. simpl.
    destruct (process_entry_encoded _ _ _ _ Hr) as [Hrich Htags]. split; [done|].
    destruct (assoc "value" r.2) as [t|] eqn:Ht; simpl; [|done].
    constructor; [|done]. apply assoc_elem_of in Ht.
    destruct (Htags _ Ht) as [Hin|?]; [|done]. by apply elem_of_nil in Hin.
  - unfold serialize_composite, cloneObject.
    destruct (process v [] "") as [r|] eqn:Hr; [|done]. simpl. intros [= <-]. simpl.
    assert (process_entry v [] "" = Ok r) as Hr'.
    { destruct v; try done; simpl in *; by injection Hr as <-. }
    destruct (process_entry_encoded _ _ _ _ Hr') as [Hrich Htags]. split; [done|].
    apply Forall_forall. intros t [kt [-> Hkt]]%list_elem_of_fmap.
    destruct (Htags _ Hkt) as [Hin|?]; [|done]. by apply elem_of_nil in Hin.
Qed.

End Encoding.

Section Paths.
Context {B : Builtins}.


Lemma split_slash_segment (p k : string) :
  split_slash k = [k] -> split_slash (p +:+ "/" +:+ k) = split_slash p ++ [k].
Proof.
  intros Hk. induction p as [|c p IH]; simpl.
  - change ("" +:+ k) with k. by rewrite Hk.
  - destruct (Ascii.eqb c "/"); [by rewrite IH|].
    rewrite IH. pose proof (split_slash_nonempty p).
    by destruct (split_slash p).
Qed.

Lemma length_append (a b : string) :
  String.length (a +:+ b) = String.length a + String.length b.
Proof. induction a as [|c a IH]; simpl; [done|]. by rewrite IH. Qed.

Lemma substring_prefix (a b : string) :
  String.substring 0 (String.length a) (a +:+ b) = a.
Proof.
  induction a as [|c a IH]; simpl; [by destruct b|]. by rewrite IH.
Qed.

(** The keys of a path that ends in a bracketed index, and of the
    path with the index as a segment of its own. *)
Lemma path_keys_bracket (p d : string) :
  plain d = true ->
  path_keys (p +:+ "[" +:+ d +:+ "]") = path_keys p ++ [Number_toKey (parseInt d)].
Proof.
  intros Hd. unfold path_keys.
  rewrite replace_brackets_app.
  change (replace_brackets ("[" +:+ d +:+ "]"))
    with ("/" +:+ String "["%char (replace_brackets (d +:+ "]"))).
  rewrite (replace_brackets_plain (d +:+ "]")) by (by rewrite plain_app, Hd).
  rewrite split_slash_segment.
  - rewrite fmap_app. f_equal. csimpl. do 3 f_equal.
    rewrite length_append. simpl.
    replace (String.length d + 1 - 1) with (String.length d) by lia.
    apply substring_prefix.
  - simpl. rewrite split_slash_plain; [done|]. by rewrite plain_app, Hd.
Qed.

Lemma path_keys_segment (p d : string) :
  plain d = true -> path_keys (p +:+ "/" +:+ d) = path_keys p ++ [d].
Proof.
  intros Hd. unfold path_keys.
  rewrite !replace_brackets_app. simpl. rewrite (replace_brackets_plain d) by done.
  rewrite split_slash_snoc by done. rewrite fmap_app. csimpl.
  by rewrite plain_not_bracket.
Qed.



(** [restore] reads a map entry through the keys of its path only. *)
Lemma restore_all_same_keys (l1 l2 : list (string * string)) (p p' t : string) (v : value) :
  path_keys p = path_keys p' ->
  restore_all v (l1 ++ (p, t) :: l2) = restore_all v (l1 ++ (p', t) :: l2).
Proof.
  intros Hp. revert v. induction l1 as [|e l1 IH]; intros v; simpl.
  - unfold restore. simpl. by rewrite Hp.
  - destruct (restore v e) as [v'|]; simpl; [apply IH|done].
Qed.

End Paths.

Section MapOrder.

Lemma array_index_Some (k : string) (i : nat) : array_index k = Some i -> k = index_key i.
Proof.
  unfold array_index. destruct (key_index k) as [j|] eqn:Hk; [|done].
  destruct (Z.of_nat j <? 4294967295)%Z; [|done]. intros [= <-]. by apply key_index_Some.
Qed.

Lemma StronglySorted_snoc {A} (R : A -> A -> Prop) (l : list A) (x : A) :
  StronglySorted R l -> Forall (fun a => R a x) l -> StronglySorted R (l ++ [x]).
Proof.
  induction 1 as [|a l Hl IH Ha]; intros Hx; simpl.
  - repeat constructor.
  - apply Forall_cons in Hx as [Hax Hx]. constructor; [by apply IH|].
    apply Forall_app. split; [done|]. by repeat constructor.
Qed.

Lemma filter_named_index (i : nat) (k x : string) (l : list (string * string)) :
  array_index k = Some i -> filter named ((k, x) :: l) = filter named l.
Proof. intros Hk. apply filter_cons_False. unfold named. simpl. rewrite Hk. by intros []. Qed.

Lemma insert_index_order (i : nat) (k x : string) (l : list (string * string)) :
  array_index k = Some i -> k ∉ fst <$> l ->
  StronglySorted key_before (fst <$> l) ->
  StronglySorted key_before (fst <$> insert_index i k x l) /\
  filter named (insert_index i k x l) = filter named l.
Proof.
  intros Hk. induction l as [|[k' y] l IH]; intros Hfresh Hsorted.
  - simpl. split; [repeat constructor|]. by rewrite (filter_named_index i).
  - csimpl in Hfresh. apply not_elem_of_cons in Hfresh as [Hne Hfresh].
    csimpl in Hsorted. apply StronglySorted_inv in Hsorted as [Hsorted Hhead].
    cbn [insert_index].
    assert (filter named ((k, x) :: (k', y) :: l) = filter named ((k', y) :: l)) as Hfilter.
    { by rewrite (filter_named_index i k). }
    destruct (array_index k') as [j|] eqn:Hk'; [destruct (Nat.ltb_spec i j) as [Hlt|Hge]|].
    + split; [|done]. csimpl. constructor; [by constructor|].
      constructor.
      * unfold key_before. by rewrite Hk, Hk'.
      * eapply Forall_impl; [exact Hhead|]. intros k2. unfold key_before.
        rewrite Hk, Hk'. destruct (array_index k2); [lia|done].
    + assert (j < i) as Hlt.
      { assert (i <> j); [|lia]. intros ->. apply Hne.
        apply array_index_Some in Hk, Hk'. congruence. }
      destruct (IH Hfresh Hsorted) as [IH1 IH2]. split.
      * csimpl. constructor; [done|].
        rewrite insert_index_perm, fmap_app. apply Forall_app. split; [done|].
        csimpl. repeat constructor. unfold key_before. by rewrite Hk, Hk'.
      * rewrite !(filter_cons _ (k', y)). destruct (decide (named (k', y))); by rewrite IH2.
    + split; [|done]. csimpl. constructor; [by constructor|].
      constructor.
      * unfold key_before. by rewrite Hk, Hk'.
      * eapply Forall_impl; [exact Hhead|]. intros k2. unfold key_before.
        rewrite Hk, Hk'. by destruct (array_index k2).
Qed.

Lemma own_set_order (k x : string) (l : list (string * string)) :
  k ∉ fst <$> l -> StronglySorted key_before (fst <$> l) ->
  StronglySorted key_before (fst <$> own_set k x l) /\
  filter named (own_set k x l) = filter named (l ++ [(k, x)]).
Proof.
  intros Hfresh Hsorted. unfold own_set.
  apply assoc_None in Hfresh as Hassoc. rewrite Hassoc.
  destruct (array_index k) as [i|] eqn:Hk.
  - destruct (insert_index_order i k x l Hk Hfresh Hsorted) as [H1 H2].
    split; [done|]. by rewrite H2, filter_app, (filter_named_index i k), app_nil_r.
  - split; [|done]. rewrite fmap_app. apply StronglySorted_snoc; [done|].
    apply Forall_forall. intros k2 _. unfold key_before. simpl. rewrite Hk.
    by destruct (array_index k2).
Qed.

Lemma record_order (g : list string * string -> string) (m : list (string * string))
    (l : list (list string * string)) :
  NoDup ((fst <$> m) ++ (g <$> l)) -> Forall (fun e => g e <> "__proto__") l ->
  StronglySorted key_before (fst <$> m) ->
  StronglySorted key_before (fst <$> foldl (fun m e => map_set (g e) e.2 m) m l) /\
  filter named (foldl (fun m e => map_set (g e) e.2 m) m l) =
  filter named (m ++ ((fun e => (g e, e.2)) <$> l)).
Proof.
  intros Hnd Hl. revert m Hnd. induction Hl as [|e l He _ IH]; intros m Hnd Hsorted; simpl.
  - by rewrite app_nil_r.
  - csimpl in Hnd. apply NoDup_app in Hnd as Hnd'. destruct Hnd' as (Hm & Hdisj & _).
    assert (g e ∉ fst <$> m) as Hfresh by (intros Hin; apply (Hdisj _ Hin); left).
    assert (map_set (g e) e.2 m = own_set (g e) e.2 m) as Hset.
    { unfold map_set. apply String.eqb_neq in He. by rewrite He. }
    destruct (own_set_order (g e) e.2 m Hfresh Hsorted) as [H1 H2].
    rewrite Hset. destruct (IH (own_set (g e) e.2 m)) as [IH1 IH2]; [|done|].
    + rewrite own_set_fresh, fmap_app, <- app_assoc by done. done.
    + split; [done|]. rewrite IH2, !filter_app, H2, filter_app.
      rewrite <- app_assoc. f_equal.
      symmetry. apply (filter_app _ [(g e, e.2)]).
Qed.

End MapOrder.

Section CodecTheorems.
Context {B : Builtins}.

(** X1: a value that holds no [Date], binary value or path link goes
    through [serialize] unchanged, whatever its keys: [val] is the
    value, [map] is empty (absent for a single value), and
    [deserialize] of that envelope returns the value. *)
Theorem serialize_plain_value (v : value) :
  rich v = false ->
  serialize v = Ok (Envelope (empty_map v) v) /\
  deserialize (Envelope (empty_map v) v) = Ok v.
Proof.
  intros Hr. split; [by apply serialize_plain_eq|].
  unfold deserialize, empty_map. by destruct (single_value v).
Qed.

(** X3: in the envelope [serialize] returns, [val] holds no [Date],
    binary value or path link any more, every tag in [map] is one of
    "date", "binary" and "reference", and [serialize] of that [val]
    returns it unchanged with an empty map. *)
Theorem serialize_output_is_encoded (v : value) (e : envelope) :
  serialize v = Ok e ->
  rich (env_val e) = false /\
  Forall type_tag (map_tags (env_map e)) /\
  serialize (env_val e) = Ok (Envelope (empty_map (env_val e)) (env_val e)).
Proof.
  intros He. destruct (serialize_encoded v e He) as [Hr Ht].
  split_and!; [done|done|by apply serialize_plain_eq].
Qed.

(** X4: for an addressable array or object of the supported kinds,
    [val] is the value with each [Date], binary value and path link
    replaced by its encoding, and the [map] has exactly one entry for
    each of them, under the keys from the root joined by the
    separator.  [Object.keys] lists the entries whose path is an
    array index first, in ascending order, and the others after them
    in the order [process] meets them. *)
Theorem serialize_map_lists_leaves (v : value) :
  supported v = true -> addressable v = true -> single_value v = false ->
  exists entries,
    serialize v = Ok (Envelope (MapObject entries) (strip v)) /\
    entries ≡ₚ entry_of <$> leaves v /\
    StronglySorted key_before (fst <$> entries) /\
    filter named entries = filter named (entry_of <$> leaves v).
Proof.
  intros Hs Ha Hsingle. unfold serialize. rewrite Hsingle.
  unfold serialize_composite, cloneObject.
  assert (exists arr props, v = node arr props /\
                            (arr = true -> props = indexed 0 (snd <$> props))) as Hnode.
  { destruct v; try done.
    - exists true, (indexed 0 items). split; [by rewrite node_indexed|].
      intros _. by rewrite indexed_snd.
    - by exists false, props. }
  destruct Hnode as (arr & props & Hv & Harr).
  assert (process v [] "" = process_entry v [] "") as -> by (subst v; by destruct arr).
  rewrite process_entry_spec by done. simpl.
  assert (forall e, e ∈ leaves v -> path_ok e.1) as Hleaves.
  { subst v. by apply leaves_path_ok. }
  exists (record_leaves "" [] (leaves v)). split; [done|].
  split; [by apply record_leaves_entries|].
  apply (record_order (fun e => jpath "" e.1) [] (leaves v)).
  - simpl. by apply leaves_paths_NoDup.
  - apply Forall_forall. intros e He. by apply jpath_not_proto, Hleaves.
  - constructor.
Qed.

(** X5: a map path that ends in a bracketed index, as in "list[1]",
    is read as the path with the index as a segment of its own,
    "list/1", when the number parsed from the index is written back
    as the same digits: [deserialize] returns the same for the two
    envelopes. *)
Theorem deserialize_bracket_index (p t : string) (i : nat)
    (before after : list (string * string)) (val : value) :
  Number_toKey (parseInt (index_key i)) = index_key i ->
  deserialize
    (Envelope (MapObject (before ++ (p +:+ "[" +:+ index_key i +:+ "]", t) :: after)) val)
  = deserialize
      (Envelope (MapObject (before ++ (p +:+ "/" +:+ index_key i, t) :: after)) val).
Proof.
  intros Hlaw. unfold deserialize. simpl. apply restore_all_same_keys.
  pose proof (plain_index_key i) as Hplain.
  by rewrite path_keys_bracket, path_keys_segment, Hlaw.
Qed.


End CodecTheorems.

(** A value with nothing to encode, under a key with the separator. *)
Definition plain_example : value :=
  VObject [("a/b", VString "x"); ("list", VArray [VNull; VNumber 1.5%float])].

(** X1 on [plain_example]. *)
Lemma serialize_plain_value_example :
  serialize plain_example = Ok (Envelope (MapObject []) plain_example) /\
  deserialize (Envelope (MapObject []) plain_example) = Ok plain_example.
Proof. exact (serialize_plain_value plain_example eq_refl). Defined.

(** X3 on an object with a timestamp. *)
Lemma serialize_output_is_encoded_example :
  let e := Envelope (MapObject [("when", "date")]) (VObject [("when", VString "0")]) in
  rich (env_val e) = false /\
  Forall type_tag (map_tags (env_map e)) /\
  serialize (env_val e) = Ok (Envelope (empty_map (env_val e)) (env_val e)).
Proof.
  exact (serialize_output_is_encoded (VObject [("when", VDate (Some 0%Z))]) _ eq_refl).
Defined.

(** An array with a timestamp below its first element and one as its
    second. *)
Definition index_example : value :=
  VArray [VObject [("x", VDate (Some 0%Z))]; VDate (Some 1%Z)].

(** X4 on [index_example], whose map is keyed "1", "0/x". *)
Lemma serialize_map_lists_leaves_example :
  exists entries,
    serialize index_example = Ok (Envelope (MapObject entries) (strip index_example)) /\
    entries ≡ₚ entry_of <$> leaves index_example /\
    StronglySorted key_before (fst <$> entries) /\
    filter named entries = filter named (entry_of <$> leaves index_example).
Proof. apply (serialize_map_lists_leaves index_example); vm_compute; reflexivity. Defined.

(** X5 on the path "list[1]". *)
Lemma deserialize_bracket_index_example :
  deserialize (Envelope (MapObject [("list[1]", "date")])
                        (VObject [("list", VArray [VNull; VString "5"])]))
  = deserialize (Envelope (MapObject [("list/1", "date")])
                          (VObject [("list", VArray [VNull; VString "5"])])).
Proof.
  apply (deserialize_bracket_index "list" "date" 1 [] []
           (VObject [("list", VArray [VNull; VString "5"])])).
  reflexivity.
Defined.


End Codec.

(** * More on references ([src/data-reference.js])

    ** Children *)

Module Children.
Import JS Reference.

(** The string holds no separator. *)
Fixpoint no_slash (s : string) : bool :=
  match s with
  | EmptyString => true
  | String c s' => negb (Ascii.eqb c "/"%char) && no_slash s'
  end.

Section ChildFacts.

Lemma split_slash_no_slash (k : string) :
  no_slash k = true -> Transport.split_slash k = [k].
Proof.
  induction k as [|c k IH]; simpl; [done|].
  intros [Hc Hk]%andb_true_iff. apply negb_true_iff in Hc. rewrite Hc. by rewrite IH.
Qed.

Lemma ends_with_slash_no_slash (k : string) : no_slash k = true -> ends_with_slash k = false.
Proof.
  induction k as [|c k IH]; simpl; [done|].
  intros [Hc Hk]%andb_true_iff. apply negb_true_iff in Hc.
  destruct k; [done|]. by apply IH.
Qed.

Lemma starts_with_slash_no_slash (k : string) : no_slash k = true -> starts_with_slash k = false.
Proof.
  destruct k as [|c k]; simpl; [done|].
  intros [Hc Hk]%andb_true_iff. by apply negb_true_iff in Hc.
Qed.

Lemma trim_slashes_no_slash (k : string) : no_slash k = true -> trim_slashes k = k.
Proof.
  intros Hk. apply trim_slashes_id. split.
  - by apply starts_with_slash_no_slash.
  - by apply ends_with_slash_no_slash.
Qed.

Lemma split_slash_last (q k : string) :
  no_slash k = true ->
  List.last (Transport.split_slash (q +:+ "/" +:+ k)) EmptyString = k.
Proof.
  intros Hk. rewrite Codec.split_slash_segment by (by apply split_slash_no_slash).
  apply List.last_last.
Qed.

(** The path of a child under a key without a separator: the key
    itself, or some prefix, a separator and the key. *)
Lemma child_path_shape (p k : string) :
  k <> EmptyString -> no_slash k = true ->
  trim_slashes (p +:+ "/" +:+ k) = k \/
  exists q, trim_slashes (p +:+ "/" +:+ k) = (q +:+ "/" +:+ k)%string.
Proof.
  intros Hne Hk. unfold trim_slashes.
  assert (forall q, strip_trailing_slash (q +:+ "/" +:+ k) = (q +:+ "/" +:+ k)%string) as Htrail.
  { intros q. apply strip_trailing_id. rewrite ends_with_slash_app by done.
    change ("/" +:+ k)%string with (String "/"%char k). simpl.
    destruct k; [done|]. by apply (ends_with_slash_no_slash (String a k)). }
  destruct p as [|c p]; simpl.
  - left. change ("" +:+ k) with k. apply strip_trailing_id. by apply ends_with_slash_no_slash.
  - right. destruct (Ascii.eqb c "/").
    + exists p. apply Htrail.
    + exists (String c p). apply (Htrail (String c p)).
Qed.

(** The path [child] computes for a key without a separator: its
    last segment is the key, it is not empty, and under the root it
    is the key. *)
Lemma child_path_key (p k : string) :
  k <> EmptyString -> no_slash k = true ->
  key_of (trim_slashes (p +:+ "/" +:+ trim_slashes k)) = k /\
  trim_slashes (p +:+ "/" +:+ trim_slashes k) <> EmptyString /\
  (p = EmptyString -> trim_slashes (p +:+ "/" +:+ trim_slashes k) = k).
Proof.
  intros Hne Hk.
  rewrite (trim_slashes_no_slash k Hk), key_of_last_segment.
  destruct (child_path_shape p k Hne Hk) as [Heq|[q Heq]]; rewrite Heq.
  - by split_and!; [by rewrite split_slash_no_slash|done|].
  - split_and!; [by apply split_slash_last|by destruct q|].
    intros Hroot. rewrite Hroot in Heq. rewrite <- Heq. unfold trim_slashes. simpl.
    change ("" +:+ k) with k. apply strip_trailing_id. by apply ends_with_slash_no_slash.
Qed.

Lemma canonical_join (a b : string) :
  canonical a -> a <> EmptyString -> canonical b -> b <> EmptyString ->
  canonical (a +:+ "/" +:+ b) /\ (a +:+ "/" +:+ b)%string <> EmptyString.
Proof.
  intros [Ha _] Hane [_ Hb] Hbne. split; [split|by destruct a].
  - by rewrite starts_with_slash_app.
  - rewrite ends_with_slash_app; [|done].
    change ("/" +:+ b)%string with (String "/"%char b). simpl. by destruct b.
Qed.

Lemma append_assoc (a b c : string) : ((a +:+ b) +:+ c = a +:+ (b +:+ c))%string.
Proof.
  induction a as [|x a IH]; [done|].
  change (String x ((a +:+ b) +:+ c) = String x (a +:+ (b +:+ c))). by rewrite IH.
Qed.

End ChildFacts.

(** X7: the child of any reference under a key that is not empty and
    holds no separator has that key as its [key] and is never the
    root; under the root its path is the key itself.  So is the
    reference [push] makes from a generated key. *)
Theorem child_key (this : DataReference) (k : string) (w : world) :
  k <> EmptyString -> no_slash k = true ->
  exists c,
    (child this k w).2 = Ok c /\ key c = k /\ path c <> EmptyString /\
    (path this = EmptyString -> path c = k).
Proof.
  intros Hne Hk. eexists. split; [reflexivity|]. by apply child_path_key.
Qed.

(** X8: [child] composes: for a reference with a canonical path and
    two canonical, non-empty child paths, the child of the child has
    the path and the key of the child under the two paths joined by
    the separator. *)
Theorem child_of_child (this : DataReference) (a b : string) (w : world) :
  canonical (path this) ->
  canonical a -> a <> EmptyString -> canonical b -> b <> EmptyString ->
  exists c1 c2 c3,
    (child this a w).2 = Ok c1 /\
    (child c1 b (child this a w).1).2 = Ok c2 /\
    (child this (a +:+ "/" +:+ b) w).2 = Ok c3 /\
    path c2 = path c3 /\ key c2 = key c3.
Proof.
  intros Hthis Ha Hane Hb Hbne.
  destruct (canonical_join a b Ha Hane Hb Hbne) as [Hab Habne].
  eexists _, _, _. split_and!; [reflexivity..| |]; simpl;
    rewrite (trim_slashes_id a Ha), (trim_slashes_id b Hb), (trim_slashes_id _ Hab).
  - destruct (decide (path this = EmptyString)) as [->|Hne].
    + rewrite (child_path_root a Ha), (child_path_root _ Hab).
      by apply child_path_join.
    + destruct (canonical_join (path this) a Hthis Hne Ha Hane) as [Hpa Hpane].
      rewrite (child_path_join (path this) a), (child_path_join (path this) _) by done.
      rewrite (child_path_join _ b) by done. by rewrite append_assoc.
  - f_equal. destruct (decide (path this = EmptyString)) as [->|Hne].
    + rewrite (child_path_root a Ha), (child_path_root _ Hab).
      by apply child_path_join.
    + destruct (canonical_join (path this) a Hthis Hne Ha Hane) as [Hpa Hpane].
      rewrite (child_path_join (path this) a), (child_path_join (path this) _) by done.
      rewrite (child_path_join _ b) by done. by rewrite append_assoc.
Qed.

(** X7 on the child "ewout" of "users". *)
Lemma child_key_example :
  exists c,
    (child (Ref 0 "users" "users") "ewout" empty_world).2 = Ok c /\ key c = "ewout" /\
    path c <> EmptyString /\
    (path (Ref 0 "users" "users") = EmptyString -> path c = "ewout").
Proof.
  apply (child_key (Ref 0 "users" "users") "ewout" empty_world); [discriminate|reflexivity].
Defined.

(** X8 on "chats", "c1" and "messages". *)
Lemma child_of_child_example :
  exists c1 c2 c3,
    (child (Ref 0 "chats" "chats") "c1" empty_world).2 = Ok c1 /\
    (child c1 "messages" (child (Ref 0 "chats" "chats") "c1" empty_world).1).2 = Ok c2 /\
    (child (Ref 0 "chats" "chats") "c1/messages" empty_world).2 = Ok c3 /\
    path c2 = path c3 /\ key c2 = key c3.
Proof.
  apply (child_of_child (Ref 0 "chats" "chats") "c1" "messages" empty_world);
    try discriminate; by split.
Defined.

End Children.

(** ** Writing and reading *)

Module Writing.
Import JS Reference.

Section Writes.
Variable types_serialize : string -> value -> value.
Variable types_deserialize : string -> value -> value.

(** [push(value, onComplete)], given the key [ID.generate()] returned:
    the new child reference, and with a value the promise of its
    [set], which resolves with that reference (the step [res => ref]
    calls nothing and returns the reference, as [ret] of [update]
    does without an [onComplete]).  The mark [__pushed] on the new
    reference, which nothing in these sources reads, is left out. *)
Definition push_value (this : DataReference) (id : string) (value : value)
    (onComplete : cbarg) : W (DataReference * option nat) :=
  ref <~ push this id;;
  if negb (String.eqb (typeof value) "undefined") then
    k <~ set types_serialize ref value onComplete;;
    and_then k (ThenRet CbAbsent ref) ;;; ret (ref, Some k)
  else ret (ref, None).

(** The backend settling the promise of the call made last. *)
Lemma respond_last (w : world) (l : list (nat * list frame)) (k : nat) (frames : list frame)
    (r : result value) :
  pending w = l ++ [(k, frames)] -> Forall (fun p => p.1 < k) l ->
  respond types_deserialize k r w
  = (let w1 := with_pending (fun _ => l) w in
     let '(w2, out) :=
       match r with
       | Ok raw => run_frames types_deserialize frames (PValue raw) w1
       | Throw e => (w1, Throw e)
       end in
     (with_settled (fun s => s ++ [(k, out)]) w2, Ok tt)).
Proof.
  intros Hp Hl. unfold respond. rewrite Hp, find_pending_fresh by done. cbv zeta.
  assert (with_pending (List.filter (fun p => negb (Nat.eqb p.1 k))) w
          = with_pending (fun _ => l) w) as ->; [|done].
  unfold with_pending. by rewrite Hp, filter_pending_fresh.
Qed.

Lemma wf_world_lt (w : world) :
  wf_world w -> Forall (fun p => p.1 < length (api_calls w)) (pending w).
Proof. done. Qed.

(** X9: on a reference that is not the root, [set] of a value that is
    not [undefined] makes one backend call, [set] with the serialized
    value, and hands nothing over by itself.  When the backend
    acknowledges, [onComplete], if it is a function, is called once
    with the reference and the promise resolves with the reference (a
    truthy [onComplete] that is no function makes it reject with a
    [TypeError]); when the backend fails, [onComplete] is not called
    and the promise rejects with the failure. *)
Theorem set_stores_then_completes (this : DataReference) (v : value) (onComplete : cbarg)
    (w : world) :
  wf_world w -> path this <> EmptyString -> String.eqb (typeof v) "undefined" = false ->
  let k := length (api_calls w) in
  let w1 := (set types_serialize this v onComplete w).1 in
  (set types_serialize this v onComplete w).2 = Ok k /\
  api_calls w1 = api_calls w ++ [ApiSet this (types_serialize (path this) v)] /\
  delivered w1 = delivered w /\
  (forall ack,
      let w2 := (respond types_deserialize k (Ok ack) w1).1 in
      delivered w2
      = delivered w ++ match onComplete with CbFn f => [Completed f this] | _ => [] end /\
      settled w2
      = settled w ++
        [(k, match onComplete with
             | CbTrue => Throw (TypeError "onComplete is not a function")
             | _ => Ok (PRef this)
             end)] /\
      api_calls w2 = api_calls w1) /\
  (forall e,
      let w2 := (respond types_deserialize k (Throw e) w1).1 in
      delivered w2 = delivered w /\ settled w2 = settled w ++ [(k, Throw e)] /\
      api_calls w2 = api_calls w1).
Proof.
  intros Hwf Hne Hdef. cbv zeta. rewrite set_result.
  destruct (parent_path (path this)) as [pp|] eqn:Hpp; [|by apply parent_path_None in Hpp].
  rewrite Hdef. cbn [fst snd]. split_and!; try done.
  - intros ack. erewrite respond_last; [|reflexivity|exact Hwf].
    simpl. unfold bind, complete, ret. destruct onComplete as [| |f]; simpl; by rewrite ?app_nil_r.
  - intros e. erewrite respond_last; [|reflexivity|exact Hwf]. done.
Qed.

(** X10: [update] with an object calls the backend [update] with the
    serialized object on every reference, the root included (it has
    no test for the root and makes no reference); [onComplete] is
    called once after the acknowledgement, never after a failure, and
    the promise resolves with the reference. *)
Theorem update_object_calls_backend_update (this : DataReference)
    (props : list (string * value)) (onComplete : cbarg) (w : world) :
  wf_world w ->
  let k := length (api_calls w) in
  let w1 := (update types_serialize this (VObject props) onComplete w).1 in
  (update types_serialize this (VObject props) onComplete w).2 = Ok k /\
  api_calls w1
  = api_calls w ++ [ApiUpdate this (types_serialize (path this) (VObject props))] /\
  callbacks w1 = callbacks w /\ delivered w1 = delivered w /\
  (forall ack,
      let w2 := (respond types_deserialize k (Ok ack) w1).1 in
      delivered w2
      = delivered w ++ match onComplete with CbFn f => [Completed f this] | _ => [] end /\
      settled w2
      = settled w ++
        [(k, match onComplete with
             | CbTrue => Throw (TypeError "onComplete is not a function")
             | _ => Ok (PRef this)
             end)]) /\
  (forall e,
      let w2 := (respond types_deserialize k (Throw e) w1).1 in
      delivered w2 = delivered w /\ settled w2 = settled w ++ [(k, Throw e)]).
Proof.
  intros Hwf. cbv zeta. unfold update. simpl. unfold bind, api, then_, modify, ret. simpl.
  split_and!; try done.
  - intros ack. erewrite respond_last; [|reflexivity|exact Hwf].
    simpl. unfold bind, complete, ret. destruct onComplete as [| |f]; simpl; by rewrite ?app_nil_r.
  - intros e. erewrite respond_last; [|reflexivity|exact Hwf]. done.
Qed.

(** X11: on a reference that is not the root, [remove] makes the one
    backend call that [set(null)] makes, the serialized [null] at
    this reference, with no [onComplete], and hands nothing over. *)
Theorem remove_sets_null (this : DataReference) (w : world) :
  path this <> EmptyString ->
  (remove types_serialize this w).2 = Ok (length (api_calls w)) /\
  api_calls (remove types_serialize this w).1
  = api_calls w ++ [ApiSet this (types_serialize (path this) VNull)] /\
  pending (remove types_serialize this w).1
  = pending w ++ [(length (api_calls w), [ThenSet CbAbsent this])] /\
  delivered (remove types_serialize this w).1 = delivered w.
Proof.
  intros Hne. unfold remove, bind.
  destruct (parent_not_root this w Hne) as [r ->]. rewrite set_result.
  destruct (parent_path (path this)) as [pp|] eqn:Hpp; [|by apply parent_path_None in Hpp].
  done.
Qed.

(** X12: [push] with a generated key that is not empty and holds no
    separator returns the child under that key.  Without a value it
    makes no backend call; with a value it calls the backend [set]
    at the child, on every reference, the root included, and after
    the acknowledgement [onComplete] is called with the child and the
    promise resolves with the child. *)
Theorem push_value_sets_child (this : DataReference) (id : string) (value : value)
    (onComplete : cbarg) (w : world) :
  wf_world w -> id <> EmptyString -> Children.no_slash id = true ->
  exists c,
    (child this id w).2 = Ok c /\ key c = id /\
    (String.eqb (typeof value) "undefined" = true ->
     push_value this id value onComplete w = ((child this id w).1, Ok (c, None))) /\
    (String.eqb (typeof value) "undefined" = false ->
     let k := length (api_calls w) in
     let w1 := (push_value this id value onComplete w).1 in
     (push_value this id value onComplete w).2 = Ok (c, Some k) /\
     api_calls w1 = api_calls w ++ [ApiSet c (types_serialize (path c) value)] /\
     forall ack,
       let w2 := (respond types_deserialize k (Ok ack) w1).1 in
       delivered w2
       = delivered w ++ match onComplete with CbFn f => [Completed f c] | _ => [] end /\
       settled w2
       = settled w ++
         [(k, match onComplete with
              | CbTrue => Throw (TypeError "onComplete is not a function")
              | _ => Ok (PRef c)
              end)]).
Proof.
  intros Hwf Hne Hid.
  destruct (Children.child_path_key (path this) id Hne Hid) as (Hkey & Hpath & _).
  eexists. split; [reflexivity|]. split; [exact Hkey|]. split.
  - intros Hundef. unfold push_value, push, bind. simpl. by rewrite Hundef.
  - intros Hdef. cbv zeta.
    set (c := Ref (length (callbacks w)) _ _).
    assert (push_value this id value onComplete w
            = (with_pending
                 (fun l => l ++ [(length (api_calls w),
                                  [ThenSet onComplete c; ThenRet CbAbsent c])])
                 (with_api_calls (fun l => l ++ [ApiSet c (types_serialize (path c) value)])
                    (with_callbacks (fun l => l ++ [[]])
                       (with_callbacks (fun l => l ++ [[]]) w))),
               Ok (c, Some (length (api_calls w))))) as ->.
    { unfold push_value, push, child, DataReference_new, bind. fold c. rewrite Hdef. simpl.
      rewrite set_result.
      destruct (parent_path (path c)) as [pp|] eqn:Hpp; [|by apply parent_path_None in Hpp].
      rewrite Hdef. unfold and_then, modify, ret, with_pending. simpl.
      by rewrite and_then_pending_fresh by exact Hwf. }
    split_and!; try done.
    intros ack. erewrite respond_last; [|reflexivity|exact Hwf].
    simpl. unfold bind, complete, ret. destruct onComplete as [| |f]; simpl; by rewrite ?app_nil_r.
Qed.

(** X13: [get] makes one backend call, [get] with the options as
    given, on every reference.  When the backend answers with a
    value, the promise resolves with a snapshot of this reference
    that holds the deserialized value, and nothing is handed to a
    callback or stream; when it fails, the promise rejects with the
    failure. *)
Theorem get_resolves_with_snapshot (this : DataReference) (options : value) (w : world) :
  wf_world w ->
  let k := length (api_calls w) in
  let w1 := (get this options w).1 in
  (get this options w).2 = Ok k /\
  api_calls w1 = api_calls w ++ [ApiGet this options] /\
  (forall raw,
      let w2 := (respond types_deserialize k (Ok raw) w1).1 in
      settled w2
      = settled w ++ [(k, Ok (PSnapshot (Snapshot this (types_deserialize (path this) raw))))] /\
      delivered w2 = delivered w /\ api_calls w2 = api_calls w1) /\
  (forall e,
      let w2 := (respond types_deserialize k (Throw e) w1).1 in
      settled w2 = settled w ++ [(k, Throw e)] /\ delivered w2 = delivered w).
Proof.
  intros Hwf. cbv zeta. unfold get, bind, api, then_, modify, ret. simpl.
  split_and!; try done.
  - intros raw. erewrite respond_last; [|reflexivity|exact Hwf]. done.
  - intros e. erewrite respond_last; [|reflexivity|exact Hwf]. done.
Qed.

End Writes.

(** X9 on "node": the acknowledged [set] calls [onComplete] once. *)
Lemma set_stores_then_completes_example :
  api_calls (set (fun _ v => v) node_ref ab_value (CbFn (UserFn 7)) node_world).1
  = [ApiSet node_ref ab_value] /\
  delivered (respond (fun _ v => v) 0 (Ok VNull)
               (set (fun _ v => v) node_ref ab_value (CbFn (UserFn 7)) node_world).1).1
  = [Completed (UserFn 7) node_ref].
Proof.
  pose proof (set_stores_then_completes (fun _ v => v) (fun _ v => v) node_ref ab_value
                (CbFn (UserFn 7)) node_world (Forall_nil_2 _)
                ltac:(discriminate) eq_refl) as (_ & Hcalls & _ & Hack & _).
  split; [exact Hcalls|]. exact (proj1 (Hack VNull)).
Defined.

(** X10 on the root. *)
Lemma update_object_calls_backend_update_root :
  api_calls (update (fun _ v => v) (Ref 0 "" "") ab_value CbAbsent node_world).1
  = [ApiUpdate (Ref 0 "" "") ab_value].
Proof.
  exact (proj1 (proj2
    (update_object_calls_backend_update (fun _ v => v) (fun _ v => v) (Ref 0 "" "")
       [("a", VNumber 1%float); ("b", VNumber 2%float)] CbAbsent node_world (Forall_nil_2 _)))).
Defined.

(** X11 on "node". *)
Lemma remove_sets_null_example :
  api_calls (remove (fun _ v => v) node_ref node_world).1 = [ApiSet node_ref VNull].
Proof.
  exact (proj1 (proj2 (remove_sets_null (fun _ v => v) node_ref node_world ltac:(discriminate)))).
Defined.

(** X12 on the root, with the key "k1". *)
Lemma push_value_sets_child_root :
  exists c,
    (child (Ref 0 "" "") "k1" node_world).2 = Ok c /\ key c = "k1" /\
    api_calls (push_value (fun _ v => v) (Ref 0 "" "") "k1" ab_value CbAbsent node_world).1
    = [ApiSet c ab_value].
Proof.
  destruct (push_value_sets_child (fun _ v => v) (fun _ v => v) (Ref 0 "" "") "k1" ab_value
              CbAbsent node_world (Forall_nil_2 _) ltac:(discriminate) eq_refl)
    as (c & Hc & Hkey & _ & Hset).
  exists c. split; [exact Hc|]. split; [exact Hkey|].
  exact (proj1 (proj2 (Hset eq_refl))).
Defined.

(** X13 on "node". *)
Lemma get_resolves_with_snapshot_example :
  settled (respond (fun _ v => v) 0 (Ok ab_value) (get node_ref VUndefined node_world).1).1
  = [(0, Ok (PSnapshot (Snapshot node_ref ab_value)))].
Proof.
  pose proof (get_resolves_with_snapshot (fun _ v => v) node_ref VUndefined node_world
                (Forall_nil_2 _)) as (_ & _ & Hok & _).
  exact (proj1 (Hok ab_value)).
Defined.

End Writing.

(** ** Subscribing and unsubscribing *)

Module Subscribing.
Import JS Reference.

(** The registration [on] makes in world [w]. *)
Definition registration_of (w : world) (this : DataReference) (event : string)
    (callback : cbarg) : registration :=
  Registration (next_id w) (length (streams w)) callback this event.

(** The read [on] issues for the replay, if it replays. *)
Definition replay_read (this : DataReference) (event : string) (callback : cbarg)
  : list api_call :=
  if truthy_cb callback && (String.eqb event "value" || String.eqb event "child_added")
  then [ApiGet this VUndefined] else [].

(** The streams after [stop] on the stream of every registration. *)
Definition stopped (cbs : list registration) (streams : list (list nat)) : list (list nat) :=
  foldl (fun s cb => <[subscr cb := []]> s) streams cbs.

Section Registrations.

Lemma find_first (callback : offarg) (l1 l2 : list registration) (cb : registration) :
  same_callback (original cb) callback = true ->
  Forall (fun c => same_callback (original c) callback = false) l1 ->
  List.find (fun c => same_callback (original c) callback) (l1 ++ cb :: l2) = Some cb.
Proof.
  intros Hcb Hl1. induction Hl1 as [|c l1 Hc _ IH]; simpl; [by rewrite Hcb|].
  by rewrite Hc.
Qed.

Lemma find_none (callback : offarg) (l : list registration) :
  Forall (fun c => same_callback (original c) callback = false) l ->
  List.find (fun c => same_callback (original c) callback) l = None.
Proof. induction 1 as [|c l Hc _ IH]; simpl; [done|]. by rewrite Hc. Qed.

Lemma indexOf_middle (l1 l2 : list registration) (cb : registration) :
  Forall (fun c => reg_id c <> reg_id cb) l1 ->
  indexOf cb (l1 ++ cb :: l2) = Some (length l1).
Proof.
  induction 1 as [|c l1 Hc _ IH]; simpl; [by rewrite Nat.eqb_refl|].
  destruct (Nat.eqb_spec (reg_id c) (reg_id cb)); [done|]. by rewrite IH.
Qed.

Lemma splice_indexOf_middle (l1 l2 : list registration) (cb : registration) :
  Forall (fun c => reg_id c <> reg_id cb) l1 ->
  splice_indexOf cb (l1 ++ cb :: l2) = l1 ++ l2.
Proof.
  intros Hl1. unfold splice_indexOf. rewrite indexOf_middle by done. apply delete_middle.
Qed.

Lemma alter_found {A} (f : A -> A) (i : nat) (l : list A) (x : A) :
  l !! i = Some x -> alter f i l = <[i := f x]> l.
Proof.
  intros Hx. apply list_eq. intros j. rewrite list_lookup_alter, list_lookup_insert.
  destruct (decide (i = j)) as [<-|Hne].
  - rewrite Hx. simpl. apply lookup_lt_Some in Hx. by rewrite decide_True.
  - by rewrite decide_False by (by intros [? _]).
Qed.

Lemma insert_same {A} (i : nat) (l : list A) (x : A) : l !! i = Some x -> <[i := x]> l = l.
Proof.
  intros Hx. apply list_eq. intros j. rewrite list_lookup_insert.
  destruct (decide (i = j ∧ i < length l)) as [[<- _]|]; done.
Qed.

(** [off] with a callback that a registration of the reference has. *)
Lemma off_found (this : DataReference) (event : option string) (callback : offarg)
    (l1 l2 : list registration) (cb : registration) (w : world) :
  callbacks w !! ref_id this = Some (l1 ++ cb :: l2) ->
  truthy_off callback = true ->
  same_callback (original cb) callback = true ->
  Forall (fun c => same_callback (original c) callback = false) l1 ->
  Forall (fun c => reg_id c <> reg_id cb) l1 ->
  off this event callback w
  = (with_api_calls (fun l => l ++ [ApiUnsubscribe this event (Some cb)])
       (with_streams (fun s => <[subscr cb := []]> s)
          (with_callbacks (fun l => <[ref_id this := l1 ++ l2]> l) w)),
     Ok tt).
Proof.
  intros Hcbs Htruthy Hcb Hl1 Hids.
  unfold off, bind, callbacks_of, gets. simpl. rewrite Hcbs, Htruthy. simpl.
  rewrite find_first by done.
  unfold modify, stop, api, ret, with_callbacks. simpl.
  by rewrite (alter_found _ _ _ _ Hcbs), splice_indexOf_middle.
Qed.

(** [off] with a callback that no registration of the reference has. *)
Lemma off_not_found (this : DataReference) (event : option string) (callback : offarg)
    (w : world) :
  truthy_off callback = true ->
  Forall (fun c => same_callback (original c) callback = false)
         (default [] (callbacks w !! ref_id this)) ->
  off this event callback w
  = (with_debug_errors (fun l => l ++ ["Can't find specified callback to unsubscribe from"]) w,
     Ok tt).
Proof.
  intros Htruthy Hnone. unfold off, bind, callbacks_of, gets. simpl.
  by rewrite Htruthy, find_none.
Qed.

Lemma forEach_stop (cbs : list registration) (w : world) :
  forEach cbs (fun cb => stop (subscr cb)) w = (with_streams (stopped cbs) w, Ok tt).
Proof.
  revert w. induction cbs as [|cb cbs IH]; intros w; simpl.
  - by destruct w.
  - unfold bind, stop, modify. rewrite IH. by destruct w.
Qed.

Lemma not_same_callback (c : registration) (f : nat) :
  original c <> CbFn (UserFn f) ->
  same_callback (original c) (OffArg (CbFn (UserFn f))) = false.
Proof.
  destruct (original c) as [| |[g|? ? ?]]; simpl; try done.
  intros Hne. destruct (Nat.eqb_spec g f) as [->|]; done.
Qed.

(** What [on] does to the world, whatever the event and the callback. *)
Lemma on_effects (this : DataReference) (event : string) (callback : cbarg) (w : world) :
  (on this event callback w).2 = Ok (length (streams w)) /\
  callbacks (on this event callback w).1
  = alter (fun l => l ++ [registration_of w this event callback]) (ref_id this) (callbacks w) /\
  streams (on this event callback w).1 = streams w ++ [[]] /\
  api_calls (on this event callback w).1
  = api_calls w ++ ApiSubscribe this event (registration_of w this event callback)
                     :: replay_read this event callback /\
  delivered (on this event callback w).1 = delivered w /\
  debug_errors (on this event callback w).1 = debug_errors w /\
  next_id (on this event callback w).1 = S (next_id w).
Proof.
  unfold on, replay_read, registration_of.
  destruct (truthy_cb callback); simpl; [|done].
  destruct (String.eqb event "value"); simpl.
  { unfold bind, EventStream_new, fresh_id, modify, api, get, then_, and_then, ret. simpl.
    by rewrite <- app_assoc. }
  destruct (String.eqb event "child_added"); simpl; [|done].
  unfold bind, EventStream_new, fresh_id, modify, api, get, then_, and_then, ret. simpl.
  by rewrite <- app_assoc.
Qed.

End Registrations.

Section Handlers.
Variable types_deserialize : string -> value -> value.

(** The handler of a registration without a callback function,
    called with data. *)
Lemma ours_without_function (cb : registration) (p : string) (newValue oldValue : value)
    (w : world) :
  is_function (original cb) = false ->
  ours types_deserialize cb VNull p newValue oldValue w
  = (let snap :=
       Snapshot (ref_made w p)
         (types_deserialize p
            (if String.eqb (reg_event cb) "child_removed" then oldValue else newValue)) in
     let w' :=
       with_delivered (fun l => l ++ [Published (subscr cb) snap])
         (with_callbacks (fun l => l ++ [[]]) w) in
     match streams w !! subscr cb with
     | Some (_ :: _) => (w', Ok tt)
     | _ =>
         (with_api_calls
            (fun l => l ++ [ApiUnsubscribe (reg_this cb) (Some (reg_event cb)) (Some cb)])
            (with_callbacks (alter (splice_indexOf cb) (ref_id (reg_this cb))) w'),
          Ok tt)
     end).
Proof.
  intros Hfn. unfold ours. simpl. rewrite Hfn.
  unfold bind, db_ref, DataReference_new, invoke_callback, publish, modify, gets, api, ret,
    ref_made.
  destruct (original cb) as [| |f]; [| |done]; simpl;
    by destruct (streams w !! subscr cb) as [[|? ?]|].
Qed.

(** X18: [on(event)] without a callback subscribes with the backend
    and issues no read.  When its handler then gets data and the
    returned stream has no subscriber, the snapshot is published, the
    registration is taken out of the callbacks again and the backend
    is unsubscribed with that handler; with a subscriber on the
    stream the registration stays and no backend call is made. *)
Theorem on_without_callback_self_unsubscribes (this : DataReference) (event p : string)
    (newValue oldValue : value) (cbs : list registration) (w : world) :
  callbacks w !! ref_id this = Some cbs ->
  Forall (fun c => reg_id c <> next_id w) cbs ->
  let cb := registration_of w this event CbAbsent in
  let w1 := (on this event CbAbsent w).1 in
  let snap :=
    Snapshot (ref_made w1 p)
      (types_deserialize p (if String.eqb event "child_removed" then oldValue else newValue)) in
  api_calls w1 = api_calls w ++ [ApiSubscribe this event cb] /\
  pending w1 = pending w /\
  (let w2 := (ours types_deserialize cb VNull p newValue oldValue w1).1 in
   callbacks w2 !! ref_id this = Some cbs /\
   api_calls w2 = api_calls w1 ++ [ApiUnsubscribe this (Some event) (Some cb)] /\
   delivered w2 = delivered w ++ [Published (subscr cb) snap]) /\
  (forall subscriber,
      let w2 := (ours types_deserialize cb VNull p newValue oldValue
                   (subscribe (subscr cb) subscriber w1).1).1 in
      callbacks w2 !! ref_id this = Some (cbs ++ [cb]) /\
      api_calls w2 = api_calls w1 /\
      delivered w2 = delivered w ++ [Published (subscr cb) snap]).
Proof.
  intros Hcbs Hids. cbv zeta.
  destruct (on_effects this event CbAbsent w) as (_ & Hc & Hs & Ha & Hd & _ & _).
  set (cb := registration_of w this event CbAbsent) in *.
  set (w1 := (on this event CbAbsent w).1) in *.
  assert (pending w1 = pending w) as Hp by done. clearbody w1.
  unfold replay_read in Ha. simpl in Ha.
  assert (callbacks w1 !! ref_id this = Some (cbs ++ [cb])) as Hcb.
  { by rewrite Hc, list_lookup_alter_eq, Hcbs. }
  assert (ref_id this < length (callbacks w1)) as Hlt by (by eapply lookup_lt_Some).
  split; [done|]. split; [done|]. split.
  - rewrite ours_without_function by done. cbv zeta.
    assert (streams w1 !! subscr cb = Some []) as ->.
    { rewrite Hs. simpl. by rewrite lookup_app_r, Nat.sub_diag by lia. }
    simpl. split_and!; [|done|by rewrite Hd].
    rewrite list_lookup_alter_eq, lookup_app_l, Hcb by done. simpl.
    rewrite splice_indexOf_middle; [by rewrite app_nil_r|].
    eapply Forall_impl; [exact Hids|]. done.
  - intros subscriber. rewrite ours_without_function by done. cbv zeta.
    unfold subscribe, modify. simpl.
    assert (alter (fun l => l ++ [subscriber]) (length (streams w)) (streams w1)
              !! length (streams w) = Some [subscriber]) as ->.
    { rewrite list_lookup_alter_eq, Hs. by rewrite lookup_app_r, Nat.sub_diag by lia. }
    simpl. split_and!; [|done|by rewrite Hd].
    by rewrite lookup_app_l.
Qed.

End Handlers.

(** X14: [off(event, f)] looks for [f] among the registrations of
    the reference without regard to their events: it removes the
    oldest registration of [f] from the callbacks and unsubscribes
    the handler of that registration from the backend under the event
    given to [off]; it logs nothing and hands nothing over. *)
Theorem off_removes_oldest_registration (this : DataReference) (event : option string)
    (f : nat) (l1 l2 : list registration) (cb : registration) (w : world) :
  callbacks w !! ref_id this = Some (l1 ++ cb :: l2) ->
  original cb = CbFn (UserFn f) ->
  Forall (fun c => original c <> CbFn (UserFn f)) l1 ->
  Forall (fun c => reg_id c <> reg_id cb) l1 ->
  let w' := (off this event (OffArg (CbFn (UserFn f))) w).1 in
  callbacks w' = <[ref_id this := l1 ++ l2]> (callbacks w) /\
  api_calls w' = api_calls w ++ [ApiUnsubscribe this event (Some cb)] /\
  debug_errors w' = debug_errors w /\ delivered w' = delivered w.
Proof.
  intros Hcbs Horig Hl1 Hids. cbv zeta.
  rewrite (off_found this event _ l1 l2 cb w Hcbs); [done|done| | |done].
  - rewrite Horig. simpl. apply Nat.eqb_refl.
  - eapply Forall_impl; [exact Hl1|]. intros c. apply not_same_callback.
Qed.

(** X15: [on(event, f)] followed by [off(event, f)], for a function
    [f] the reference has no registration of yet, leaves the
    callbacks of every reference as they were before [on]; the backend
    is unsubscribed with the very handler it was subscribed with, and
    nothing is logged or handed over by the two calls. *)
Theorem on_then_off (this : DataReference) (event : string) (f : nat)
    (cbs : list registration) (w : world) :
  callbacks w !! ref_id this = Some cbs ->
  Forall (fun c => original c <> CbFn (UserFn f)) cbs ->
  Forall (fun c => reg_id c <> next_id w) cbs ->
  let cb := registration_of w this event (CbFn (UserFn f)) in
  let w1 := (on this event (CbFn (UserFn f)) w).1 in
  let w2 := (off this (Some event) (OffArg (CbFn (UserFn f))) w1).1 in
  callbacks w2 = callbacks w /\
  api_calls w2
  = api_calls w ++ ApiSubscribe this event cb :: replay_read this event (CbFn (UserFn f))
                ++ [ApiUnsubscribe this (Some event) (Some cb)] /\
  debug_errors w2 = debug_errors w /\ delivered w2 = delivered w.
Proof.
  intros Hcbs Horig Hids. cbv zeta.
  destruct (on_effects this event (CbFn (UserFn f)) w) as (_ & Hc & Hs & Ha & Hd & He & _).
  set (cb := registration_of w this event (CbFn (UserFn f))) in *.
  set (w1 := (on this event (CbFn (UserFn f)) w).1) in *. clearbody w1.
  assert (callbacks w1 !! ref_id this = Some (cbs ++ cb :: [])) as Hcb.
  { by rewrite Hc, list_lookup_alter_eq, Hcbs. }
  rewrite (off_found this (Some event) _ cbs [] cb w1 Hcb); [|done| | |done].
  - simpl. rewrite app_nil_r, Ha, Hd, He. split_and!; try done.
    + rewrite Hc. apply list_eq. intros j. rewrite list_lookup_insert, length_alter.
      destruct (decide (ref_id this = j ∧ ref_id this < length (callbacks w))) as [[<- _]|Hn].
      * done.
      * rewrite list_lookup_alter. destruct (decide (ref_id this = j)) as [<-|]; [|done].
        destruct Hn. split; [done|]. by eapply lookup_lt_Some.
    + by rewrite <- app_assoc.
  - simpl. apply Nat.eqb_refl.
  - eapply Forall_impl; [exact Horig|]. intros c. apply not_same_callback.
Qed.

(** X16: [off] without a callback empties the callbacks of this
    reference, whatever the event given, and leaves those of every
    other reference; it makes one backend call, [unsubscribe] with
    the event and no handler, however many registrations there were,
    and it logs nothing and hands nothing over. *)
Theorem off_without_callback_removes_all (this : DataReference) (event : option string)
    (w : world) :
  let w' := (off this event (OffArg CbAbsent) w).1 in
  callbacks w' !! ref_id this = (fun _ => []) <$> callbacks w !! ref_id this /\
  (forall j, j <> ref_id this -> callbacks w' !! j = callbacks w !! j) /\
  api_calls w' = api_calls w ++ [ApiUnsubscribe this event None] /\
  delivered w' = delivered w /\ debug_errors w' = debug_errors w.
Proof.
  cbv zeta. unfold off, bind, callbacks_of, gets, modify. simpl.
  rewrite forEach_stop. unfold api, ret. simpl.
  split_and!; try done.
  - apply list_lookup_alter_eq.
  - intros j Hj. by apply list_lookup_alter_ne.
Qed.

(** X17: [off(event, f)] for a function [f] that the reference has
    no registration of logs that it cannot find the callback and does
    nothing else: no registration is removed, no stream stopped and
    no backend call made. *)
Theorem off_unknown_callback_changes_nothing (this : DataReference) (event : option string)
    (f : nat) (w : world) :
  Forall (fun c => original c <> CbFn (UserFn f)) (default [] (callbacks w !! ref_id this)) ->
  off this event (OffArg (CbFn (UserFn f))) w
  = (with_debug_errors (fun l => l ++ ["Can't find specified callback to unsubscribe from"]) w,
     Ok tt).
Proof.
  intros Hnone. apply off_not_found; [done|].
  eapply Forall_impl; [exact Hnone|]. intros c. apply not_same_callback.
Qed.

(** X19: [on] always returns a new stream, adds one registration at
    the end of the callbacks of this reference, and subscribes with
    the backend; it issues a read of the reference after that exactly
    when the callback is truthy and the event is "value" or
    "child_added", and by itself it hands nothing over and logs
    nothing. *)
Theorem on_registers_and_reads (this : DataReference) (event : string) (callback : cbarg)
    (w : world) :
  let cb := registration_of w this event callback in
  let w1 := (on this event callback w).1 in
  (on this event callback w).2 = Ok (length (streams w)) /\
  callbacks w1 = alter (fun l => l ++ [cb]) (ref_id this) (callbacks w) /\
  streams w1 = streams w ++ [[]] /\
  api_calls w1 = api_calls w ++ ApiSubscribe this event cb :: replay_read this event callback /\
  delivered w1 = delivered w /\ debug_errors w1 = debug_errors w.
Proof.
  cbv zeta. destruct (on_effects this event callback w) as (? & ? & ? & ? & ? & ? & _).
  by split_and!.
Qed.

(** X14 on two registrations of one function: [off("child_added", f)]
    removes the one for "value", which is the older. *)
Lemma off_removes_oldest_registration_example :
  let cb_value := Registration 0 0 (CbFn (UserFn 7)) node_ref "value" in
  let cb_added := Registration 1 1 (CbFn (UserFn 7)) node_ref "child_added" in
  let w := World [[cb_value; cb_added]] [[]; []] [] [] [] [] [] [] 2 in
  let w' := (off node_ref (Some "child_added") (OffArg (CbFn (UserFn 7))) w).1 in
  callbacks w' = [[cb_added]] /\
  api_calls w' = [ApiUnsubscribe node_ref (Some "child_added") (Some cb_value)].
Proof.
  cbv zeta.
  pose proof (off_removes_oldest_registration node_ref (Some "child_added") 7 []
                [Registration 1 1 (CbFn (UserFn 7)) node_ref "child_added"]
                (Registration 0 0 (CbFn (UserFn 7)) node_ref "value")
                (World [[Registration 0 0 (CbFn (UserFn 7)) node_ref "value";
                         Registration 1 1 (CbFn (UserFn 7)) node_ref "child_added"]]
                   [[]; []] [] [] [] [] [] [] 2)
                eq_refl eq_refl (Forall_nil_2 _) (Forall_nil_2 _)) as (Hc & Ha & _).
  split; [exact Hc|exact Ha].
Defined.

(** X15 on "node" and the event "child_changed". *)
Lemma on_then_off_example :
  let w1 := (on node_ref "child_changed" (CbFn (UserFn 7)) node_world).1 in
  let w2 := (off node_ref (Some "child_changed") (OffArg (CbFn (UserFn 7))) w1).1 in
  callbacks w2 = callbacks node_world /\
  api_calls w2
  = [ApiSubscribe node_ref "child_changed"
       (Registration 0 0 (CbFn (UserFn 7)) node_ref "child_changed");
     ApiUnsubscribe node_ref (Some "child_changed")
       (Some (Registration 0 0 (CbFn (UserFn 7)) node_ref "child_changed"))].
Proof.
  cbv zeta.
  pose proof (on_then_off node_ref "child_changed" 7 [] node_world eq_refl
                (Forall_nil_2 _) (Forall_nil_2 _)) as (Hc & Ha & _).
  split; [exact Hc|exact Ha].
Defined.

(** X17 on a reference without registrations. *)
Lemma off_unknown_callback_changes_nothing_example :
  off node_ref (Some "value") (OffArg (CbFn (UserFn 7))) node_world
  = (World [[]] [] [] [] [] ["Can't find specified callback to unsubscribe from"] [] [] 0,
     Ok tt).
Proof.
  exact (off_unknown_callback_changes_nothing node_ref (Some "value") 7 node_world
           (Forall_nil_2 _)).
Defined.

(** X18 on "node": an event for "node/x" and nobody on the stream. *)
Lemma on_without_callback_self_unsubscribes_example :
  let cb := Registration 0 0 CbAbsent node_ref "child_changed" in
  let w1 := (on node_ref "child_changed" CbAbsent node_world).1 in
  let w2 := (ours (fun _ v => v) cb VNull "node/x" (VNumber 1%float) VNull w1).1 in
  callbacks w2 !! 0 = Some [] /\
  api_calls w2
  = [ApiSubscribe node_ref "child_changed" cb;
     ApiUnsubscribe node_ref (Some "child_changed") (Some cb)].
Proof.
  cbv zeta.
  pose proof (on_without_callback_self_unsubscribes (fun _ v => v) node_ref "child_changed"
                "node/x" (VNumber 1%float) VNull [] node_world eq_refl (Forall_nil_2 _))
    as (_ & _ & (Hc & Ha & _) & _).
  split; [exact Hc|exact Ha].
Defined.

Section Replay.
Variable types_deserialize : string -> value -> value.

(** The world [on] leaves when it replays, for every truthy callback. *)
Lemma on_replays (this : DataReference) (event : string) (callback : cbarg)
    (replay : registration -> frame) (w : world) :
  wf_world w -> truthy_cb callback = true ->
  (if String.eqb event "value" then replay = ThenReplayValue
   else if String.eqb event "child_added" then replay = ThenReplayChildren
   else False) ->
  on this event callback w
  = (with_pending
       (fun l => l ++ [(S (length (api_calls w)),
                        [ThenSnapshot this; replay (registration_of w this event callback)])])
       (with_api_calls
          (fun l => l ++ [ApiSubscribe this event (registration_of w this event callback);
                          ApiGet this VUndefined])
          (with_callbacks
             (alter (fun l => l ++ [registration_of w this event callback]) (ref_id this))
             (with_next_id S (with_streams (fun l => l ++ [[]]) w)))),
     Ok (length (streams w))).
Proof.
  intros Hwf Htruthy Hevent. apply wf_world_pending in Hwf.
  unfold on, registration_of. rewrite Htruthy.
  unfold bind, EventStream_new, fresh_id, modify, api, get, then_, and_then, ret.
  simpl.
  assert (forall c fr,
             (fun p : nat * list frame =>
                if Nat.eqb p.1 (length (api_calls w ++ [c]))
                then (p.1, p.2 ++ [fr]) else p)
               <$> (pending w ++ [(length (api_calls w ++ [c]), [ThenSnapshot this])])
             = pending w ++ [(S (length (api_calls w)), [ThenSnapshot this; fr])]) as Hp.
  { intros c fr. rewrite length_app, Nat.add_1_r. by rewrite and_then_pending_fresh. }
  destruct (String.eqb event "value").
  - subst replay. simpl. unfold with_pending, with_api_calls. simpl.
    by rewrite Hp, <- app_assoc.
  - destruct (String.eqb event "child_added"); [|done].
    subst replay. simpl. unfold with_pending, with_api_calls. simpl.
    by rewrite Hp, <- app_assoc.
Qed.

(** The snapshots the replay for "child_added" publishes with the
    callback [true], the child references being made from identity
    [n] on. *)
Fixpoint published (this : DataReference) (stream : nat) (val : value) (n : nat)
    (keys : list string) : list delivery :=
  match keys with
  | [] => []
  | key :: keys' =>
      let p := trim_slashes (path this +:+ "/" +:+ trim_slashes key) in
      Published stream
        (Snapshot (Ref n p (key_of p)) (default VUndefined (get_prop_ok val key)))
      :: published this stream val (S n) keys'
  end.

Lemma publish_loop (cb : registration) (val : value) (keys : list string) (w : world) :
  original cb = CbTrue -> val <> VUndefined -> val <> VNull ->
  forEach keys
    (fun key =>
       c <~ child (reg_this cb) key;;
       x <~ lift (get_prop val key);;
       publish (subscr cb) (Snapshot c x) ;;;
       invoke_callback (original cb) (Snapshot c x)) w
  = (with_delivered
       (fun l => l ++ published (reg_this cb) (subscr cb) val (length (callbacks w)) keys)
       (with_callbacks (fun l => l ++ replicate (length keys) []) w),
     Ok tt).
Proof.
  intros Horig Hu Hn. revert w.
  set (body := fun key : string => bind _ _).
  assert (forall key w,
             body key w
             = (let p := trim_slashes (path (reg_this cb) +:+ "/" +:+ trim_slashes key) in
                let snap := Snapshot (Ref (length (callbacks w)) p (key_of p))
                              (default VUndefined (get_prop_ok val key)) in
                with_delivered (fun l => l ++ [Published (subscr cb) snap])
                  (with_callbacks (fun l => l ++ [[]]) w), Ok tt)) as Hbody.
  { intros key w. subst body. cbv beta zeta.
    unfold bind at 1, child, DataReference_new. cbn [fst snd].
    unfold bind at 1, lift. rewrite (get_prop_returns val key Hu Hn).
    rewrite Horig. unfold invoke_callback, publish, gets, ret.
    unfold bind, modify. cbn [fst snd]. done. }
  clearbody body. induction keys as [|key keys IH]; intros w.
  - simpl. unfold ret. f_equal. destruct w. unfold with_delivered, with_callbacks. simpl.
    by rewrite !app_nil_r.
  - cbn [forEach]. unfold bind. rewrite Hbody. cbv zeta. rewrite IH. f_equal.
    destruct w. unfold with_delivered, with_callbacks. simpl.
    rewrite length_app, Nat.add_1_r. f_equal.
    + by rewrite <- app_assoc.
    + by rewrite <- !app_assoc.
Qed.

Lemma publish_children_frames (this : DataReference) (cb : registration)
    (raw : value) (w : world) :
  original cb = CbTrue ->
  let val := types_deserialize (path this) raw in
  run_frames types_deserialize [ThenSnapshot this; ThenReplayChildren cb] (PValue raw) w
  = (with_delivered
       (fun l => l ++ published (reg_this cb) (subscr cb) val
                        (length (callbacks w)) (children val))
       (with_callbacks (fun l => l ++ replicate (length (children val)) []) w),
     match val with
     | VNull => Throw (TypeError "Cannot convert undefined or null to object")
     | _ => Ok (PValue VUndefined)
     end).
Proof.
  intros Horig. cbv zeta. cbn [run_frames run_frame]. unfold bind at 1, ret at 1.
  cbn [fst snd snap_val]. generalize (types_deserialize (path this) raw). intros val.
  assert (with_delivered (fun l => l ++ []) (with_callbacks (fun l => l ++ []) w) = w) as Hsame.
  { destruct w. unfold with_delivered, with_callbacks. simpl. by rewrite !app_nil_r. }
  unfold children.
  destruct val;
    try (simpl; unfold bind, ret, lift, throw; simpl; by rewrite Hsame);
    (cbn [typeof String.eqb negb]; simpl negb; cbv iota;
     unfold bind at 1, lift at 1; cbn [Object_keys fst snd];
     unfold bind at 1; unfold bind at 1; rewrite (publish_loop cb) by done;
     unfold bind, ret; reflexivity).
Qed.

(** X25: with [true] as the callback, [on] subscribes and reads as it
    does with a function, and the replay goes to the returned stream
    only: for "value" one snapshot of the value read, for
    "child_added" one snapshot per key of the value read, in the
    order of the keys; no function of the application is called, and
    the replay makes no backend call. *)
Theorem on_true_replays_to_stream_only (this : DataReference) (raw : value) (w : world) :
  wf_world w ->
  let val := types_deserialize (path this) raw in
  let k := S (length (api_calls w)) in
  (let cb := registration_of w this "value" CbTrue in
   let w1 := (on this "value" CbTrue w).1 in
   let w2 := (respond types_deserialize k (Ok raw) w1).1 in
   api_calls w1 = api_calls w ++ [ApiSubscribe this "value" cb; ApiGet this VUndefined] /\
   delivered w1 = delivered w /\
   delivered w2 = delivered w ++ [Published (subscr cb) (Snapshot this val)] /\
   api_calls w2 = api_calls w1) /\
  (let cb := registration_of w this "child_added" CbTrue in
   let w1 := (on this "child_added" CbTrue w).1 in
   let w2 := (respond types_deserialize k (Ok raw) w1).1 in
   api_calls w1 = api_calls w ++ [ApiSubscribe this "child_added" cb; ApiGet this VUndefined] /\
   delivered w1 = delivered w /\
   delivered w2
   = delivered w ++ published this (subscr cb) val (length (callbacks w)) (children val) /\
   api_calls w2 = api_calls w1).
Proof.
  intros Hwf. cbv zeta. split.
  - rewrite (on_replays this "value" CbTrue ThenReplayValue w Hwf eq_refl eq_refl).
    cbn [fst snd]. apply wf_world_pending in Hwf.
    erewrite Writing.respond_last; [|reflexivity|exact Hwf]. done.
  - rewrite (on_replays this "child_added" CbTrue ThenReplayChildren w Hwf eq_refl eq_refl).
    cbn [fst snd]. apply wf_world_pending in Hwf.
    erewrite Writing.respond_last; [|reflexivity|exact Hwf]. cbv zeta.
    rewrite publish_children_frames by done. simpl. by rewrite length_alter.
Qed.

End Replay.

(** X25 on a node that holds [{ a: 1, b: 2 }]. *)
Lemma on_true_replays_to_stream_only_ab :
  delivered (respond (fun _ v => v) 1 (Ok ab_value)
               (on node_ref "value" CbTrue node_world).1).1
  = [Published 0 (Snapshot node_ref ab_value)] /\
  delivered (respond (fun _ v => v) 1 (Ok ab_value)
               (on node_ref "child_added" CbTrue node_world).1).1
  = [Published 0 (Snapshot (Ref 1 "node/a" "a") (VNumber 1%float));
     Published 0 (Snapshot (Ref 2 "node/b" "b") (VNumber 2%float))].
Proof.
  pose proof (on_true_replays_to_stream_only (fun _ v => v) node_ref ab_value node_world
                (Forall_nil_2 _)) as [(_ & _ & Hvalue & _) (_ & _ & Hadded & _)].
  split; [exact Hvalue|exact Hadded].
Defined.

End Subscribing.

(** * More on queries ([DataReferenceQuery]) *)

Module Querying.
Import JS Reference Query.

(** [take(nr)] and [skip(nr)]: the number is stored as given. *)
Definition take_ (q : DataReferenceQuery) (nr : value) : DataReferenceQuery :=
  QueryOf (ref q) (filters q) (skip q) nr (order q).

Definition skip_ (q : DataReferenceQuery) (nr : value) : DataReferenceQuery :=
  QueryOf (ref q) (filters q) nr (take q) (order q).

(** [order(key, ascending = true)], for an [ascending] that is a
    boolean when it is given: the builder with the criterion added,
    or the string thrown. *)
Definition order_ (q : DataReferenceQuery) (key : value) (ascending : option bool)
  : result DataReferenceQuery :=
  if negb (String.eqb (typeof key) "string") then Throw (Thrown "key must be a string")
  else
    match key with
    | VString k =>
        Ok (QueryOf (ref q) (filters q) (skip q) (take q)
                    (order q ++ [Sort k (default true ascending)]))
    | _ => Throw (Thrown "key must be a string")
    end.

(** A call of one of the chainable methods of the builder. *)
Inductive call : Type :=
| Where (key op : string) (compare : value)
| Take (nr : value)
| Skip (nr : value)
| Order (key : value) (ascending : option bool).

Definition apply_call (q : DataReferenceQuery) (c : call) : result DataReferenceQuery :=
  match c with
  | Where key op compare => where_ q key op compare
  | Take nr => Ok (take_ q nr)
  | Skip nr => Ok (skip_ q nr)
  | Order key ascending => order_ q key ascending
  end.

(** A chain [q.m1(...).m2(...)...]: each method is called on what the
    one before returned, and the first one that throws ends it. *)
Fixpoint chain (q : DataReferenceQuery) (calls : list call) : result DataReferenceQuery :=
  match calls with
  | [] => Ok q
  | c :: calls' =>
      match apply_call q c with
      | Ok q' => chain q' calls'
      | Throw e => Throw e
      end
  end.

(** What a chain of calls asks for, kind by kind. *)
Definition filters_of (calls : list call) : list filter :=
  omap (fun c => match c with Where k o v => Some (Filter k o v) | _ => None end) calls.

Definition sorts_of (calls : list call) : list sort :=
  omap (fun c => match c with
                 | Order (VString k) a => Some (Sort k (default true a))
                 | _ => None
                 end) calls.

Definition last_take (nr : value) (calls : list call) : value :=
  foldl (fun nr c => match c with Take n => n | _ => nr end) nr calls.

Definition last_skip (nr : value) (calls : list call) : value :=
  foldl (fun nr c => match c with Skip n => n | _ => nr end) nr calls.

Lemma where_Ok (q q' : DataReferenceQuery) (key op : string) (compare : value) :
  where_ q key op compare = Ok q' -> q' = push_filter q (Filter key op compare).
Proof.
  unfold where_.
  repeat match goal with |- context [if ?b then _ else _] => destruct b end;
    by intros [= <-].
Qed.

Lemma chain_from (calls : list call) (q q' : DataReferenceQuery) :
  chain q calls = Ok q' ->
  ref q' = ref q /\
  filters q' = filters q ++ filters_of calls /\
  order q' = order q ++ sorts_of calls /\
  take q' = last_take (take q) calls /\
  skip q' = last_skip (skip q) calls.
Proof.
  revert q. induction calls as [|c calls IH]; intros q.
  - intros [= <-]. simpl. by rewrite !app_nil_r.
  - simpl. destruct (apply_call q c) as [q1|] eqn:Hc; [|done].
    intros Hchain. destruct (IH q1 Hchain) as (Hr & Hf & Ho & Ht & Hs).
    rewrite Hr, Hf, Ho, Ht, Hs. clear IH Hchain Hr Hf Ho Ht Hs.
    destruct c as [key op compare|nr|nr|key ascending]; simpl in Hc.
    + apply where_Ok in Hc as ->. simpl. by rewrite <- app_assoc.
    + by injection Hc as <-.
    + by injection Hc as <-.
    + unfold order_ in Hc. destruct key; try done. simpl in Hc. injection Hc as <-.
      simpl. by rewrite <- app_assoc.
Qed.

(** Whether a call returns does not depend on the builder. *)
Lemma apply_call_any (q q' : DataReferenceQuery) (c : call) :
  (exists r, apply_call q c = Ok r) -> exists r', apply_call q' c = Ok r'.
Proof.
  destruct c as [key op compare|nr|nr|key ascending]; simpl; try (by eexists).
  - unfold where_.
    repeat match goal with |- context [if ?b then _ else _] => destruct b end;
      intros [r Hr]; try done; by eexists.
  - unfold order_. destruct (negb _); [by intros [r ?]|].
    destruct key; intros [r Hr]; try done; by eexists.
Qed.

Lemma chain_returns (calls : list call) (q : DataReferenceQuery) :
  (exists q', chain q calls = Ok q') <->
  Forall (fun c => exists q', apply_call q c = Ok q') calls.
Proof.
  revert q. induction calls as [|c calls IH]; intros q; simpl.
  - split; [constructor|by eexists].
  - split.
    + intros [q' Hq']. destruct (apply_call q c) as [q1|] eqn:Hc; [|done].
      constructor; [by eexists|].
      assert (exists q', chain q1 calls = Ok q') as H by (by eexists).
      apply IH in H. eapply Forall_impl; [exact H|]. intros c'. apply apply_call_any.
    + intros [[q1 Hc] Hcalls]%Forall_cons. rewrite Hc. apply IH.
      eapply Forall_impl; [exact Hcalls|]. intros c'. apply apply_call_any.
Qed.

(** X20: a chain of [where], [take], [skip] and [order] calls on a
    new builder that returns has built the descriptor of its calls:
    the filters of the [where] calls and the criteria of the [order]
    calls in call order (an omitted [ascending] is [true]), the last
    [take] and the last [skip] (0 without one), on the same reference;
    how the kinds of calls are interleaved makes no difference.  And
    the chain returns exactly when each of its calls, made on a new
    builder by itself, returns: whether a call throws does not depend
    on the calls before it. *)
Theorem chain_builds_descriptor (r : DataReference) (calls : list call) :
  (forall q,
      chain (DataReferenceQuery_new r) calls = Ok q ->
      q = QueryOf r (filters_of calls) (last_skip (VNumber 0%float) calls)
            (last_take (VNumber 0%float) calls) (sorts_of calls)) /\
  ((exists q, chain (DataReferenceQuery_new r) calls = Ok q) <->
   Forall (fun c => exists q, apply_call (DataReferenceQuery_new r) c = Ok q) calls).
Proof.
  split; [|apply chain_returns].
  intros q Hchain. destruct (chain_from calls _ q Hchain) as (Hr & Hf & Ho & Ht & Hs).
  destruct q. simpl in *. by subst.
Qed.

(** A chain with every kind of call in it. *)
Example chain_example (r : DataReference) :
  chain (DataReferenceQuery_new r)
    [Take (VNumber 5%float); Where "age" ">" (VNumber 18%float); Order (VString "name") None;
     Take (VNumber 10%float); Order (VString "age") (Some false)]
  = Ok (QueryOf r [Filter "age" ">" (VNumber 18%float)] (VNumber 0%float) (VNumber 10%float)
          [Sort "name" true; Sort "age" false]).
Proof. reflexivity. Qed.

Example order_number_throws (q : DataReferenceQuery) :
  order_ q (VNumber 1%float) None = Throw (Thrown "key must be a string").
Proof. reflexivity. Qed.

(** ** Running a query *)

(** The options [get] has when none are given. *)
Definition default_options : list (string * value) :=
  [("snapshots", VBool true); ("include", VUndefined); ("exclude", VUndefined);
   ("child_objects", VUndefined)].

(** The first statement of [get], for options that are omitted or an
    object given by its properties: the options object after it,
    which is the object of the caller, changed in place, and what the
    backend [query] is called with. *)
Definition get_options (options : option (list (string * value))) : list (string * value) :=
  let options := default default_options options in
  if String.eqb (typeof (default VUndefined (assoc "snapshots" options))) "undefined"
  then assoc_set "snapshots" (VBool true) options
  else options.

(** [options.snapshots] as a condition, when the results arrive. *)
Definition snapshots_requested (options : list (string * value)) : bool :=
  truthy (default VUndefined (assoc "snapshots" options)).

(** [results.forEach((result, index) => { results[index] = ... })]:
    the new elements of the array, in its order. *)
Fixpoint mapW {A C} (f : A -> W C) (l : list A) : W (list C) :=
  match l with
  | [] => ret []
  | x :: l' => y <~ f x;; ys <~ mapW f l';; ret (y :: ys)
  end.

Section Results.
Variable types_serialize : string -> value -> value.
Variable types_deserialize : string -> value -> value.

(** The step of [get] on the results of the backend, when snapshots
    are requested: each result is a path and a value. *)
Definition wrap_snapshots (results : list (string * value)) : W (list snapshot) :=
  mapW (fun result =>
          let val := types_deserialize result.1 result.2 in
          r <~ db_ref result.1;;
          ret (Snapshot r val))
       results.

(** The same step when they are not: each result is a path. *)
Definition wrap_references (results : list string) : W (list DataReference) :=
  mapW db_ref results.

(** The step of the query's [remove] on the results of its [get]:
    [refs.map(ref => ref.remove())], the promises of the removals. *)
Definition remove_matches (results : list string) : W (list nat) :=
  refs <~ wrap_references results;;
  mapW (remove types_serialize) refs.

(** The references [db.ref] makes for a list of paths, from identity
    [n] on. *)
Definition refs_from (n : nat) (paths : list string) : list DataReference :=
  imap (fun i p => Ref (n + i) (trim_slashes p) (key_of (trim_slashes p))) paths.

(** The backend call of [set(null)] on a reference. *)
Definition set_null (r : DataReference) : api_call :=
  ApiSet r (types_serialize (path r) VNull).

Lemma more_callbacks (n : nat) (w : world) :
  with_callbacks (fun l => l ++ replicate n []) (with_callbacks (fun l => l ++ [[]]) w)
  = with_callbacks (fun l => l ++ replicate (S n) []) w.
Proof. destruct w. unfold with_callbacks. simpl. by rewrite <- app_assoc. Qed.

Lemma no_more_callbacks (w : world) : with_callbacks (fun l => l ++ replicate 0 []) w = w.
Proof. destruct w. unfold with_callbacks. simpl. by rewrite app_nil_r. Qed.

Lemma refs_from_cons (n : nat) (p : string) (paths : list string) :
  refs_from n (p :: paths)
  = Ref n (trim_slashes p) (key_of (trim_slashes p)) :: refs_from (S n) paths.
Proof.
  unfold refs_from. simpl. rewrite Nat.add_0_r. f_equal.
  apply imap_ext. intros i x _. simpl. f_equal. lia.
Qed.

Lemma wrap_references_result (paths : list string) (w : world) :
  wrap_references paths w
  = (with_callbacks (fun l => l ++ replicate (length paths) []) w,
     Ok (refs_from (length (callbacks w)) paths)).
Proof.
  unfold wrap_references. revert w. induction paths as [|p paths IH]; intros w; simpl.
  - by rewrite no_more_callbacks.
  - unfold bind at 1, db_ref, DataReference_new. simpl. unfold bind at 1. rewrite IH.
    simpl. rewrite more_callbacks, refs_from_cons. unfold ret. simpl.
    by rewrite length_app, Nat.add_1_r.
Qed.

Lemma wrap_snapshots_result (results : list (string * value)) (w : world) :
  wrap_snapshots results w
  = (with_callbacks (fun l => l ++ replicate (length results) []) w,
     Ok (zip_with (fun r result => Snapshot r (types_deserialize result.1 result.2))
           (refs_from (length (callbacks w)) (fst <$> results)) results)).
Proof.
  unfold wrap_snapshots. revert w. induction results as [|[p v] results IH]; intros w.
  - simpl. by rewrite no_more_callbacks.
  - change (fst <$> (p, v) :: results) with (p :: (fst <$> results)).
    rewrite refs_from_cons. simpl.
    unfold bind at 1, db_ref, DataReference_new. simpl. unfold bind at 1, ret at 1.
    unfold bind at 1. rewrite IH.
    simpl. rewrite more_callbacks. unfold ret. simpl.
    by rewrite length_app, Nat.add_1_r.
Qed.

Lemma remove_result (r : DataReference) (w : world) :
  remove types_serialize r w
  = if Nat.eqb (String.length (path r)) 0 then (w, Throw (Error "Cannot remove the top node"))
    else (with_pending (fun l => l ++ [(length (api_calls w), [ThenSet CbAbsent r])])
            (with_api_calls (fun l => l ++ [set_null r])
               (with_callbacks (fun l => l ++ [[]; []]) w)),
          Ok (length (api_calls w))).
Proof.
  unfold remove, bind, parent. destruct (Nat.eqb_spec (String.length (path r)) 0) as [H0|Hn].
  - destruct (path r); [done|discriminate].
  - assert (path r <> EmptyString) as Hne by (by destruct (path r)).
    destruct (parent_path (path r)) as [pp|] eqn:Hpp; [|by apply parent_path_None in Hpp].
    simpl. rewrite set_result, Hpp. simpl.
    unfold with_pending, with_api_calls, with_callbacks. simpl. by rewrite <- app_assoc.
Qed.

(** The removals of the matches before the first root reference. *)
Lemma remove_prefix (before rest : list DataReference) (w : world) :
  Forall (fun r => path r <> EmptyString) before ->
  exists w1,
    api_calls w1 = api_calls w ++ (set_null <$> before) /\
    delivered w1 = delivered w /\
    mapW (remove types_serialize) (before ++ rest) w
    = match mapW (remove types_serialize) rest w1 with
      | (w2, Ok ks) => (w2, Ok (seq (length (api_calls w)) (length before) ++ ks))
      | (w2, Throw e) => (w2, Throw e)
      end.
Proof.
  intros Hbefore. revert w. induction Hbefore as [|r before Hr _ IH]; intros w.
  - exists w. simpl. rewrite app_nil_r. split_and!; [done|done|].
    by destruct (mapW _ rest w) as [w2 [ks|e]].
  - simpl. unfold bind at 1. rewrite remove_result.
    destruct (Nat.eqb_spec (String.length (path r)) 0) as [H0|_];
      [by destruct (path r)|].
    set (w' := with_pending _ _).
    destruct (IH w') as (w1 & Ha & Hd & Hmap). exists w1.
    split_and!.
    + rewrite Ha. subst w'. simpl. by rewrite <- app_assoc.
    + by rewrite Hd.
    + unfold bind at 1. rewrite Hmap.
      destruct (mapW _ rest w1) as [w2 [ks|e]]; [|done].
      unfold ret. simpl. subst w'. simpl. by rewrite length_app, Nat.add_1_r.
Qed.

Lemma assoc_assoc_set {A} (k : string) (x : A) (l : list (string * A)) :
  assoc k (assoc_set k x l) = Some x.
Proof.
  induction l as [|[k' y] l IH]; simpl; [by rewrite String.eqb_refl|].
  destruct (String.eqb k' k) eqn:Hk; simpl; by rewrite Hk.
Qed.

(** X21: the query's [get] asks for snapshots unless the options of
    the caller hold a [snapshots] that is falsy and not [undefined]:
    without options, without the property and with [undefined] it
    does.  Its step on the results wraps them in the order and number
    the backend returned them: a snapshot for each path and value,
    with a new reference at the trimmed path and the value
    deserialized under the path as the backend gave it, or a new
    reference for each path; it makes no backend call and hands
    nothing over. *)
Theorem query_get_wraps_results (options : option (list (string * value)))
    (results : list (string * value)) (paths : list string) (w : world) :
  snapshots_requested (get_options options)
  = match options ≫= assoc "snapshots" with
    | Some v => if String.eqb (typeof v) "undefined" then true else truthy v
    | None => true
    end /\
  (exists snaps,
      (wrap_snapshots results w).2 = Ok snaps /\ length snaps = length results /\
      forall i p v,
        results !! i = Some (p, v) ->
        snaps !! i
        = Some (Snapshot (Ref (length (callbacks w) + i) (trim_slashes p)
                              (key_of (trim_slashes p)))
                         (types_deserialize p v))) /\
  (exists refs,
      (wrap_references paths w).2 = Ok refs /\ length refs = length paths /\
      forall i p,
        paths !! i = Some p ->
        refs !! i
        = Some (Ref (length (callbacks w) + i) (trim_slashes p) (key_of (trim_slashes p)))) /\
  api_calls (wrap_snapshots results w).1 = api_calls w /\
  api_calls (wrap_references paths w).1 = api_calls w /\
  delivered (wrap_snapshots results w).1 = delivered w /\
  delivered (wrap_references paths w).1 = delivered w.
Proof.
  rewrite wrap_snapshots_result, wrap_references_result. simpl. split_and!; try done.
  - unfold snapshots_requested, get_options. destruct options as [props|]; simpl; [|done].
    destruct (assoc "snapshots" props) as [v|] eqn:Hv; simpl.
    + destruct (String.eqb (typeof v) "undefined"); [by rewrite assoc_assoc_set|].
      by rewrite Hv.
    + by rewrite assoc_assoc_set.
  - eexists. split; [reflexivity|]. split.
    + rewrite length_zip_with. unfold refs_from. rewrite length_imap, length_fmap. lia.
    + intros i p v Hi. rewrite lookup_zip_with, Hi. unfold refs_from.
      rewrite list_lookup_imap, list_lookup_fmap, Hi. done.
  - eexists. split; [reflexivity|]. split.
    + unfold refs_from. by rewrite length_imap.
    + intros i p Hi. unfold refs_from. by rewrite list_lookup_imap, Hi.
Qed.

(** X22: the query's [remove] calls [remove] on the references of the
    matches one after the other.  When no match is the root, that is
    one backend [set] of the serialized [null] per match, in the order
    of the matches, and one promise for each.  When a match is the
    root, the step throws "Cannot remove the top node" there: the
    removals of the matches before it have been issued, those of the
    matches after it never are. *)
Theorem query_remove_stops_at_root (before after : list string) (p : string) (w : world) :
  Forall (fun p => trim_slashes p <> EmptyString) before ->
  let removed := set_null <$> refs_from (length (callbacks w)) before in
  ((remove_matches before w).2 = Ok (seq (length (api_calls w)) (length before)) /\
   api_calls (remove_matches before w).1 = api_calls w ++ removed) /\
  (trim_slashes p = EmptyString ->
   (remove_matches (before ++ p :: after) w).2 = Throw (Error "Cannot remove the top node") /\
   api_calls (remove_matches (before ++ p :: after) w).1 = api_calls w ++ removed).
Proof.
  intros Hbefore. cbv zeta.
  assert (forall n, Forall (fun r => path r <> EmptyString) (refs_from n before)) as Hrefs.
  { intros n. unfold refs_from. apply Forall_forall. intros r Hr.
    apply list_elem_of_lookup in Hr as [i Hi]. rewrite list_lookup_imap in Hi.
    destruct (before !! i) as [q|] eqn:Hq; [|done]. injection Hi as <-. simpl.
    rewrite Forall_forall in Hbefore. apply Hbefore. by eapply list_elem_of_lookup_2. }
  split.
  - unfold remove_matches, bind. rewrite wrap_references_result.
    set (w0 := with_callbacks _ w).
    destruct (remove_prefix (refs_from (length (callbacks w)) before) [] w0 (Hrefs _))
      as (w1 & Ha & _ & Hmap).
    rewrite app_nil_r in Hmap. rewrite Hmap. simpl.
    rewrite app_nil_r. unfold refs_from at 1. by rewrite length_imap.
  - intros Hroot. unfold remove_matches, bind. rewrite wrap_references_result.
    set (w0 := with_callbacks _ w).
    assert (refs_from (length (callbacks w)) (before ++ p :: after)
            = refs_from (length (callbacks w)) before
              ++ Ref (length (callbacks w) + length before) EmptyString EmptyString
                 :: refs_from (length (callbacks w) + S (length before)) after) as ->.
    { unfold refs_from. rewrite imap_app. f_equal. simpl. rewrite Hroot, Nat.add_0_r.
      f_equal. apply imap_ext. intros i x _. simpl. f_equal. lia. }
    destruct (remove_prefix (refs_from (length (callbacks w)) before)
                (Ref (length (callbacks w) + length before) EmptyString EmptyString
                   :: refs_from (length (callbacks w) + S (length before)) after)
                w0 (Hrefs _)) as (w1 & Ha & _ & Hmap).
    rewrite Hmap. simpl. split; [done|]. by rewrite Ha.
Qed.

End Results.

(** X22 on three matches, the second of them the root. *)
Lemma query_remove_stops_at_root_example :
  (remove_matches (fun _ v => v) ["users/a"; ""; "users/c"] node_world).2
  = Throw (Error "Cannot remove the top node") /\
  api_calls (remove_matches (fun _ v => v) ["users/a"; ""; "users/c"] node_world).1
  = [ApiSet (Ref 1 "users/a" "a") VNull].
Proof.
  pose proof (query_remove_stops_at_root (fun _ v => v) ["users/a"] ["users/c"] "" node_world)
    as H.
  destruct H as [_ Hroot]; [constructor; [discriminate|constructor]|].
  exact (Hroot eq_refl).
Defined.

End Querying.

(** * Retrieval options ([DataRetrievalOptions]) *)

Module Options.
Import JS.

(** [x || undefined] *)
Definition or_undefined (x : value) : value := if truthy x then x else VUndefined.

(** The constructor: the object it makes from [options], or the
    exception of reading a property of [null] or [undefined]. *)
Definition DataRetrievalOptions_new (options : value) : result value :=
  include ← get_prop options "include";
  exclude ← get_prop options "exclude";
  child_objects ← get_prop options "child_objects";
  Ok (VObject
        [("include", or_undefined include);
         ("exclude", or_undefined exclude);
         ("child_objects",
          if String.eqb (typeof child_objects) "boolean" then child_objects else VUndefined)]).

(** X23: the constructor throws, a [TypeError], exactly when its
    argument is [null] or [undefined].  Otherwise it returns an object
    with the three properties [include], [exclude] and
    [child_objects], in which [include] and [exclude] are [undefined]
    or truthy and [child_objects] is [undefined] or a boolean, and
    the constructor applied to that object returns an equal object. *)
Theorem retrieval_options_normal_form (options : value) :
  (DataRetrievalOptions_new options
   = Throw (TypeError "Cannot read properties of undefined or null")
   <-> options = VUndefined \/ options = VNull) /\
  (forall o,
      DataRetrievalOptions_new options = Ok o ->
      exists include exclude child_objects,
        o = VObject [("include", include); ("exclude", exclude);
                     ("child_objects", child_objects)] /\
        (include = VUndefined \/ truthy include = true) /\
        (exclude = VUndefined \/ truthy exclude = true) /\
        (child_objects = VUndefined \/ exists b, child_objects = VBool b) /\
        DataRetrievalOptions_new o = Ok o).
Proof.
  split.
  - destruct options; simpl; split; try done; try (by intros [|]); by auto.
  - intros o. unfold DataRetrievalOptions_new.
    destruct (get_prop options "include") as [include|] eqn:Hi; [|done]. simpl.
    destruct (get_prop options "exclude") as [exclude|] eqn:He; [|done]. simpl.
    destruct (get_prop options "child_objects") as [co|] eqn:Hc; [|done]. simpl.
    intros [= <-]. eexists _, _, _. split; [reflexivity|].
    assert (forall x, or_undefined x = VUndefined \/ truthy (or_undefined x) = true) as Hor.
    { intros x. unfold or_undefined. destruct (truthy x) eqn:Hx; auto. }
    assert (forall x, or_undefined (or_undefined x) = or_undefined x) as Hidem.
    { intros x. unfold or_undefined. destruct (truthy x) eqn:Hx; [by rewrite Hx|done]. }
    split_and!; [apply Hor|apply Hor| |].
    + destruct co; simpl; eauto.
    + simpl. rewrite !Hidem. do 4 f_equal. by destruct co.
Qed.

Example retrieval_options_example :
  DataRetrievalOptions_new
    (VObject [("include", VArray [VString "name"]); ("exclude", VString "");
              ("child_objects", VNumber 1%float)])
  = Ok (VObject [("include", VArray [VString "name"]); ("exclude", VUndefined);
                 ("child_objects", VUndefined)]).
Proof. reflexivity. Qed.

End Options.

(** * The database object ([AceBase], [src/acebase.js]): [ready] *)

Module Database.

(** A listener for the "ready" event: the one the constructor adds
    with [once], which sets [_ready], or one that [ready] adds with
    [on], which resolves the promise [ready] returned and then calls
    the callback, if there is one. *)
Inductive listener : Type :=
| MarkReady
| Waiting (promise : nat) (callback : option nat).

(** What the application sees: a promise of [ready] resolved, a
    callback called. *)
Inductive happening : Type :=
| Resolved (promise : nat)
| CalledBack (callback : nat).

(** The database object: [_ready], the listeners for "ready" in the
    order they were added, what has happened, and the number of
    promises made. *)
Record AceBase : Type := Db {
  _ready : bool;
  listeners : list listener;
  happened : list happening;
  promises : nat
}.

(** The constructor, as far as "ready" goes: [_ready] is not set, and
    [this.once("ready", () => { this._ready = true })].  The backend
    or the storage it sets up emits the event. *)
Definition AceBase_new : AceBase := Db false [MarkReady] [] 0.

(** [callback && callback()] *)
Definition call_back (callback : option nat) : list happening :=
  match callback with
  | Some f => [CalledBack f]
  | None => []
  end.

(** A listener called. *)
Definition run_listener (db : AceBase) (l : listener) : AceBase :=
  match l with
  | MarkReady => Db true (listeners db) (happened db) (promises db)
  | Waiting p callback =>
      Db (_ready db) (listeners db) (happened db ++ Resolved p :: call_back callback)
         (promises db)
  end.

(** A listener added with [once]. *)
Definition is_once (l : listener) : bool :=
  match l with MarkReady => true | Waiting _ _ => false end.

(** [this.emit("ready")] of the [EventEmitter]: the listeners there
    are at the call are called in the order they were added, and one
    added with [once] is removed before it is called. *)
Definition emit_ready (db : AceBase) : AceBase :=
  foldl run_listener
    (Db (_ready db) (List.filter (fun l => negb (is_once l)) (listeners db))
        (happened db) (promises db))
    (listeners db).

(** [ready(callback)]; the promise it returns is the number of
    promises made before. *)
Definition ready (db : AceBase) (callback : option nat) : AceBase :=
  if _ready db then
    Db true (listeners db) (happened db ++ call_back callback ++ [Resolved (promises db)])
       (S (promises db))
  else
    Db false (listeners db ++ [Waiting (promises db) callback]) (happened db)
       (S (promises db)).

(** What happens to the database object. *)
Inductive op : Type :=
| Emit
| Ready (callback : option nat).

Definition step (db : AceBase) (o : op) : AceBase :=
  match o with
  | Emit => emit_ready db
  | Ready callback => ready db callback
  end.

Definition run (db : AceBase) (ops : list op) : AceBase := foldl step db ops.

(** The callbacks called, and the promises resolved, in order. *)
Definition called (db : AceBase) : list nat :=
  omap (fun h => match h with CalledBack f => Some f | _ => None end) (happened db).

Definition resolved (db : AceBase) : list nat :=
  omap (fun h => match h with Resolved p => Some p | _ => None end) (happened db).

(** The listeners of the calls of [ready] with [callbacks], the first
    of them with promise [n]. *)
Definition waiting_from (n : nat) (callbacks : list (option nat)) : list listener :=
  imap (fun i callback => Waiting (n + i) callback) callbacks.

Section ReadyFacts.

Lemma waiting_from_cons (n : nat) (c : option nat) (cs : list (option nat)) :
  waiting_from n (c :: cs) = Waiting n c :: waiting_from (S n) cs.
Proof.
  unfold waiting_from. simpl. rewrite Nat.add_0_r. f_equal.
  apply imap_ext. intros i x _. simpl. f_equal. lia.
Qed.

Lemma run_ready_before (callbacks : list (option nat)) (db : AceBase) :
  _ready db = false ->
  run db (Ready <$> callbacks)
  = Db false (listeners db ++ waiting_from (promises db) callbacks) (happened db)
       (promises db + length callbacks).
Proof.
  revert db. induction callbacks as [|c cs IH]; intros db Hdb.
  - simpl. destruct db. simpl in *. subst. by rewrite app_nil_r, Nat.add_0_r.
  - rewrite waiting_from_cons. csimpl. unfold run in *. simpl.
    unfold ready. rewrite Hdb. rewrite IH by done. simpl. rewrite <- app_assoc. simpl.
    f_equal. lia.
Qed.

Lemma run_waiting (callbacks : list (option nat)) (n : nat) (db : AceBase) :
  foldl run_listener db (waiting_from n callbacks)
  = Db (_ready db) (listeners db)
       (happened db ++
        mjoin (imap (fun i callback => Resolved (n + i) :: call_back callback) callbacks))
       (promises db).
Proof.
  revert n db. induction callbacks as [|c cs IH]; intros n db.
  - simpl. destruct db. simpl. by rewrite app_nil_r.
  - rewrite waiting_from_cons. simpl. rewrite IH. simpl. rewrite Nat.add_0_r.
    rewrite <- app_assoc. do 2 f_equal. simpl. do 3 f_equal.
    apply imap_ext. intros i x _. simpl. do 2 f_equal. lia.
Qed.

Lemma run_ready_after (callbacks : list (option nat)) (db : AceBase) :
  _ready db = true ->
  run db (Ready <$> callbacks)
  = Db true (listeners db)
       (happened db ++
        mjoin (imap (fun i callback => call_back callback ++ [Resolved (promises db + i)])
                 callbacks))
       (promises db + length callbacks).
Proof.
  revert db. induction callbacks as [|c cs IH]; intros db Hdb.
  - simpl. destruct db. simpl in *. subst. by rewrite app_nil_r, Nat.add_0_r.
  - csimpl. unfold run in *. simpl.
    unfold ready. rewrite Hdb. rewrite IH by done. simpl.
    rewrite Nat.add_0_r, <- !app_assoc.
    f_equal; [|lia]. do 4 f_equal.
    apply imap_ext. intros i x _. simpl. do 3 f_equal. lia.
Qed.

Lemma filter_waiting (n : nat) (callbacks : list (option nat)) :
  List.filter (fun l => negb (is_once l)) (waiting_from n callbacks) = waiting_from n callbacks.
Proof.
  revert n. induction callbacks as [|c cs IH]; intros n; [done|].
  rewrite waiting_from_cons. simpl. by rewrite IH.
Qed.

Lemma called_resolved_before (n : nat) (callbacks : list (option nat)) :
  omap (fun h => match h with CalledBack f => Some f | _ => None end)
       (mjoin (imap (fun i callback => Resolved (n + i) :: call_back callback) callbacks))
  = omap id callbacks /\
  omap (fun h => match h with Resolved p => Some p | _ => None end)
       (mjoin (imap (fun i callback => Resolved (n + i) :: call_back callback) callbacks))
  = seq n (length callbacks).
Proof.
  revert n. induction callbacks as [|c cs IH]; intros n; [done|].
  csimpl. rewrite Nat.add_0_r.
  assert (imap ((fun i callback => Resolved (n + i) :: call_back callback) ∘ S) cs
          = imap (fun i callback => Resolved (S n + i) :: call_back callback) cs) as ->.
  { apply imap_ext. intros i x _. simpl. do 2 f_equal. lia. }
  destruct (IH (S n)) as [Hc Hr]. rewrite !omap_app, Hc, Hr. by destruct c.
Qed.

Lemma called_resolved_after (n : nat) (callbacks : list (option nat)) :
  omap (fun h => match h with CalledBack f => Some f | _ => None end)
       (mjoin (imap (fun i callback => call_back callback ++ [Resolved (n + i)]) callbacks))
  = omap id callbacks /\
  omap (fun h => match h with Resolved p => Some p | _ => None end)
       (mjoin (imap (fun i callback => call_back callback ++ [Resolved (n + i)]) callbacks))
  = seq n (length callbacks).
Proof.
  revert n. induction callbacks as [|c cs IH]; intros n; [done|].
  csimpl. rewrite Nat.add_0_r.
  assert (imap ((fun i callback => call_back callback ++ [Resolved (n + i)]) ∘ S) cs
          = imap (fun i callback => call_back callback ++ [Resolved (S n + i)]) cs) as ->.
  { apply imap_ext. intros i x _. simpl. do 3 f_equal. lia. }
  destruct (IH (S n)) as [Hc Hr]. rewrite !omap_app, Hc, Hr. by destruct c.
Qed.

End ReadyFacts.

(** X24: with the "ready" event emitted once, every call of [ready]
    gets its promise resolved once and its callback, if it gave one,
    called once, whether the call comes before the event or after it,
    and the callbacks are called in the order of the calls of
    [ready]; nothing is resolved or called before the event.  The
    listeners of the calls made before the event stay on the
    emitter. *)
Theorem ready_calls_back_once (before after : list (option nat)) :
  let waiting := run AceBase_new (Ready <$> before) in
  let db := run AceBase_new ((Ready <$> before) ++ Emit :: (Ready <$> after)) in
  happened waiting = [] /\
  called db = omap id (before ++ after) /\
  resolved db = seq 0 (length before + length after) /\
  _ready db = true /\
  listeners db = waiting_from 0 before.
Proof.
  cbv zeta. rewrite run_ready_before by done. split; [done|].
  assert (run AceBase_new ((Ready <$> before) ++ Emit :: (Ready <$> after))
          = Db true (waiting_from 0 before)
              (mjoin (imap (fun i callback => Resolved (0 + i) :: call_back callback) before)
               ++ mjoin (imap (fun i callback =>
                                 call_back callback ++ [Resolved (length before + i)]) after))
              (length before + length after)) as ->.
  { unfold run. rewrite foldl_app. fold (run AceBase_new (Ready <$> before)).
    rewrite run_ready_before by done. simpl.
    unfold emit_ready. simpl. rewrite filter_waiting.
    rewrite (run_waiting before 0). simpl.
    match goal with |- foldl step ?d _ = _ => fold (run d (Ready <$> after)) end.
    by rewrite run_ready_after. }
  unfold called, resolved. cbn [happened _ready listeners]. rewrite !omap_app.
  destruct (called_resolved_before 0 before) as [-> ->].
  destruct (called_resolved_after (length before) after) as [-> ->].
  split_and!; try done. by rewrite seq_app.
Qed.

(** With the event emitted a second time, a callback given before the
    first is called again. *)
Example ready_emitted_twice :
  called (run AceBase_new [Ready (Some 7); Emit; Ready (Some 8); Emit]) = [7; 8; 7].
Proof. reflexivity. Qed.

End Database.
